(** * 24 Mountains compass: angular geometry, rotation state and service glue

    A shallow embedding of the TypeScript sources
    ([constants.ts], [types.ts], [App.tsx], [services/geoService.ts],
    [services/geminiService.ts], [components/CompassOverlay.tsx],
    [components/SearchBar.tsx]).

    Number model.  A finite JavaScript [number] is represented by the
    rational it denotes ([Q], compared with [==]); NaN, the infinities and
    the sign of zero are not represented.  Where an operation of the
    sources can round, the model rounds: [Binary64.nearest] is IEEE 754
    round-to-nearest, ties to even, to 53 significant bits with gradual
    underflow, and [JS.add], [JS.sub], [JS.mul] and [JS.div] apply it to the
    exact result.  The operations that are exact on doubles are written
    without it: comparisons, the remainder [%], [Math.round], doubling and
    halving, and the sums and halves of the constants of the sector table
    (all of them dyadic).  [toFixed] prints, and [parseFloat] reads, the
    exact decimal value.  [Math.atan2], whose values are left to the engine,
    is a parameter of the pointer bearing, constrained by what every engine
    guarantees of it ([conforming]).  The geometry of the ring, which needs
    [Math.cos] and [Math.sin], is treated over the real numbers (section
    [Ring]). *)

From Stdlib Require Import Reals Lra Qreals.
From Stdlib Require Import QArith Qround Qabs Qpower ZArith NArith Nnat Lia Lqa.
From Stdlib Require Import List String Ascii Bool Permutation.
From Stdlib Require Import Floats.
Import ListNotations.

Open Scope Q_scope.

(** ** IEEE 754 binary64 rounding *)

Module Binary64.

(** [floor (log2 x)] of a positive rational: the difference [k] of the bit
    lengths of numerator and denominator is that value or one above it. *)
Definition ilog2 (x : Q) : Z :=
  let k := (Z.log2 (Qnum x) - Z.log2 (Zpos (Qden x)))%Z in
  if Qle_bool (2 ^ k) x then k else (k - 1)%Z.

(** The exponent of the last place of a positive number: 52 below its
    leading bit, and never below that of the subnormal numbers. *)
Definition cexp (x : Q) : Z := Z.max (ilog2 x - 52) (-1074).

(** The integer nearest to [x], the even one of the two on a tie. *)
Definition rne (x : Q) : Z :=
  let f := Qfloor x in
  match Qcompare (x - inject_Z f) (1 # 2) with
  | Lt => f
  | Gt => (f + 1)%Z
  | Eq => if Z.even f then f else (f + 1)%Z
  end.

Definition nearestPos (x : Q) : Q :=
  let e := cexp x in inject_Z (rne (x / 2 ^ e)) * 2 ^ e.

(** The double nearest to [x].  The exponent is not bounded above, so an
    overflow to an infinity is not represented: adding or subtracting 360
    or 0.5 never takes a double beyond the largest one. *)
Definition nearest (x : Q) : Q :=
  match Qcompare x 0 with
  | Eq => 0
  | Gt => nearestPos x
  | Lt => - nearestPos (- x)
  end.

(** [x] is (the value of) a double. *)
Definition isDouble (x : Q) : bool := Qeq_bool (nearest x) x.

(** The value of a finite primitive float of the kernel, used to compare
    [nearest] with the arithmetic of the machine. *)
Definition exactValue (f : float) : Q :=
  match Prim2SF f with
  | S754_finite negative m e =>
      (if negative then -1 else 1) * inject_Z (Zpos m) * 2 ^ e
  | _ => 0
  end.

Definition finite (f : float) : bool :=
  match Prim2SF f with
  | S754_finite _ _ _ | S754_zero _ => true
  | _ => false
  end.

(** [op a b], computed by the machine, is the rounded exact result. *)
Definition agrees (op : float -> float -> float) (exact : Q -> Q -> Q)
    (ab : float * float) : bool :=
  let (a, b) := ab in
  finite (op a b)
  && Qeq_bool (exactValue (op a b)) (nearest (exact (exactValue a) (exactValue b))).

Definition samples : list (float * float) :=
  [(0x1.999999999999ap-4, 0x1.999999999999ap-3);
   (-0x1.203af9ee75616p-50, 360);
   (0x1.fffffffffffffp-2, -0.5);
   (-0x1p-45, 360);
   (-0x1.8p-45, 360);
   (0x1.67fffffffffffp+8, 360);
   (-0x1.899999999999ap+3, 360);
   (0x1.5bb3333333333p+8, 360);
   (0x1.7a8f5c28f5c29p+3, 360);
   (0x1p-1074, 0x1.8p+0);
   (0x1p-1074, 0.5);
   (0x1p-1022, 0x1.fffffffffffffp-1);
   (0x1p+53, 1);
   (0x1.0000000000001p+53, 1);
   (-0x1.921fb54442d18p+0, 180);
   (-0x1.921fb54442d19p+0, 180);
   (0x1.921fb54442d18p+1, 180);
   (-0x1.1ababababababp+8, 0x1.921fb54442d18p+1);
   (-0x1.6800000000001p+6, 90);
   (1, 3); (-1, 3); (2, 3); (1, 10); (7, 0x1p-30);
   (0x1.81cd6c8b43958p+13, 0x1.23456789abcdep-7)]%float.

(** The largest double, with the constants added to and taken from a
    rotation. *)
Definition largest : list (float * float) :=
  [(0x1.fffffffffffffp+1023, 360); (0x1.fffffffffffffp+1023, -360);
   (0x1.fffffffffffffp+1023, 0.5); (-0x1.fffffffffffffp+1023, 360);
   (-0x1.fffffffffffffp+1023, -0.5)]%float.

End Binary64.

(** ** JavaScript arithmetic on numbers *)

Module JS.

(** [x < y] and [x >= y] on numbers, as booleans. *)
Definition ltb (x y : Q) : bool := negb (Qle_bool y x).
Definition geb (x y : Q) : bool := Qle_bool y x.

(** [x + y], [x - y], [x * y] and [x / y] (for [y] other than zero). *)
Definition add (x y : Q) : Q := Binary64.nearest (x + y).
Definition sub (x y : Q) : Q := Binary64.nearest (x - y).
Definition mul (x y : Q) : Q := Binary64.nearest (x * y).
Definition div (x y : Q) : Q := Binary64.nearest (x / y).

(** Truncation toward zero (the integer quotient used by [%]). *)
Definition trunc (x : Q) : Z :=
  if Qle_bool 0 x then Qfloor x else Qceiling x.

(** [x % m]: the remainder has the sign of the dividend.  The remainder of
    two doubles is a double, so [%] never rounds. *)
Definition rem (x m : Q) : Q := x - m * inject_Z (trunc (x / m)).

(** [Math.round(x)]: nearest integer, ties toward +infinity. *)
Definition round (x : Q) : Z := Qfloor (x + (1 # 2)).

(** Texts are held in UTF-8; JavaScript indexes and counts UTF-16 code
    units.  A character of the basic plane (one to three bytes) is one
    unit; a character beyond it (four bytes) is two, its high and its low
    surrogate, given here in the three-byte form of their code points. *)
Definition surrogate (u : N) : string :=
  String (ascii_of_N 237)
    (String (ascii_of_N (128 + (u / 64) mod 64))
       (String (ascii_of_N (128 + u mod 64)) EmptyString)).

Fixpoint units (s : list ascii) : list string :=
  match s with
  | [] => []
  | c :: rest =>
      let n := N_of_ascii c in
      if (240 <=? n)%N then
        match rest with
        | c1 :: c2 :: c3 :: rest' =>
            let cp := ((n mod 8) * 262144 + (N_of_ascii c1 mod 64) * 4096
                       + (N_of_ascii c2 mod 64) * 64 + N_of_ascii c3 mod 64)%N in
            let v := (cp - 65536)%N in
            surrogate (55296 + v / 1024) :: surrogate (56320 + v mod 1024)
              :: units rest'
        | _ => [string_of_list_ascii s]
        end
      else if (224 <=? n)%N then
        match rest with
        | c1 :: c2 :: rest' =>
            String c (String c1 (String c2 EmptyString)) :: units rest'
        | _ => [string_of_list_ascii s]
        end
      else if (192 <=? n)%N then
        match rest with
        | c1 :: rest' => String c (String c1 EmptyString) :: units rest'
        | _ => [string_of_list_ascii s]
        end
      else String c EmptyString :: units rest
  end.

(** [s.length] *)
Definition length (s : string) : nat :=
  List.length (units (list_ascii_of_string s)).

(** [s[i]]: the unit at index [i], if there is one. *)
Definition charAt (s : string) (i : nat) : option string :=
  nth_error (units (list_ascii_of_string s)) i.

End JS.

(** [((x % 360) + 360) % 360], written twice in the sources:
    [normalizedRotation] in geminiService.ts and
    [normalizedTemplateRotation] in App.tsx. *)
Definition normalize (x : Q) : Q := JS.rem (JS.add (JS.rem x 360) 360) 360.

(** ** types.ts and constants.ts *)

Record Mountain : Type := mkMountain {
  id : string;
  chineseName : string;
  pinyin : string;
  name : string;
  element : string;
  direction : string;
  startDegree : Q;
  endDegree : Q;
  description : string
}.

Open Scope string_scope.

Definition MOUNTAINS : list Mountain := [
  mkMountain "n1" "壬" "Ren" "Жэнь (С1)" "Water" "N1" 337.5 352.5 "Вода Ян, Крыса";
  mkMountain "n2" "子" "Zi" "Цзы (С2)" "Water" "N2" 352.5 7.5 "Вода Инь, Император";
  mkMountain "n3" "癸" "Gui" "Гуй (С3)" "Water" "N3" 7.5 22.5 "Вода Инь";

  mkMountain "ne1" "丑" "Chou" "Чоу (СВ1)" "Earth" "NE1" 22.5 37.5 "Земля Инь, Бык";
  mkMountain "ne2" "艮" "Gen" "Гэнь (СВ2)" "Earth" "NE2" 37.5 52.5 "Триграмма Гора";
  mkMountain "ne3" "寅" "Yin" "Инь (СВ3)" "Wood" "NE3" 52.5 67.5 "Дерево Ян, Тигр";

  mkMountain "e1" "甲" "Jia" "Цзя (В1)" "Wood" "E1" 67.5 82.5 "Дерево Ян";
  mkMountain "e2" "卯" "Mao" "Мао (В2)" "Wood" "E2" 82.5 97.5 "Дерево Инь, Кролик";
  mkMountain "e3" "乙" "Yi" "И (В3)" "Wood" "E3" 97.5 112.5 "Дерево Инь";

  mkMountain "se1" "辰" "Chen" "Чэнь (ЮВ1)" "Earth" "SE1" 112.5 127.5 "Земля Ян, Дракон";
  mkMountain "se2" "巽" "Xun" "Сюнь (ЮВ2)" "Wood" "SE2" 127.5 142.5 "Триграмма Ветер";
  mkMountain "se3" "巳" "Si" "Сы (ЮВ3)" "Fire" "SE3" 142.5 157.5 "Огонь Ян, Змея";

  mkMountain "s1" "丙" "Bing" "Бин (Ю1)" "Fire" "S1" 157.5 172.5 "Огонь Ян";
  mkMountain "s2" "午" "Wu" "У (Ю2)" "Fire" "S2" 172.5 187.5 "Огонь Инь, Лошадь";
  mkMountain "s3" "丁" "Ding" "Дин (Ю3)" "Fire" "S3" 187.5 202.5 "Огонь Инь";

  mkMountain "sw1" "未" "Wei" "Вэй (ЮЗ1)" "Earth" "SW1" 202.5 217.5 "Земля Инь, Коза";
  mkMountain "sw2" "坤" "Kun" "Кунь (ЮЗ2)" "Earth" "SW2" 217.5 232.5 "Триграмма Земля";
  mkMountain "sw3" "申" "Shen" "Шэнь (ЮЗ3)" "Metal" "SW3" 232.5 247.5 "Металл Ян, Обезьяна";

  mkMountain "w1" "庚" "Geng" "Гэн (З1)" "Metal" "W1" 247.5 262.5 "Металл Ян";
  mkMountain "w2" "酉" "You" "Ю (З2)" "Metal" "W2" 262.5 277.5 "Металл Инь, Петух";
  mkMountain "w3" "辛" "Xin" "Синь (З3)" "Metal" "W3" 277.5 292.5 "Металл Инь";

  mkMountain "nw1" "戌" "Xu" "Сюй (СЗ1)" "Earth" "NW1" 292.5 307.5 "Земля Ян, Собака";
  mkMountain "nw2" "乾" "Qian" "Цянь (СЗ2)" "Metal" "NW2" 307.5 322.5 "Триграмма Небо";
  mkMountain "nw3" "亥" "Hai" "Хай (СЗ3)" "Water" "NW3" 322.5 337.5 "Вода Ян, Свинья"
].

Close Scope string_scope.

(** The fallback record used by [nth]; it is never an element of the table. *)
Definition noMountain : Mountain :=
  mkMountain "" "" "" "" "" "" 0 0 "".

(** ** Sector geometry *)

(** A sector wraps across 0/360 when its end is numerically below its
    start. *)
Definition wraps (m : Mountain) : bool := JS.ltb (endDegree m) (startDegree m).

(** Angular width of a sector, the end moved one turn up when it wraps. *)
Definition arcWidth (m : Mountain) : Q :=
  (if wraps m then endDegree m + 360 else endDegree m) - startDegree m.

(** Modelled from the spec: sector membership of section 4.2 (the sources
    hold the table but no lookup function).  A plain sector contains [a]
    when [start <= a < end]; the wrap-around sector when
    [a >= start || a < end]. *)
Definition inSector (a : Q) (m : Mountain) : bool :=
  if wraps m
  then JS.geb a (startDegree m) || JS.ltb a (endDegree m)
  else JS.geb a (startDegree m) && JS.ltb a (endDegree m).

(** Modelled from the spec: [sectorAt], the first sector of the table that
    contains the angle. *)
Definition sectorAt (a : Q) : option Mountain := find (inSector a) MOUNTAINS.

(** [oneTrue bs]: exactly one entry of [bs] holds. *)
Fixpoint oneTrue (bs : list bool) : bool :=
  match bs with
  | [] => false
  | true :: rest => negb (existsb (fun b => b) rest)
  | false :: rest => oneTrue rest
  end.

(** The sector following the one at index [i], cyclically. *)
Definition nextIndex (i : nat) : nat := Nat.modulo (S i) (List.length MOUNTAINS).

(** ** Arc midpoint (App.tsx [fetchMountainAltitudes], CompassOverlay label
       placement) *)

(** [let s = startDegree; let e = endDegree; if (e < s) e += 360;
     mid = (s + e) / 2].  Both places of the sources compute exactly this and
    pass the result on to [Math.cos] / [Math.sin]. *)
Definition wrapAdjustedEnd (m : Mountain) : Q :=
  if JS.ltb (endDegree m) (startDegree m) then endDegree m + 360 else endDegree m.

Definition midDegree (m : Mountain) : Q :=
  let s := startDegree m in
  let e := wrapAdjustedEnd m in
  (s + e) / 2.

(** The midpoint as section 4.3 of the specification words it: the same
    value passed through [normalize]. *)
Definition spec_midpointOf (m : Mountain) : Q := normalize (midDegree m).

(** ** Facade rotation state (App.tsx) *)

(** [handleFacadeRotationChange]: the value handed to [setFacadeRotation]. *)
Definition handleFacadeRotationChange (val : Q) : Q :=
  let newRot := val in
  let newRot := if JS.geb newRot 360 then JS.sub newRot 360 else newRot in
  let newRot := if JS.ltb newRot 0 then JS.add newRot 360 else newRot in
  newRot.

(** [adjustFacadeRotation delta], from the current [facadeRotation]. *)
Definition adjustFacadeRotation (facadeRotation delta : Q) : Q :=
  handleFacadeRotationChange (JS.add facadeRotation delta).

(** [Math.round(r * 2) / 2]: the 0.5-degree grid point used for snapping. *)
Definition snap (r : Q) : Q := inject_Z (JS.round (r * 2)) / 2.

(** ** Drag-rotation controller (CompassOverlay) together with the App state
       it drives *)

(** The part of the application state the rotation handlers read and write.
    [facadeRotationRef] is the mutable cell [facadeRotationRef.current]; it is
    brought up to date by the effect that runs after a render ([Commit]
    below), not by the handlers themselves.  [reported] logs the arguments
    of [onFacadeChange], newest first; [vibrations] logs the durations
    passed to [navigator.vibrate], newest first.  [listening] tells whether
    the window-level move and up listeners of a drag are registered (one
    gesture at a time). *)
Record Orientation : Type := mkOrientation {
  facadeRotation : Q;
  facadeRotationRef : Q;
  isDraggingFacade : bool;
  listening : bool;
  reported : list Q;
  vibrations : list nat
}.

(** Properties of the host that do not change during a session. *)
Record Host : Type := mkHost {
  isInteractive : bool;
  canVibrate : bool
}.

(** The angle [calculateRotation] derives from the raw bearing
    [Math.atan2(y, x) * 180 / Math.PI + 90]: [if (angle < 0) angle += 360]. *)
Definition pointerAngle (raw : Q) : Q :=
  if JS.ltb raw 0 then JS.add raw 360 else raw.

Definition vibrate (h : Host) (ms : nat) (st : Orientation) : Orientation :=
  if canVibrate h
  then mkOrientation (facadeRotation st) (facadeRotationRef st)
         (isDraggingFacade st) (listening st) (reported st) (ms :: vibrations st)
  else st.

(** [onFacadeChange(v)]: App passes [handleFacadeRotationChange]. *)
Definition onFacadeChange (v : Q) (st : Orientation) : Orientation :=
  mkOrientation (handleFacadeRotationChange v) (facadeRotationRef st)
    (isDraggingFacade st) (listening st) (v :: reported st) (vibrations st).

Definition calculateRotation (h : Host) (raw : Q) (st : Orientation) : Orientation :=
  let angle := pointerAngle raw in
  let currentRot := facadeRotationRef st in
  let snapped := snap angle in
  let prevSnapped := snap currentRot in
  let st := if negb (Qeq_bool snapped prevSnapped) then vibrate h 5 st else st in
  onFacadeChange angle st.

Definition handleFacadeDragStart (h : Host) (raw : Q) (st : Orientation) : Orientation :=
  if negb (isInteractive h) then st
  else
    let st := mkOrientation (facadeRotation st) (facadeRotationRef st)
                true (listening st) (reported st) (vibrations st) in
    let st := calculateRotation h raw st in
    let st := vibrate h 20 st in
    mkOrientation (facadeRotation st) (facadeRotationRef st)
      (isDraggingFacade st) true (reported st) (vibrations st).

Definition handleMove (h : Host) (raw : Q) (st : Orientation) : Orientation :=
  calculateRotation h raw st.

Definition handleUp (h : Host) (st : Orientation) : Orientation :=
  let st := mkOrientation (facadeRotation st) (facadeRotationRef st)
              false false (reported st) (vibrations st) in
  let st := vibrate h 10 st in
  let currentRot := facadeRotationRef st in
  let snappedRot := snap currentRot in
  onFacadeChange snappedRot st.

(** Inputs of the rotation state machine.  The pointer events carry the raw
    bearing of the pointer; [Commit] is the effect
    [facadeRotationRef.current = facadeRotation]; [Slider] and [StepButton]
    are the range input and the two step buttons of App; [Voice] is the
    number recognised in a voice command. *)
Inductive Input : Type :=
| PointerDown (raw : Q)
| PointerMove (raw : Q)
| PointerUp
| Commit
| Slider (value : Q)
| StepButton (up : bool)
| Voice (degree : Q).

Definition setFacadeRotation (v : Q) (st : Orientation) : Orientation :=
  mkOrientation v (facadeRotationRef st) (isDraggingFacade st) (listening st)
    (reported st) (vibrations st).

Definition step (h : Host) (i : Input) (st : Orientation) : Orientation :=
  match i with
  | PointerDown raw => handleFacadeDragStart h raw st
  | PointerMove raw => if listening st then handleMove h raw st else st
  | PointerUp => if listening st then handleUp h st else st
  | Commit =>
      mkOrientation (facadeRotation st) (facadeRotation st)
        (isDraggingFacade st) (listening st) (reported st) (vibrations st)
  | Slider v => setFacadeRotation (handleFacadeRotationChange v) st
  | StepButton up =>
      setFacadeRotation
        (adjustFacadeRotation (facadeRotation st) (if up then 0.5 else -0.5)) st
  | Voice degree => setFacadeRotation (handleFacadeRotationChange degree) st
  end.

Fixpoint run (h : Host) (inputs : list Input) (st : Orientation) : Orientation :=
  match inputs with
  | [] => st
  | i :: rest => run h rest (step h i st)
  end.

(** The inputs the three built-in controls can produce: a pointer whose
    angle lies in [0,360), a slider value in [0,360], a step button, the
    release of a drag and the ref update. *)
Definition builtin (i : Input) : Prop :=
  match i with
  | PointerDown raw | PointerMove raw =>
      0 <= pointerAngle raw /\ pointerAngle raw < 360
  | Slider v => 0 <= v /\ v <= 360
  | PointerUp | Commit | StepButton _ => True
  | Voice _ => False
  end.


(** The invariant of the orientation state: the stored rotation and its
    mirror in the ref both lie in [0,360). *)
Definition inRange (st : Orientation) : Prop :=
  (0 <= facadeRotation st /\ facadeRotation st < 360) /\
  (0 <= facadeRotationRef st /\ facadeRotationRef st < 360).

(** ** Decimal text of numbers ([toFixed], [parseFloat], [parseInt]) *)

Definition digitChar (d : N) : ascii := ascii_of_N (48 + d).

Definition digitValue (c : ascii) : option N :=
  let n := N_of_ascii c in
  if ((48 <=? n) && (n <=? 57))%N then Some (n - 48)%N else None.

(** The decimal digits of [n], most significant first, in front of [acc];
    [fuel] bounds the number of digits produced. *)
Fixpoint digitsFuel (fuel : nat) (n : N) (acc : list N) : list N :=
  match fuel with
  | O => acc
  | S k =>
      let acc' := (n mod 10)%N :: acc in
      if (n / 10 =? 0)%N then acc' else digitsFuel k (n / 10)%N acc'
  end.

(** A number below [2 ^ (log2 n + 1)] has at most [log2 n + 1] decimal
    digits, so this fuel always suffices; [digitsOf 0] is the single
    digit 0. *)
Definition digitsOf (n : N) : list N :=
  digitsFuel (S (N.to_nat (N.log2 n))) n [].

Definition decimalValue (ds : list N) : N :=
  fold_left (fun acc d => (10 * acc + d)%N) ds 0%N.

(** [Number.prototype.toFixed(f)] for a number of magnitude below 10^21:
    with [n] the integer nearest to [x * 10^f] (the larger one on a tie),
    the digits of [n], padded with zeros on the left to [f + 1] digits,
    a point before the last [f] of them, and a minus sign when [x < 0]. *)
Definition toFixed (f : nat) (x : Q) : string :=
  let negative := JS.ltb x 0 in
  let x := if negative then - x else x in
  let n := Z.to_N (Qfloor (x * inject_Z (10 ^ Z.of_nat f) + (1 # 2))) in
  let m := digitsOf n in
  let m :=
    if (f =? 0)%nat then map digitChar m
    else
      let k := List.length m in
      let m := if (k <=? f)%nat then repeat 0%N (f + 1 - k) ++ m else m in
      let k := List.length m in
      map digitChar (firstn (k - f) m) ++ "."%char :: map digitChar (skipn (k - f) m) in
  string_of_list_ascii ((if negative then ["-"%char] else []) ++ m).

(** The longest run of decimal digits at the front of a text, and the
    rest. *)
Fixpoint spanDigits (s : list ascii) : list N * list ascii :=
  match s with
  | [] => ([], [])
  | c :: rest =>
      match digitValue c with
      | Some d => let (ds, r) := spanDigits rest in (d :: ds, r)
      | None => ([], s)
      end
  end.

Definition isWhitespace (c : ascii) : bool :=
  let n := N_of_ascii c in
  ((n =? 32) || ((9 <=? n) && (n <=? 13)))%N.

Fixpoint skipWhitespace (s : list ascii) : list ascii :=
  match s with
  | c :: rest => if isWhitespace c then skipWhitespace rest else s
  | [] => []
  end.

(** An optional sign at the front of a text. *)
Definition readSign (s : list ascii) : bool * list ascii :=
  match s with
  | "-"%char :: r => (true, r)
  | "+"%char :: r => (false, r)
  | _ => (false, s)
  end.

Definition signed (negative : bool) (q : Q) : Q := if negative then - q else q.

(** [parseFloat]: leading white space, an optional sign, digits with an
    optional fraction (at least one digit in all), an optional exponent;
    whatever follows is ignored.  [None] stands for NaN.  The literal
    [Infinity] is not modelled. *)
Definition parseFloat (s : string) : option Q :=
  let cs := skipWhitespace (list_ascii_of_string s) in
  let (negative, cs) := readSign cs in
  let (ip, cs) := spanDigits cs in
  let (fp, cs) :=
    match cs with
    | "."%char :: r => spanDigits r
    | _ => ([], cs)
    end in
  match ip, fp with
  | [], [] => None
  | _, _ =>
      let mantissa :=
        inject_Z (Z.of_N (decimalValue ip))
        + inject_Z (Z.of_N (decimalValue fp))
          / inject_Z (10 ^ Z.of_nat (List.length fp)) in
      let exponent :=
        match cs with
        | c :: r =>
            if Ascii.eqb c "e" || Ascii.eqb c "E" then
              let (eneg, r) := readSign r in
              let (ed, _) := spanDigits r in
              match ed with
              | [] => 0%Z
              | _ => let e := Z.of_N (decimalValue ed) in
                     if eneg then (- e)%Z else e
              end
            else 0%Z
        | [] => 0%Z
        end in
      Some (signed negative mantissa * 10 ^ exponent)
  end.

(** [parseInt(s, 10)] *)
Definition parseInt (s : string) : option Z :=
  let cs := skipWhitespace (list_ascii_of_string s) in
  let (negative, cs) := readSign cs in
  let (ds, _) := spanDigits cs in
  match ds with
  | [] => None
  | _ => let v := Z.of_N (decimalValue ds) in
         Some (if negative then (- v)%Z else v)
  end.

(** A decimal digit as a number. *)
Definition isDigit (d : N) : Prop := (d < 10)%N.

(** What may follow a run of digits for [spanDigits] to stop there. *)
Definition stopsDigits (rest : list ascii) : Prop :=
  match rest with
  | [] => True
  | c :: _ => digitValue c = None
  end.

(** The integer [toFixed f] prints for [x], sign apart. *)
Definition scaled (f : nat) (x : Q) : N :=
  Z.to_N (Qfloor ((if JS.ltb x 0 then - x else x)
                  * inject_Z (10 ^ Z.of_nat f) + (1 # 2))).

(** A sign, integer digits and, unless [fp] is empty, a point and fraction
    digits. *)
Definition decimalText (negative : bool) (ip fp : list N) : list ascii :=
  (if negative then ["-"%char] else [])
  ++ map digitChar ip
  ++ match fp with [] => [] | _ => "."%char :: map digitChar fp end.

(** The numbers [toFixed] prints in fixed notation. *)
Definition fixedNotation (x : Q) : Prop := Qabs x < inject_Z (10 ^ 21).

(** ** Asynchronous service calls (geoService.ts, geminiService.ts) *)

(** A JavaScript value as [response.json()] can deliver it. *)
#[warnings="-register-all"]
Inductive JsValue : Type :=
| Undefined
| Null
| Bool (b : bool)
| Num (q : Q)
| Str (s : string)
| Arr (items : list JsValue)
| Obj (fields : list (string * JsValue)).

Definition truthy (v : JsValue) : bool :=
  match v with
  | Undefined | Null => false
  | Bool b => b
  | Num q => negb (Qeq_bool q 0)
  | Str s => negb (String.eqb s EmptyString)
  | Arr _ | Obj _ => true
  end.

(** [Array.isArray(v)] *)
Definition isArray (v : JsValue) : bool :=
  match v with Arr _ => true | _ => false end.

Fixpoint lookupField (key : string) (fields : list (string * JsValue)) : JsValue :=
  match fields with
  | [] => Undefined
  | (k, v) :: rest => if String.eqb k key then v else lookupField key rest
  end.

(** [v.key] for a data property: [None] stands for the TypeError raised on
    [null] and [undefined]; values without such a property give
    [undefined]. *)
Definition getProp (v : JsValue) (key : string) : option JsValue :=
  match v with
  | Undefined | Null => None
  | Obj fields => Some (lookupField key fields)
  | _ => Some Undefined
  end.

(** [String(i)] for an array index: its decimal digits. *)
Definition indexName (i : nat) : string :=
  string_of_list_ascii (map digitChar (digitsOf (N.of_nat i))).

(** [v[i]] on what the batch lookup returned, which is never [null] or
    [undefined]: the element of an array, the property named by the index
    of an object, a character of a text. *)
Definition getIndex (v : JsValue) (i : nat) : JsValue :=
  match v with
  | Arr items => nth i items Undefined
  | Obj fields => lookupField (indexName i) fields
  | Str s =>
      match JS.charAt s i with
      | Some c => Str c
      | None => Undefined
      end
  | _ => Undefined
  end.

(** What [fetch] resolves to: the [ok] flag and the outcome of
    [response.json()] ([None] when the body does not parse). *)
Record Response : Type := mkResponse {
  ok : bool;
  json : option JsValue
}.

Inductive Request : Type :=
| NominatimSearch (encodedQuery : string)
| OpenMeteoElevation (latitudes longitudes : list Q).

(** The interpolated parts of the prompt of [analyzeDirection]: the sector,
    the text of [normalizedRotation.toFixed(1)] and, when a map centre is
    given, the texts of its coordinates ([toFixed(4)]) with the zoom (or
    none, for which the prompt says that it is unknown). *)
Record Prompt : Type := mkPrompt {
  promptMountain : Mountain;
  promptRotation : string;
  promptLocation : option (string * string * option Q)
}.

Inductive GenerateOutcome : Type :=
| Generated (text : option string)
| GenerateFailed (message : option string).

(** An asynchronous computation: it settles, or it performs one call to
    the outside and continues with the reply.  [Fetch] continues with
    [None] when the transport fails. *)
Inductive Async (A : Type) : Type :=
| Resolve (a : A)
| Reject (message : string)
| Fetch (req : Request) (k : option Response -> Async A)
| GenerateContent (model : string) (contents : Prompt)
    (k : GenerateOutcome -> Async A).

Arguments Resolve {A} a.
Arguments Reject {A} message.
Arguments Fetch {A} req k.
Arguments GenerateContent {A} model contents k.

Fixpoint bind {A B : Type} (p : Async A) (f : A -> Async B) : Async B :=
  match p with
  | Resolve a => f a
  | Reject m => Reject m
  | Fetch req k => Fetch req (fun r => bind (k r) f)
  | GenerateContent md c k => GenerateContent md c (fun r => bind (k r) f)
  end.

(** [try { p } catch (error) { handler(error.message) }] *)
Fixpoint tryCatch {A : Type} (p : Async A) (handler : string -> Async A) : Async A :=
  match p with
  | Resolve a => Resolve a
  | Reject m => handler m
  | Fetch req k => Fetch req (fun r => tryCatch (k r) handler)
  | GenerateContent md c k =>
      GenerateContent md c (fun r => tryCatch (k r) handler)
  end.

Notation "x <- c ;; k" := (bind c (fun x => k))
  (at level 61, c at next level, right associativity).

(** [await fetch(url)]: rejects when the transport fails. *)
Definition fetch (req : Request) : Async Response :=
  Fetch req (fun r =>
    match r with
    | Some response => Resolve response
    | None => Reject "Failed to fetch"
    end).

(** [await response.json()] *)
Definition responseJson (response : Response) : Async JsValue :=
  match json response with
  | Some data => Resolve data
  | None => Reject "Unexpected token in JSON"
  end.

(** [v.key] inside a [try]: a TypeError becomes a rejection. *)
Definition prop (v : JsValue) (key : string) : Async JsValue :=
  match getProp v key with
  | Some x => Resolve x
  | None => Reject "Cannot read properties of null"
  end.

(** The outside world: what the network and the AI service answer. *)
Record World : Type := mkWorld {
  network : Request -> option Response;
  aiService : string -> Prompt -> GenerateOutcome
}.

Inductive Call : Type :=
| FetchCall (req : Request)
| GenerateCall (model : string) (contents : Prompt).

Inductive Settled (A : Type) : Type :=
| Fulfilled (a : A)
| Rejected (message : string).

Arguments Fulfilled {A} a.
Arguments Rejected {A} message.

(** Runs a computation against a world; returns the calls made, in order,
    and how the promise settles. *)
Fixpoint exec {A : Type} (w : World) (p : Async A) : list Call * Settled A :=
  match p with
  | Resolve a => ([], Fulfilled a)
  | Reject m => ([], Rejected m)
  | Fetch req k =>
      let (calls, r) := exec w (k (network w req)) in
      (FetchCall req :: calls, r)
  | GenerateContent md c k =>
      let (calls, r) := exec w (k (aiService w md c)) in
      (GenerateCall md c :: calls, r)
  end.

Section GeoService.

(** [encodeURIComponent]; [None] stands for the URIError it raises on a
    malformed string. *)
Variable encodeURIComponent : string -> option string.

Definition encodeQuery (query : string) : Async string :=
  match encodeURIComponent query with
  | Some q => Resolve q
  | None => Reject "URI malformed"
  end.

Definition searchAddress (query : string) : Async (list JsValue) :=
  if String.eqb query EmptyString || (JS.length query <? 3)%nat
  then Resolve []
  else
    tryCatch
      (q <- encodeQuery query ;;
       response <- fetch (NominatimSearch q) ;;
       if negb (ok response) then Resolve []
       else
         data <- responseJson response ;;
         match data with
         | Arr items => Resolve items
         | _ => Resolve []
         end)
      (fun _ => Resolve []).

End GeoService.

Record Location : Type := mkLocation {
  lat : Q;
  lon : Q
}.

(** [new Array(n).fill(null)] *)
Definition nullArray (n : nat) : JsValue := Arr (repeat Null n).

Definition getBatchAltitudes (locations : list Location) : Async JsValue :=
  if (List.length locations =? 0)%nat then Resolve (Arr [])
  else
    tryCatch
      (response <- fetch (OpenMeteoElevation (map lat locations) (map lon locations)) ;;
       if negb (ok response) then Resolve (nullArray (List.length locations))
       else
         data <- responseJson response ;;
         elevation <- prop data "elevation" ;;
         if truthy elevation then Resolve elevation
         else Resolve (nullArray (List.length locations)))
      (fun _ => Resolve (nullArray (List.length locations))).

(** The consumer in [fetchMountainAltitudes]:
    [if (alts[i] !== null) newAltMap[loc.id] = alts[i]]. *)
Definition storedAltitude (alts : JsValue) (i : nat) : option JsValue :=
  match getIndex alts i with
  | Null => None
  | v => Some v
  end.

(** [!process.env.API_KEY] *)
Definition keyMissing (apiKey : option string) : bool :=
  match apiKey with
  | None => true
  | Some k => String.eqb k EmptyString
  end.

(** [s || fallback] on an optional string. *)
Definition orElse (s : option string) (fallback : string) : string :=
  match s with
  | Some t => if String.eqb t EmptyString then fallback else t
  | None => fallback
  end.

(** The prompt of [analyzeDirection]:
    [normalizedRotation = ((rotation % 360) + 360) % 360], printed with
    [toFixed(1)], and the location context with [mapZoom || unknown]. *)
Definition promptOf (mountain : Mountain) (rotation : Q)
    (mapCenter : option (Q * Q)) (mapZoom : option Q) : Prompt :=
  let normalizedRotation := normalize rotation in
  mkPrompt mountain (toFixed 1 normalizedRotation)
    match mapCenter with
    | Some (clat, clon) =>
        Some (toFixed 4 clat, toFixed 4 clon,
              match mapZoom with
              | Some z => if Qeq_bool z 0 then None else Some z
              | None => None
              end)
    | None => None
    end.

Definition missingKeyMessage : string :=
  "API Key is missing. Please set the API_KEY environment variable.".

Definition analyzeDirection (apiKey : option string) (mountain : Mountain)
    (rotation : Q) (mapCenter : option (Q * Q)) (mapZoom : option Q)
    : Async string :=
  if keyMissing apiKey then Reject missingKeyMessage
  else
    let prompt := promptOf mountain rotation mapCenter mapZoom in
    GenerateContent "gemini-2.5-flash" prompt (fun r =>
      match r with
      | Generated text =>
          Resolve (orElse text "Не удалось получить ответ от оракула.")
      | GenerateFailed message =>
          Reject (orElse message "Ошибка соединения с духами ИИ.")
      end).

(** types.ts [AnalysisState] *)
Record AnalysisState : Type := mkAnalysisState {
  isLoading : bool;
  result : option string;
  error : option string
}.

(** [handleAnalyze] of App: the analysis state once the call has settled;
    unchanged when no sector is selected. *)
Definition handleAnalyze (apiKey : option string) (selectedMountain : option Mountain)
    (normalizedTemplateRotation : Q) (center : option (Q * Q)) (zoom : option Q)
    (analysis : AnalysisState) : Async AnalysisState :=
  match selectedMountain with
  | None => Resolve analysis
  | Some m =>
      tryCatch
        (r <- analyzeDirection apiKey m normalizedTemplateRotation center zoom ;;
         Resolve (mkAnalysisState false (Some r) None))
        (fun errorMessage => Resolve (mkAnalysisState false None (Some errorMessage)))
  end.

(** ** Share link (App.tsx) *)

(** [URLSearchParams]: an ordered list of name/value pairs.  The text of
    the query string is not modelled: writing the list into the URL and
    reading it back at the next start is taken to give the same list. *)
Definition URLSearchParams : Type := list (string * string).

Fixpoint get (key : string) (ps : URLSearchParams) : option string :=
  match ps with
  | [] => None
  | (k, v) :: rest => if String.eqb k key then Some v else get key rest
  end.

Definition delete (key : string) (ps : URLSearchParams) : URLSearchParams :=
  filter (fun kv => negb (String.eqb (fst kv) key)) ps.

(** [set]: the first pair of that name takes the value, later pairs of the
    same name are removed; a new pair is appended otherwise. *)
Fixpoint set (key value : string) (ps : URLSearchParams) : URLSearchParams :=
  match ps with
  | [] => [(key, value)]
  | (k, v) :: rest =>
      if String.eqb k key then (k, value) :: delete key rest
      else (k, v) :: set key value rest
  end.

(** What the share link records.  [zoom] is a whole number, and
    [zoom.toString()] is then the text [toFixed(0)] gives. *)
Record ShareInput : Type := mkShareInput {
  shareLat : Q;
  shareLon : Q;
  shareZoom : Z;
  shareFacadeRotation : Q;
  shareDeclination : Q;
  shareUseDeclination : bool;
  shareSelectedMountain : option Mountain
}.

Open Scope string_scope.

Definition handleOpenShare (current : URLSearchParams) (st : ShareInput)
    : URLSearchParams :=
  let ps := current in
  let ps := set "lat" (toFixed 6 (shareLat st)) ps in
  let ps := set "lon" (toFixed 6 (shareLon st)) ps in
  let ps := set "z" (toFixed 0 (inject_Z (shareZoom st))) ps in
  let ps := set "rot" (toFixed 2 (shareFacadeRotation st)) ps in
  let ps := set "dec" (toFixed 2 (shareDeclination st)) ps in
  let ps := set "useDec" (if shareUseDeclination st then "true" else "false") ps in
  match shareSelectedMountain st with
  | Some m => set "m" (id m) ps
  | None => delete "m" ps
  end.

(** The state initialisers of App ([params.has(k) ? parse(params.get(k)) :
    default]); a number that parses to NaN is [None]. *)
Definition initFacadeRotation (ps : URLSearchParams) : option Q :=
  match get "rot" ps with
  | Some v => parseFloat v
  | None => Some 0
  end.

Definition initDeclination (ps : URLSearchParams) : option Q :=
  match get "dec" ps with
  | Some v => parseFloat v
  | None => Some 12.0
  end.

Definition initUseDeclination (ps : URLSearchParams) : bool :=
  match get "useDec" ps with
  | Some v => String.eqb v "true"
  | None => true
  end.

Definition initSelectedMountain (ps : URLSearchParams) : option Mountain :=
  match get "m" ps with
  | Some key =>
      if String.eqb key "" then None
      else find (fun m => String.eqb (id m) key) MOUNTAINS
  | None => None
  end.

Definition initLat (ps : URLSearchParams) : option Q :=
  match get "lat" ps with
  | Some v => parseFloat v
  | None => Some 55.7539
  end.

Definition initLon (ps : URLSearchParams) : option Q :=
  match get "lon" ps with
  | Some v => parseFloat v
  | None => Some 37.6208
  end.

Definition initZoom (ps : URLSearchParams) : option Z :=
  match get "z" ps with
  | Some v => parseInt v
  | None => Some 17%Z
  end.

Close Scope string_scope.

(** ** Pointer bearing (CompassOverlay [calculateRotation]) *)






Section Pointer.

(** [Math.atan2], the engine's approximation of the angle of the point
    [(x, y)]; ECMAScript leaves its last bits to the implementation. *)
Variable Math_atan2 : Q -> Q -> Q.



End Pointer.



(** ** Counting URL parameters *)

(** How many pairs of a parameter list carry the name [key]. *)
Definition occurrences (key : string) (ps : URLSearchParams) : nat :=
  List.length (filter (fun kv => String.eqb (fst kv) key) ps).

(** The names [handleOpenShare] writes or deletes. *)
Definition shareNames : list string :=
  ["lat"; "lon"; "z"; "rot"; "dec"; "useDec"; "m"]%string.

(** ** Declination auto-detect (App.tsx [handleAutoDetectDeclination]) *)


(** ** Single-point elevation lookup (geoService.ts [getAltitude]) *)

(** [v.length] of a value that is neither [null] nor [undefined]. *)
Definition lengthOf (v : JsValue) : JsValue :=
  match v with
  | Arr items => Num (inject_Z (Z.of_nat (List.length items)))
  | Str s => Num (inject_Z (Z.of_nat (JS.length s)))
  | Obj fields => lookupField "length" fields
  | _ => Undefined
  end.

(** [v[0]] *)
Definition firstElement (v : JsValue) : JsValue := getIndex v 0.

Section Coercion.

(** JavaScript's ToNumber on strings, arrays and objects ([None] for NaN);
    the comparison below needs nothing of it. *)
Variable ToNumber : JsValue -> option Q.

(** [v > 0] *)
Definition greaterThanZero (v : JsValue) : bool :=
  match v with
  | Num q => JS.ltb 0 q
  | Undefined | Null => false
  | Bool b => b
  | other =>
      match ToNumber other with
      | Some q => JS.ltb 0 q
      | None => false
      end
  end.

Definition getAltitude (latitude longitude : Q) : Async JsValue :=
  tryCatch
    (response <- fetch (OpenMeteoElevation [latitude] [longitude]) ;;
     if negb (ok response) then Resolve Null
     else
       data <- responseJson response ;;
       if truthy data then
         elevation <- prop data "elevation" ;;
         if truthy elevation && greaterThanZero (lengthOf elevation)
         then Resolve (firstElement elevation)
         else Resolve Null
       else Resolve Null)
    (fun _ => Resolve Null).

End Coercion.

(** ** Analysis panel and search box *)

(** [templateRotation] and [normalizedTemplateRotation] of App. *)
Definition templateRotation (useDeclination : bool) (declination : Q) : Q :=
  if useDeclination then declination else 0.

Definition normalizedTemplateRotation (useDeclination : bool) (declination : Q) : Q :=
  normalize (templateRotation useDeclination declination).

(** The state of the search box that its debounced effect writes. *)
Record SearchState : Type := mkSearchState {
  results : list JsValue;
  searchLoading : bool;
  searchOpen : bool
}.

Section SearchBar.

Variable encodeURIComponent : string -> option string.

(** The timer callback of the debounce effect of SearchBar.  [active] is the
    flag the cleanup of the effect clears when a newer query has replaced
    this one; it is read when the callback starts and again when the search
    has settled. *)
Definition searchEffect (activeAtStart activeAtEnd : bool) (query : string)
    (st : SearchState) : Async SearchState :=
  if (3 <=? JS.length query)%nat then
    let st := if activeAtStart
              then mkSearchState (results st) true (searchOpen st) else st in
    data <- searchAddress encodeURIComponent query ;;
    Resolve (if activeAtEnd then mkSearchState data false true else st)
  else
    Resolve (if activeAtStart then mkSearchState [] (searchLoading st) false else st).

End SearchBar.

(** ** Altitudes around the ring (App.tsx [fetchMountainAltitudes]) *)

(** A JavaScript object used as a map from sector ids to values, in
    insertion order. *)
Definition AltitudeMap : Type := list (string * JsValue).

(** [obj[key] = v] *)
Fixpoint assign (key : string) (v : JsValue) (obj : AltitudeMap) : AltitudeMap :=
  match obj with
  | [] => [(key, v)]
  | (k, x) :: rest =>
      if String.eqb k key then (k, v) :: rest else (k, x) :: assign key v rest
  end.

(** [locations.forEach((loc, i) => { if (alts[i] !== null)
    newAltMap[loc.id] = alts[i] })], from index [i] on. *)
Fixpoint collectAltitudes (locations : list (Location * string)) (i : nat)
    (alts : JsValue) (newAltMap : AltitudeMap) : AltitudeMap :=
  match locations with
  | [] => newAltMap
  | (_, key) :: rest =>
      collectAltitudes rest (S i) alts
        match storedAltitude alts i with
        | Some v => assign key v newAltMap
        | None => newAltMap
        end
  end.

Section AltitudeSampling.

(** The sample point of a sector: the map's pixel centre moved by the ring
    offset of the sector's midpoint and handed to
    [projection.fromGlobalPixels]; [None] when the projection throws. *)
Variable locate : Mountain -> option Location.

(** The locations pushed by [MOUNTAINS.forEach], each with its sector id;
    a sector whose projection throws is skipped. *)
Fixpoint sampleLocations (mountains : list Mountain) : list (Location * string) :=
  match mountains with
  | [] => []
  | m :: rest =>
      match locate m with
      | Some loc => (loc, id m) :: sampleLocations rest
      | None => sampleLocations rest
      end
  end.

(** The altitude map after [fetchMountainAltitudes]; [current] when the map
    or the compass container is not there yet. *)
Definition fetchMountainAltitudes (mapReady : bool) (current : AltitudeMap)
    : Async AltitudeMap :=
  if negb mapReady then Resolve current
  else
    let locations := sampleLocations MOUNTAINS in
    alts <- getBatchAltitudes (map fst locations) ;;
    Resolve (collectAltitudes locations 0 alts []).

End AltitudeSampling.

(** ** Drawing order of the sectors (CompassOverlay [sortedMountains]) *)

(** [m.id === x] for an id that may be absent ([undefined] or [null]). *)
Definition idIs (x : option string) (m : Mountain) : bool :=
  match x with
  | Some s => String.eqb (id m) s
  | None => false
  end.

(** The comparator of [sortedMountains]. *)
Definition onTopCompare (selectedMountainId hoveredMountainId : option string)
    (a b : Mountain) : Z :=
  if idIs selectedMountainId a then 1%Z
  else if idIs selectedMountainId b then (-1)%Z
  else if idIs hoveredMountainId a then 1%Z
  else if idIs hoveredMountainId b then (-1)%Z
  else 0%Z.

(** [Array.prototype.sort] is stable.  On a list without repeated ids the
    comparator above orders by rank (selected above hovered above the
    rest), and every stable sort then gives the same list; insertion from
    the right is one. *)
Fixpoint insertSorted (cmp : Mountain -> Mountain -> Z) (x : Mountain)
    (l : list Mountain) : list Mountain :=
  match l with
  | [] => [x]
  | y :: rest =>
      if (0 <? cmp x y)%Z then y :: insertSorted cmp x rest else x :: l
  end.

Definition stableSort (cmp : Mountain -> Mountain -> Z) (l : list Mountain)
    : list Mountain :=
  fold_right (insertSorted cmp) [] l.

Definition sortedMountains (selectedMountainId hoveredMountainId : option string)
    : list Mountain :=
  stableSort (onTopCompare selectedMountainId hoveredMountainId) MOUNTAINS.

(** The three layers of the drawing order. *)
Definition isSelected (sel : option string) (m : Mountain) : bool := idIs sel m.

Definition isHoveredOnly (sel hov : option string) (m : Mountain) : bool :=
  negb (idIs sel m) && idIs hov m.

Definition isPlain (sel hov : option string) (m : Mountain) : bool :=
  negb (idIs sel m) && negb (idIs hov m).

(** ** Points on the ring (App.tsx [fetchMountainAltitudes], CompassOverlay
       segment and label geometry) over the reals *)

Section Ring.

Local Open Scope R_scope.

(** [rad = (totalAngle - 90) * Math.PI / 180; dx = radius * Math.cos(rad);
     dy = radius * Math.sin(rad)] *)
Definition ringOffset (radius totalAngle : R) : R * R :=
  let rad := (totalAngle - 90) * PI / 180 in
  (radius * cos rad, radius * sin rad).

(** The pixel [fetchMountainAltitudes] samples for a sector:
    [centerGlobal] moved by the ring offset of the sector's midpoint plus
    the template rotation. *)
Definition samplePixel (centerGlobal : R * R) (radius rotation : R)
    (m : Mountain) : R * R :=
  let mid := Q2R (midDegree m) in
  let totalAngle := mid + rotation in
  let (dx, dy) := ringOffset radius totalAngle in
  (fst centerGlobal + dx, snd centerGlobal + dy).

End Ring.

(** ** Reverse geocoding, device location and magnetic declination
       (geoService.ts, App.tsx [handleAutoDetectDeclination]) *)

(** The requests of these services are not represented; each function takes
    what its one [fetch] settled with: a response, or the message of the
    error the transport raised. *)
Inductive FetchResult : Type :=
| Responded (response : Response)
| TransportError (message : string).

Definition settledWith (reply : FetchResult) : Async Response :=
  match reply with
  | Responded response => Resolve response
  | TransportError message => Reject message
  end.

(** [data?.display_name || null], [null] also when anything fails. *)
Definition reverseGeocode (reply : FetchResult) : Async JsValue :=
  tryCatch
    (response <- settledWith reply ;;
     if negb (ok response) then Resolve Null
     else
       data <- responseJson response ;;
       let displayName :=
         match getProp data "display_name" with
         | Some v => v
         | None => Undefined
         end in
       Resolve (if truthy displayName then displayName else Null))
    (fun _ => Resolve Null).



Definition invalidDeclinationData : string :=
  "Invalid data format from declination service".

Section Declination.

Variable ToNumber : JsValue -> option Q.

(** Every error raised inside is an [Error], so the handler rethrows its
    message. *)
Definition getMagneticDeclination (reply : FetchResult) : Async JsValue :=
  tryCatch
    (response <- settledWith reply ;;
     if negb (ok response) then Reject "Service unavailable"
     else
       data <- responseJson response ;;
       if truthy data then
         result <- prop data "result" ;;
         if truthy result && greaterThanZero ToNumber (lengthOf result)
         then prop (firstElement result) "declination"
         else Reject invalidDeclinationData
       else Reject invalidDeclinationData)
    (fun msg => Reject msg).


(** The message of the TypeError an engine raises for [magDec.toFixed(2)]
    when [magDec] is not a number. *)
Variable toFixedTypeError : JsValue -> string.




End Declination.

(** ** Altitude label of a sector (CompassOverlay) *)

Definition isNull (v : JsValue) : bool :=
  match v with Null => true | _ => false end.

Definition isUndefined (v : JsValue) : bool :=
  match v with Undefined => true | _ => false end.

(** [showAltitudes && altitudes && altitudes[mountain.id] !== undefined &&
     hoveredMountainId === mountain.id]; [altitudes] is always an object. *)
Definition altitudeLabelShown (showAltitudes : bool) (altitudes : AltitudeMap)
    (hoveredMountainId : option string) (m : Mountain) : bool :=
  showAltitudes
  && negb (isUndefined (lookupField (id m) altitudes))
  && idIs hoveredMountainId m.

(** ** Derived texts of a sector (CompassOverlay) *)

Fixpoint replaceAll (c : ascii) (replacement : string) (s : string) : string :=
  match s with
  | EmptyString => EmptyString
  | String x rest =>
      if Ascii.eqb x c then (replacement ++ replaceAll c replacement rest)%string
      else String x (replaceAll c replacement rest)
  end.

(** [dir.replace(/N/g, 'С').replace(/S/g, 'Ю').replace(/E/g, 'В')
        .replace(/W/g, 'З')] *)
Definition getRussianDirection (dir : string) : string :=
  replaceAll "W" "З" (replaceAll "E" "В" (replaceAll "S" "Ю" (replaceAll "N" "С" dir))).

Open Scope string_scope.

Definition getElementTextColor (element : string) : string :=
  if String.eqb element "Water" then "text-sky-400"
  else if String.eqb element "Wood" then "text-green-400"
  else if String.eqb element "Fire" then "text-red-400"
  else if String.eqb element "Earth" then "text-yellow-400"
  else if String.eqb element "Metal" then "text-slate-300"
  else "text-white".

Definition getElementGlowColor (element : string) : string :=
  if String.eqb element "Water" then "rgba(14, 165, 233, 0.9)"
  else if String.eqb element "Wood" then "rgba(34, 197, 94, 0.9)"
  else if String.eqb element "Fire" then "rgba(239, 68, 68, 0.9)"
  else if String.eqb element "Earth" then "rgba(234, 179, 8, 0.9)"
  else if String.eqb element "Metal" then "rgba(148, 163, 184, 0.9)"
  else "rgba(255, 255, 255, 0.9)".

(** [s.endsWith(suffix)] *)
Definition endsWith (s suffix : string) : bool :=
  String.eqb
    (substring (String.length s - String.length suffix) (String.length suffix) s)
    suffix.

Close Scope string_scope.

(** ** Further input classes of the rotation state machine *)

(** Inputs an idle controller lets pass without effect: moves and releases
    that reach no registered listener, ref updates, and a pointer-down on an
    overlay that is not interactive. *)
Definition ignoredWhenIdle (h : Host) (i : Input) : Prop :=
  match i with
  | PointerMove _ | PointerUp | Commit => True
  | PointerDown _ => isInteractive h = false
  | _ => False
  end.

(** What the three controls hand over: a pointer whose raw bearing lies in
    [-90,270] (the range of [degrees] on the values of [Math.atan2]), a
    slider value in [0,360], a step button, the release of a drag and the
    ref update. *)
Definition fromControls (i : Input) : Prop :=
  match i with
  | PointerDown raw | PointerMove raw => -90 <= raw /\ raw <= 270
  | Slider v => 0 <= v /\ v <= 360
  | PointerUp | Commit | StepButton _ => True
  | Voice _ => False
  end.

(** The stored rotation and its mirror in the ref lie in the closed range
    [0,360]. *)
Definition inClosedRange (st : Orientation) : Prop :=
  (0 <= facadeRotation st /\ facadeRotation st <= 360) /\
  (0 <= facadeRotationRef st /\ facadeRotationRef st <= 360).

(** * Properties *)

(** ** Comparisons and integer parts *)

Lemma ltb_true (x y : Q) : JS.ltb x y = true <-> x < y.
Proof.
  unfold JS.ltb. rewrite negb_true_iff.
  split; intro H.
  - apply Qnot_le_lt. intro L. apply Qle_bool_iff in L. congruence.
  - destruct (Qle_bool y x) eqn:E; [|reflexivity].
    apply Qle_bool_iff in E. exfalso. apply (Qlt_not_le _ _ H E).
Qed.

Lemma ltb_false (x y : Q) : JS.ltb x y = false <-> y <= x.
Proof.
  unfold JS.ltb. rewrite negb_false_iff. apply Qle_bool_iff.
Qed.

Lemma geb_true (x y : Q) : JS.geb x y = true <-> y <= x.
Proof. unfold JS.geb. apply Qle_bool_iff. Qed.

Lemma geb_false (x y : Q) : JS.geb x y = false <-> x < y.
Proof.
  unfold JS.geb. split; intro H.
  - apply Qnot_le_lt. intro L. apply Qle_bool_iff in L. congruence.
  - destruct (Qle_bool y x) eqn:E; [|reflexivity].
    apply Qle_bool_iff in E. exfalso. apply (Qlt_not_le _ _ H E).
Qed.

(** Case analysis on a comparison, leaving its meaning in the context. *)
Ltac case_ltb x y :=
  let E := fresh "E" in
  destruct (JS.ltb x y) eqn:E;
  [apply ltb_true in E | apply ltb_false in E].

Ltac case_geb x y :=
  let E := fresh "E" in
  destruct (JS.geb x y) eqn:E;
  [apply geb_true in E | apply geb_false in E].

Lemma Qfloor_bounds (x : Q) :
  inject_Z (Qfloor x) <= x /\ x < inject_Z (Qfloor x) + 1.
Proof.
  split; [apply Qfloor_le|].
  generalize (Qlt_floor x). rewrite inject_Z_plus. tauto.
Qed.

Lemma Qfloor_unique (x : Q) (z : Z) :
  inject_Z z <= x -> x < inject_Z z + 1 -> Qfloor x = z.
Proof.
  intros L U. destruct (Qfloor_bounds x) as [L' U'].
  assert (A : inject_Z z < inject_Z (Qfloor x + 1)).
  { rewrite inject_Z_plus. change (inject_Z 1) with 1. lra. }
  assert (B : inject_Z (Qfloor x) < inject_Z (z + 1)).
  { rewrite inject_Z_plus. change (inject_Z 1) with 1. lra. }
  rewrite <- Zlt_Qlt in A, B. lia.
Qed.

Lemma Qceiling_bounds (x : Q) :
  inject_Z (Qceiling x) - 1 < x /\ x <= inject_Z (Qceiling x).
Proof.
  unfold Qceiling. rewrite inject_Z_opp.
  destruct (Qfloor_bounds (- x)). split; lra.
Qed.

Lemma trunc_comp (x y : Q) : x == y -> JS.trunc x = JS.trunc y.
Proof.
  intro E. unfold JS.trunc, Qceiling.
  rewrite (Qleb_comp 0 0 (Qeq_refl 0) x y E).
  rewrite (Qfloor_comp x y E).
  rewrite (Qfloor_comp (- x) (- y)) by (rewrite E; reflexivity).
  reflexivity.
Qed.

Lemma rem_comp (x y m : Q) : x == y -> JS.rem x m == JS.rem y m.
Proof.
  intro E. unfold JS.rem.
  rewrite (trunc_comp (x / m) (y / m)) by (rewrite E; reflexivity).
  rewrite E. reflexivity.
Qed.

(** ** Rounding to the nearest double *)

Lemma rne_cases (x : Q) :
  let f := Qfloor x in
  (Binary64.rne x = f /\ x <= inject_Z f + (1 # 2)) \/
  (Binary64.rne x = (f + 1)%Z /\ inject_Z f + (1 # 2) <= x).
Proof.
  intro f. unfold Binary64.rne. fold f.
  destruct (Qcompare_spec (x - inject_Z f) (1 # 2)) as [E|L|G].
  - destruct (Z.even f); [left | right]; split; try reflexivity; lra.
  - left. split; [reflexivity | lra].
  - right. split; [reflexivity | lra].
Qed.

Lemma rne_near (x : Q) :
  x - (1 # 2) <= inject_Z (Binary64.rne x) /\ inject_Z (Binary64.rne x) <= x + (1 # 2).
Proof.
  destruct (Qfloor_bounds x) as [L U].
  destruct (rne_cases x) as [[-> H]|[-> H]];
    [|rewrite inject_Z_plus; change (inject_Z 1) with 1]; split; lra.
Qed.

Lemma rne_Z (n : Z) : Binary64.rne (inject_Z n) = n.
Proof.
  unfold Binary64.rne. rewrite Qfloor_Z.
  destruct (Qcompare_spec (inject_Z n - inject_Z n) (1 # 2)) as [E|L|G].
  - exfalso. lra.
  - reflexivity.
  - exfalso. lra.
Qed.

Lemma rne_comp (x y : Q) : x == y -> Binary64.rne x = Binary64.rne y.
Proof.
  intro E. unfold Binary64.rne. rewrite (Qfloor_comp x y E).
  assert (C : (x - inject_Z (Qfloor y) ?= 1 # 2) = (y - inject_Z (Qfloor y) ?= 1 # 2)).
  { apply Qcompare_comp; [rewrite E; reflexivity | reflexivity]. }
  rewrite C. reflexivity.
Qed.

Lemma rne_le (x y : Q) : x <= y -> (Binary64.rne x <= Binary64.rne y)%Z.
Proof.
  intro H.
  pose proof (Qfloor_resp_le x y H) as F.
  destruct (Z.eq_dec (Qfloor x) (Qfloor y)) as [E|N].
  - unfold Binary64.rne. rewrite <- E.
    destruct (Qcompare_spec (x - inject_Z (Qfloor x)) (1 # 2)) as [Ex|Lx|Gx];
    destruct (Qcompare_spec (y - inject_Z (Qfloor x)) (1 # 2)) as [Ey|Ly|Gy];
      try (exfalso; lra); try lia;
      destruct (Z.even (Qfloor x)); lia.
  - destruct (rne_cases x) as [[-> _]|[-> _]];
    destruct (rne_cases y) as [[-> _]|[-> _]]; lia.
Qed.

Lemma pow2_pos (e : Z) : 0 < 2 ^ e.
Proof. apply Qpower_0_lt. reflexivity. Qed.

Lemma pow2_succ (e : Z) : 2 ^ (e + 1) == 2 * 2 ^ e.
Proof. rewrite Qpower_plus by discriminate. change (2 ^ 1) with 2. ring. Qed.

Lemma pow2_pred (e : Z) : 2 * 2 ^ (e - 1) == 2 ^ e.
Proof.
  rewrite <- pow2_succ. replace (e - 1 + 1)%Z with e by lia. reflexivity.
Qed.


Lemma pow2_le (a b : Z) : (a <= b)%Z -> 2 ^ a <= 2 ^ b.
Proof. intro H. apply Qpower_le_compat_l; [exact H | discriminate]. Qed.

Lemma pow2_lt_inv (a b : Z) : 2 ^ a < 2 ^ b -> (a < b)%Z.
Proof. intro H. apply (Qpower_lt_compat_l_inv 2); [exact H | reflexivity]. Qed.

Lemma pow2_inject (a : Z) : (0 <= a)%Z -> inject_Z (2 ^ a) == 2 ^ a.
Proof. intro H. rewrite Zpower_Qpower by exact H. reflexivity. Qed.

Lemma pow2_split (a b : Z) : 2 ^ (a - b) * 2 ^ b == 2 ^ a.
Proof.
  rewrite <- Qpower_plus by discriminate.
  replace (a - b + b)%Z with a by lia. reflexivity.
Qed.

Lemma log2_bounds (n : Z) :
  (0 < n)%Z ->
  2 ^ Z.log2 n <= inject_Z n /\ inject_Z n < 2 * 2 ^ Z.log2 n.
Proof.
  intro H. destruct (Z.log2_spec n H) as [L U].
  pose proof (Z.log2_nonneg n) as P.
  rewrite <- pow2_succ.
  rewrite <- !pow2_inject by lia.
  rewrite <- Zle_Qle, <- Zlt_Qlt. unfold Z.succ in U. split; assumption.
Qed.

Lemma ilog2_spec (x : Q) :
  0 < x -> 2 ^ Binary64.ilog2 x <= x /\ x < 2 ^ (Binary64.ilog2 x + 1).
Proof.
  intro H. unfold Binary64.ilog2.
  destruct x as [n d]. cbn [Qnum Qden].
  assert (Hn : (0 < n)%Z).
  { unfold Qlt in H. cbn in H. lia. }
  destruct (log2_bounds n Hn) as [La Ua].
  destruct (log2_bounds (Zpos d) eq_refl) as [Lb Ub].
  set (a := Z.log2 n) in *. set (b := Z.log2 (Zpos d)) in *.
  pose proof (pow2_split a b) as K.
  pose proof (pow2_pos (a - b)) as Pk.
  pose proof (pow2_pos b) as Pb.
  pose proof (pow2_pos a) as Pa.
  assert (E : (n # d) * inject_Z (Zpos d) == inject_Z n).
  { rewrite (Qmake_Qdiv n d). field. discriminate. }
  set (X := n # d) in *. set (N := inject_Z n) in *.
  set (D := inject_Z (Zpos d)) in *.
  set (P := 2 ^ (a - b)) in *. set (B := 2 ^ b) in *. set (A := 2 ^ a) in *.
  assert (U1 : X < 2 * P).
  { apply (Qmult_lt_r _ _ B Pb).
    apply (Qle_lt_trans _ (X * D)).
    - apply Qmult_le_l; [exact H | exact Lb].
    - rewrite E. apply (Qlt_le_trans _ (2 * A)); [exact Ua|].
      rewrite <- K. apply Qle_lteq. right. ring. }
  assert (L1 : P < 2 * X).
  { apply (Qmult_lt_r _ _ B Pb). rewrite K.
    apply (Qle_lt_trans _ N); [exact La|]. rewrite <- E.
    apply (Qlt_le_trans _ (X * (2 * B))).
    - apply Qmult_lt_l; [exact H | exact Ub].
    - apply Qle_lteq. right. ring. }
  destruct (Qle_bool P X) eqn:T.
  - apply Qle_bool_iff in T. split; [exact T|].
    unfold P. rewrite pow2_succ. exact U1.
  - assert (T' : X < P).
    { apply Qnot_le_lt. intro C. apply Qle_bool_iff in C. congruence. }
    replace (a - b - 1 + 1)%Z with (a - b)%Z by lia. split; [|exact T'].
    pose proof (pow2_pred (a - b)) as R. fold P in R.
    set (P' := 2 ^ (a - b - 1)) in *. lra.
Qed.

Lemma ilog2_unique (x : Q) (k : Z) :
  2 ^ k <= x -> x < 2 ^ (k + 1) -> Binary64.ilog2 x = k.
Proof.
  intros L U.
  assert (H : 0 < x) by (pose proof (pow2_pos k); lra).
  destruct (ilog2_spec x H) as [L' U'].
  assert (A : (Binary64.ilog2 x < k + 1)%Z) by (apply pow2_lt_inv; lra).
  assert (B : (k < Binary64.ilog2 x + 1)%Z) by (apply pow2_lt_inv; lra).
  lia.
Qed.

Lemma ilog2_comp (x y : Q) : 0 < x -> x == y -> Binary64.ilog2 x = Binary64.ilog2 y.
Proof.
  intros H E. symmetry. destruct (ilog2_spec x H) as [L U].
  apply ilog2_unique; rewrite <- E; assumption.
Qed.

Lemma ilog2_le (x y : Q) : 0 < x -> x <= y -> (Binary64.ilog2 x <= Binary64.ilog2 y)%Z.
Proof.
  intros H L.
  destruct (ilog2_spec x H) as [Lx _].
  destruct (ilog2_spec y) as [_ Uy]; [lra|].
  assert (A : (Binary64.ilog2 x < Binary64.ilog2 y + 1)%Z) by (apply pow2_lt_inv; lra).
  lia.
Qed.

Lemma ilog2_below (x : Q) (k : Z) : 0 < x -> x < 2 ^ k -> (Binary64.ilog2 x < k)%Z.
Proof.
  intros H U. destruct (ilog2_spec x H) as [L _].
  apply pow2_lt_inv. lra.
Qed.

Lemma cexp_comp (x y : Q) : 0 < x -> x == y -> Binary64.cexp x = Binary64.cexp y.
Proof. intros H E. unfold Binary64.cexp. rewrite (ilog2_comp x y H E). reflexivity. Qed.

Lemma cexp_le (x y : Q) : 0 < x -> x <= y -> (Binary64.cexp x <= Binary64.cexp y)%Z.
Proof.
  intros H L. unfold Binary64.cexp. pose proof (ilog2_le x y H L). lia.
Qed.

Lemma nearestPos_comp (x y : Q) : 0 < x -> x == y -> Binary64.nearestPos x == Binary64.nearestPos y.
Proof.
  intros H E. unfold Binary64.nearestPos. cbv zeta.
  rewrite (cexp_comp x y H E).
  rewrite (rne_comp (x / 2 ^ Binary64.cexp y) (y / 2 ^ Binary64.cexp y)) by (rewrite E; reflexivity).
  reflexivity.
Qed.

(** In units of its own exponent a positive number lies below 2^53 ... *)
Lemma scaled_below (x : Q) : 0 < x -> x / 2 ^ Binary64.cexp x < 2 ^ (Binary64.ilog2 x + 1 - Binary64.cexp x).
Proof.
  intro H. destruct (ilog2_spec x H) as [_ U].
  pose proof (pow2_pos (Binary64.cexp x)) as P.
  apply (Qmult_lt_r _ _ (2 ^ Binary64.cexp x) P).
  rewrite pow2_split.
  assert (E : x / 2 ^ Binary64.cexp x * 2 ^ Binary64.cexp x == x) by (field; lra).
  rewrite E. exact U.
Qed.

Lemma scaled_above (x : Q) : 0 < x -> 2 ^ (Binary64.ilog2 x - Binary64.cexp x) <= x / 2 ^ Binary64.cexp x.
Proof.
  intro H. destruct (ilog2_spec x H) as [L _].
  pose proof (pow2_pos (Binary64.cexp x)) as P.
  apply (Qmult_le_r _ _ (2 ^ Binary64.cexp x) P).
  rewrite pow2_split.
  assert (E : x / 2 ^ Binary64.cexp x * 2 ^ Binary64.cexp x == x) by (field; lra).
  rewrite E. exact L.
Qed.

Lemma rne_nonneg (x : Q) : 0 <= x -> (0 <= Binary64.rne x)%Z.
Proof.
  intro H. rewrite <- (rne_Z 0). apply rne_le. exact H.
Qed.

Lemma nearestPos_nonneg (x : Q) : 0 < x -> 0 <= Binary64.nearestPos x.
Proof.
  intro H. unfold Binary64.nearestPos. cbv zeta.
  pose proof (pow2_pos (Binary64.cexp x)) as P.
  apply Qmult_le_0_compat; [|lra].
  change 0 with (inject_Z 0). rewrite <- Zle_Qle. apply rne_nonneg.
  apply Qle_shift_div_l; [exact P | lra].
Qed.

(** A positive number is rounded to at most the next power of two. *)
Lemma nearestPos_upper (x : Q) : 0 < x -> Binary64.nearestPos x <= 2 ^ (Binary64.ilog2 x + 1).
Proof.
  intro H. unfold Binary64.nearestPos. cbv zeta.
  pose proof (pow2_pos (Binary64.cexp x)) as P.
  pose proof (scaled_below x H) as S.
  set (p := (Binary64.ilog2 x + 1 - Binary64.cexp x)%Z) in *.
  rewrite <- (pow2_split (Binary64.ilog2 x + 1) (Binary64.cexp x)). fold p.
  apply Qmult_le_compat_r; [|lra].
  destruct (Z_lt_le_dec p 0) as [Neg|Pos].
  - assert (Z0 : Binary64.rne (x / 2 ^ Binary64.cexp x) = 0%Z).
    { assert (A : (Binary64.rne (x / 2 ^ Binary64.cexp x) <= Binary64.rne (1 # 2))%Z).
      { apply rne_le.
        assert (B : 2 ^ p <= 2 ^ (-1)) by (apply pow2_le; lia).
        change (2 ^ (-1)) with (1 # 2) in B. lra. }
      change (Binary64.rne (1 # 2)) with 0%Z in A.
      assert (C : (0 <= Binary64.rne (x / 2 ^ Binary64.cexp x))%Z).
      { apply rne_nonneg. apply Qle_shift_div_l; [exact P | lra]. }
      lia. }
    rewrite Z0. pose proof (pow2_pos p). change (inject_Z 0) with 0. lra.
  - rewrite <- (pow2_inject p Pos). rewrite <- Zle_Qle.
    rewrite <- (rne_Z (2 ^ p)). apply rne_le.
    rewrite (pow2_inject p Pos). lra.
Qed.

(** A normal number is rounded to at least the power of two below it. *)
Lemma nearestPos_lower (x : Q) :
  0 < x -> (-1074 <= Binary64.ilog2 x - 52)%Z -> 2 ^ Binary64.ilog2 x <= Binary64.nearestPos x.
Proof.
  intros H N. unfold Binary64.nearestPos. cbv zeta.
  pose proof (pow2_pos (Binary64.cexp x)) as P.
  pose proof (scaled_above x H) as S.
  assert (C : Binary64.cexp x = (Binary64.ilog2 x - 52)%Z) by (unfold Binary64.cexp; lia).
  rewrite <- (pow2_split (Binary64.ilog2 x) (Binary64.cexp x)).
  apply Qmult_le_compat_r; [|lra].
  replace (Binary64.ilog2 x - Binary64.cexp x)%Z with 52%Z in * by lia.
  rewrite <- (pow2_inject 52) by lia. rewrite <- Zle_Qle.
  rewrite <- (rne_Z (2 ^ 52)). apply rne_le.
  rewrite (pow2_inject 52) by lia. exact S.
Qed.

Lemma nearestPos_le (x y : Q) : 0 < x -> x <= y -> Binary64.nearestPos x <= Binary64.nearestPos y.
Proof.
  intros H L.
  pose proof (cexp_le x y H L) as C.
  destruct (Z.eq_dec (Binary64.cexp x) (Binary64.cexp y)) as [E|N].
  - unfold Binary64.nearestPos. cbv zeta. rewrite E.
    pose proof (pow2_pos (Binary64.cexp y)) as P.
    apply Qmult_le_compat_r; [|lra].
    rewrite <- Zle_Qle. apply rne_le.
    apply Qmult_le_compat_r; [exact L|].
    apply Qlt_le_weak, Qinv_lt_0_compat, P.
  - assert (Hy : 0 < y) by lra.
    assert (I : (Binary64.ilog2 x < Binary64.ilog2 y)%Z) by (unfold Binary64.cexp in *; lia).
    assert (Ny : (-1074 <= Binary64.ilog2 y - 52)%Z) by (unfold Binary64.cexp in *; lia).
    apply (Qle_trans _ (2 ^ (Binary64.ilog2 x + 1))); [apply nearestPos_upper, H|].
    apply (Qle_trans _ (2 ^ Binary64.ilog2 y)); [apply pow2_le; lia|].
    apply nearestPos_lower; assumption.
Qed.

Lemma nearest_pos (x : Q) : 0 < x -> Binary64.nearest x = Binary64.nearestPos x.
Proof.
  intro H. unfold Binary64.nearest.
  destruct (Qcompare_spec x 0) as [E|L|G]; [exfalso; lra | exfalso; lra | reflexivity].
Qed.

Lemma nearest_neg (x : Q) : x < 0 -> Binary64.nearest x = - Binary64.nearestPos (- x).
Proof.
  intro H. unfold Binary64.nearest.
  destruct (Qcompare_spec x 0) as [E|L|G]; [exfalso; lra | reflexivity | exfalso; lra].
Qed.

Lemma nearest_zero (x : Q) : x == 0 -> Binary64.nearest x = 0.
Proof.
  intro H. unfold Binary64.nearest.
  destruct (Qcompare_spec x 0) as [E|L|G]; [reflexivity | exfalso; lra | exfalso; lra].
Qed.

Lemma nearest_comp (x y : Q) : x == y -> Binary64.nearest x == Binary64.nearest y.
Proof.
  intro E. destruct (Q_dec x 0) as [[N|P]|Z].
  - rewrite (nearest_neg x N), (nearest_neg y) by lra.
    rewrite (nearestPos_comp (- x) (- y)); [reflexivity | lra | rewrite E; reflexivity].
  - rewrite (nearest_pos x P), (nearest_pos y) by lra.
    apply nearestPos_comp; assumption.
  - rewrite (nearest_zero x Z), (nearest_zero y) by lra. reflexivity.
Qed.

Lemma nearest_opp (x : Q) : Binary64.nearest (- x) == - Binary64.nearest x.
Proof.
  destruct (Q_dec x 0) as [[N|P]|Z].
  - rewrite (nearest_neg x N), (nearest_pos (- x)) by lra. ring.
  - rewrite (nearest_pos x P), (nearest_neg (- x)) by lra.
    rewrite (nearestPos_comp (- - x) x); [reflexivity | lra | ring].
  - rewrite (nearest_zero x Z), (nearest_zero (- x)) by lra. reflexivity.
Qed.

(** Rounding is monotone. *)
Lemma nearest_le (x y : Q) : x <= y -> Binary64.nearest x <= Binary64.nearest y.
Proof.
  intro L.
  destruct (Q_dec x 0) as [[Nx|Px]|Zx]; destruct (Q_dec y 0) as [[Ny|Py]|Zy];
    try (exfalso; lra).
  - rewrite (nearest_neg x Nx), (nearest_neg y Ny).
    assert (A : Binary64.nearestPos (- y) <= Binary64.nearestPos (- x))
      by (apply nearestPos_le; lra).
    lra.
  - rewrite (nearest_neg x Nx), (nearest_pos y Py).
    pose proof (nearestPos_nonneg (- x)). pose proof (nearestPos_nonneg y). lra.
  - rewrite (nearest_neg x Nx), (nearest_zero y Zy).
    pose proof (nearestPos_nonneg (- x)). lra.
  - rewrite (nearest_pos x Px), (nearest_pos y Py).
    apply nearestPos_le; assumption.
  - rewrite (nearest_zero x Zx), (nearest_pos y Py).
    apply nearestPos_nonneg; assumption.
  - rewrite (nearest_zero x Zx), (nearest_zero y Zy). lra.
Qed.

Lemma cexp_below (x : Q) (j : Z) :
  0 < x -> x < 2 ^ j -> (-1074 <= j - 53)%Z -> (Binary64.cexp x <= j - 53)%Z.
Proof.
  intros H U N. pose proof (ilog2_below x j H U). unfold Binary64.cexp. lia.
Qed.

Lemma nearestPos_exact (n k : Z) :
  (0 < n < 2 ^ 53)%Z -> (-1074 <= k)%Z ->
  Binary64.nearestPos (inject_Z n * 2 ^ k) == inject_Z n * 2 ^ k.
Proof.
  intros [Ln Un] K.
  pose proof (pow2_pos k) as Pk.
  set (x := inject_Z n * 2 ^ k).
  assert (Hx : 0 < x).
  { unfold x. apply Qmult_lt_0_compat; [|exact Pk].
    change 0 with (inject_Z 0). rewrite <- Zlt_Qlt. exact Ln. }
  assert (Ux : x < 2 ^ (k + 53)).
  { unfold x. rewrite Qpower_plus by discriminate.
    rewrite (Qmult_comm (2 ^ k)). apply Qmult_lt_compat_r; [exact Pk|].
    rewrite <- (pow2_inject 53) by lia. rewrite <- Zlt_Qlt. exact Un. }
  assert (C : (Binary64.cexp x <= k)%Z).
  { pose proof (cexp_below x (k + 53) Hx Ux). lia. }
  unfold Binary64.nearestPos. cbv zeta. set (c := Binary64.cexp x) in *.
  pose proof (pow2_pos c) as Pc.
  assert (E : x / 2 ^ c == inject_Z (n * 2 ^ (k - c))).
  { rewrite inject_Z_mult, (pow2_inject (k - c)) by lia.
    unfold x. rewrite <- (pow2_split k c). field. lra. }
  rewrite (rne_comp _ _ E), rne_Z.
  rewrite inject_Z_mult, (pow2_inject (k - c)) by lia.
  unfold x. rewrite <- (pow2_split k c). ring.
Qed.

(** Every [n * 2^k] with [|n| < 2^53] and [k >= -1074] is a double. *)
Lemma nearest_exact (n k : Z) :
  (Z.abs n < 2 ^ 53)%Z -> (-1074 <= k)%Z ->
  Binary64.nearest (inject_Z n * 2 ^ k) == inject_Z n * 2 ^ k.
Proof.
  intros A K. pose proof (pow2_pos k) as Pk.
  destruct (Z.lt_trichotomy n 0) as [N|[Z|P]].
  - assert (E : inject_Z n * 2 ^ k == - (inject_Z (- n) * 2 ^ k))
      by (rewrite inject_Z_opp; ring).
    rewrite (nearest_comp _ _ E), nearest_opp.
    assert (H : 0 < inject_Z (- n) * 2 ^ k).
    { apply Qmult_lt_0_compat; [|exact Pk].
      change 0 with (inject_Z 0). rewrite <- Zlt_Qlt. lia. }
    rewrite (nearest_pos _ H), nearestPos_exact by lia.
    rewrite inject_Z_opp. ring.
  - subst n. rewrite nearest_zero; [|ring]. ring.
  - assert (H : 0 < inject_Z n * 2 ^ k).
    { apply Qmult_lt_0_compat; [|exact Pk].
      change 0 with (inject_Z 0). rewrite <- Zlt_Qlt. lia. }
    rewrite (nearest_pos _ H). apply nearestPos_exact; lia.
Qed.

Lemma nearestPos_error (x : Q) (j : Z) :
  0 < x -> x < 2 ^ j -> (-1074 <= j - 53)%Z ->
  Qabs (Binary64.nearestPos x - x) <= 2 ^ (j - 54).
Proof.
  intros H U N.
  pose proof (cexp_below x j H U N) as C.
  unfold Binary64.nearestPos. cbv zeta. set (c := Binary64.cexp x) in *.
  pose proof (pow2_pos c) as Pc.
  destruct (rne_near (x / 2 ^ c)) as [L R].
  set (r := inject_Z (Binary64.rne (x / 2 ^ c))) in *.
  assert (E : x == x / 2 ^ c * 2 ^ c) by (field; lra).
  set (s := x / 2 ^ c) in *.
  assert (B : 2 * 2 ^ c <= 2 * 2 ^ (j - 53)).
  { apply Qmult_le_l; [reflexivity|]. apply pow2_le. exact C. }
  pose proof (pow2_pred (j - 53)) as Pr.
  replace (j - 53 - 1)%Z with (j - 54)%Z in Pr by lia.
  set (h := 2 ^ (j - 54)) in *. set (u := 2 ^ c) in *.
  set (v := 2 ^ (j - 53)) in *.
  apply Qabs_Qle_condition.
  assert (M1 : (r - s) * u <= (1 # 2) * u)
    by (apply Qmult_le_compat_r; lra).
  assert (M2 : - (1 # 2) * u <= (r - s) * u)
    by (apply Qmult_le_compat_r; lra).
  assert (D : r * u - x == (r - s) * u) by (rewrite E at 1; ring).
  rewrite D. split; lra.
Qed.

(** The rounding error of a number below [2^j] in magnitude is at most half
    a unit of the last place of that range. *)
Lemma nearest_error (x : Q) (j : Z) :
  Qabs x < 2 ^ j -> (-1074 <= j - 53)%Z ->
  Qabs (Binary64.nearest x - x) <= 2 ^ (j - 54).
Proof.
  intros U N. pose proof (pow2_pos (j - 54)) as Ph.
  destruct (Q_dec x 0) as [[Ng|P]|Z].
  - rewrite (nearest_neg x Ng).
    assert (A : Qabs x == - x) by (apply Qabs_neg; lra).
    rewrite A in U.
    pose proof (nearestPos_error (- x) j) as B.
    assert (E : - Binary64.nearestPos (- x) - x == - (Binary64.nearestPos (- x) - - x)) by ring.
    rewrite E, Qabs_opp. apply B; [lra | exact U | exact N].
  - rewrite (nearest_pos x P).
    assert (A : Qabs x == x) by (apply Qabs_pos; lra).
    rewrite A in U. apply nearestPos_error; assumption.
  - rewrite (nearest_zero x Z).
    assert (E : 0 - x == 0) by lra. rewrite E. cbn. lra.
Qed.

(** [nearest] agrees with the machine: for each pair of the sample
    operands the sum, difference, product and quotient that the binary64
    arithmetic of the kernel computes are the rounded exact results; and
    adding to or taking from the largest double stays finite. *)
Lemma nearest_agrees_with_machine :
  forallb (Binary64.agrees PrimFloat.add Qplus) Binary64.samples = true /\
  forallb (Binary64.agrees PrimFloat.sub Qminus) Binary64.samples = true /\
  forallb (Binary64.agrees PrimFloat.mul Qmult) Binary64.samples = true /\
  forallb (Binary64.agrees PrimFloat.div Qdiv) Binary64.samples = true /\
  forallb (Binary64.agrees PrimFloat.add Qplus) Binary64.largest = true /\
  forallb (Binary64.agrees PrimFloat.sub Qminus) Binary64.largest = true.
Proof. repeat split; vm_compute; reflexivity. Qed.

(** ** The remainder by a full turn *)

Lemma turn_quotient (x : Q) : x == 360 * (x / 360).
Proof. field. Qed.

(** Names the quotient [x / 360] and keeps its defining equation, so that
    the goal becomes linear. *)
Ltac name_quotient x :=
  let q := fresh "q" in
  let Hq := fresh "Hq" in
  pose proof (turn_quotient x) as Hq;
  set (q := x / 360) in *; clearbody q.

Lemma rem360_nonneg (x : Q) : 0 <= x -> 0 <= JS.rem x 360 /\ JS.rem x 360 < 360.
Proof.
  intro Hx. unfold JS.rem, JS.trunc. name_quotient x.
  destruct (Qle_bool 0 q) eqn:E.
  - destruct (Qfloor_bounds q). split; lra.
  - exfalso. assert (L : 0 <= q) by lra.
    apply Qle_bool_iff in L. congruence.
Qed.

Lemma rem360_bounds (x : Q) : -360 < JS.rem x 360 /\ JS.rem x 360 < 360.
Proof.
  unfold JS.rem, JS.trunc. name_quotient x.
  destruct (Qle_bool 0 q) eqn:E.
  - apply Qle_bool_iff in E. destruct (Qfloor_bounds q). split; lra.
  - assert (L : q < 0).
    { apply Qnot_le_lt. intro L. apply Qle_bool_iff in L. congruence. }
    destruct (Qceiling_bounds q). split; lra.
Qed.

(** The remainder differs from its argument by whole turns. *)
Lemma rem360_congruent (x : Q) : exists k : Z, JS.rem x 360 == x + 360 * inject_Z k.
Proof.
  exists (- JS.trunc (x / 360))%Z. unfold JS.rem.
  rewrite inject_Z_opp. ring.
Qed.

Lemma rem360_small (x : Q) : 0 <= x -> x < 360 -> JS.rem x 360 == x.
Proof.
  intros L U. unfold JS.rem, JS.trunc. name_quotient x.
  assert (E : Qle_bool 0 q = true) by (apply Qle_bool_iff; lra).
  rewrite E.
  rewrite (Qfloor_unique q 0) by (change (inject_Z 0) with 0; lra).
  change (inject_Z 0) with 0. lra.
Qed.

Lemma rem360_second_turn (x : Q) : 360 <= x -> x < 720 -> JS.rem x 360 == x - 360.
Proof.
  intros L U. unfold JS.rem, JS.trunc. name_quotient x.
  assert (E : Qle_bool 0 q = true) by (apply Qle_bool_iff; lra).
  rewrite E.
  rewrite (Qfloor_unique q 1) by (change (inject_Z 1) with 1; lra).
  change (inject_Z 1) with 1. lra.
Qed.

(** ** Sums with a full turn *)

Lemma nearest_integer (n : Z) :
  (Z.abs n < 2 ^ 53)%Z -> Binary64.nearest (inject_Z n) == inject_Z n.
Proof.
  intro A.
  assert (E : inject_Z n == inject_Z n * 2 ^ 0) by (change (2 ^ 0) with 1; ring).
  rewrite (nearest_comp _ _ E), nearest_exact by lia. symmetry. exact E.
Qed.

(** Rounding keeps a number between two integers it lies between. *)
Lemma nearest_within (a b : Z) (x : Q) :
  (Z.abs a < 2 ^ 53)%Z -> (Z.abs b < 2 ^ 53)%Z ->
  inject_Z a <= x -> x <= inject_Z b ->
  inject_Z a <= Binary64.nearest x /\ Binary64.nearest x <= inject_Z b.
Proof.
  intros A B L U. split.
  - rewrite <- (nearest_integer a A). apply nearest_le. exact L.
  - rewrite <- (nearest_integer b B). apply nearest_le. exact U.
Qed.

(** Multiples of [2^-43] below 1024 in magnitude are doubles. *)
Lemma nearest_fine_grid (n : Z) :
  Qabs (inject_Z n * 2 ^ (-43)) < 1024 ->
  Binary64.nearest (inject_Z n * 2 ^ (-43)) == inject_Z n * 2 ^ (-43).
Proof.
  intro H. apply nearest_exact; [|lia].
  assert (E : Qabs (inject_Z n * 2 ^ (-43)) == inject_Z (Z.abs n) * 2 ^ (-43)).
  { rewrite Qabs_Qmult, (Qabs_pos (2 ^ (-43))) by (apply Qlt_le_weak, pow2_pos).
    change (Qabs (inject_Z n)) with (inject_Z (Z.abs n)). reflexivity. }
  rewrite E in H.
  assert (K : inject_Z (Z.abs n) < inject_Z (2 ^ 53)).
  { apply (Qmult_lt_r _ _ (2 ^ (-43))); [apply pow2_pos|].
    apply (Qlt_le_trans _ 1024); [exact H|]. vm_compute. discriminate. }
  rewrite <- Zlt_Qlt in K. exact K.
Qed.

Lemma add_fine_grid (n m : Z) :
  Qabs (inject_Z n * 2 ^ (-43) + inject_Z m * 2 ^ (-43)) < 1024 ->
  JS.add (inject_Z n * 2 ^ (-43)) (inject_Z m * 2 ^ (-43))
  == inject_Z n * 2 ^ (-43) + inject_Z m * 2 ^ (-43).
Proof.
  intro H. unfold JS.add.
  assert (E : inject_Z n * 2 ^ (-43) + inject_Z m * 2 ^ (-43)
              == inject_Z (n + m) * 2 ^ (-43)) by (rewrite inject_Z_plus; ring).
  rewrite E in H. rewrite (nearest_comp _ _ E), E. apply nearest_fine_grid, H.
Qed.

Lemma full_turn_on_grid : 360 == inject_Z (360 * 2 ^ 43) * 2 ^ (-43).
Proof. vm_compute. reflexivity. Qed.

Lemma add360_range (x : Q) :
  -360 <= x -> x <= 360 -> 0 <= JS.add x 360 /\ JS.add x 360 <= 720.
Proof.
  intros L U. unfold JS.add.
  apply (nearest_within 0 720); try (cbn; lia);
    [change (inject_Z 0) with 0 | change (inject_Z 720) with 720]; lra.
Qed.

Lemma normalize_range (x : Q) : 0 <= normalize x /\ normalize x < 360.
Proof.
  unfold normalize. apply rem360_nonneg.
  destruct (rem360_bounds x). apply add360_range; lra.
Qed.

Lemma add_comp (x y x' y' : Q) : x == x' -> y == y' -> JS.add x y == JS.add x' y'.
Proof.
  intros E F. unfold JS.add. apply nearest_comp. rewrite E, F. reflexivity.
Qed.

Lemma sub_comp (x y x' y' : Q) : x == x' -> y == y' -> JS.sub x y == JS.sub x' y'.
Proof.
  intros E F. unfold JS.sub. apply nearest_comp. rewrite E, F. reflexivity.
Qed.

Lemma normalize_comp (x y : Q) : x == y -> normalize x == normalize y.
Proof.
  intro E. unfold normalize. apply rem_comp, add_comp; [|reflexivity].
  apply rem_comp, E.
Qed.

Lemma rem360_full_turn (x : Q) : x == 720 -> JS.rem x 360 == 0.
Proof.
  intro E. rewrite (rem_comp x 720 360 E). vm_compute. reflexivity.
Qed.

(** Normalising a value of [0,360) adds 360, rounds, and takes the turn off
    again; what changes is the rounding of that sum. *)
Lemma normalize_again (y : Q) :
  0 <= y -> y < 360 ->
  exists k : Z,
    (k = 0 \/ k = 1)%Z /\
    normalize y + 360 * inject_Z k - y == Binary64.nearest (y + 360) - (y + 360).
Proof.
  intros L U.
  assert (N : normalize y == JS.rem (Binary64.nearest (y + 360)) 360).
  { unfold normalize. apply rem_comp. unfold JS.add. apply nearest_comp.
    rewrite (rem360_small y L U). reflexivity. }
  destruct (nearest_within 360 720 (y + 360)) as [Lz Uz];
    try (cbn; lia);
    [change (inject_Z 360) with 360; lra | change (inject_Z 720) with 720; lra |].
  change (inject_Z 360) with 360 in Lz. change (inject_Z 720) with 720 in Uz.
  set (z := Binary64.nearest (y + 360)) in *.
  destruct (Qlt_le_dec z 720) as [Lt|Ge].
  - exists 0%Z. split; [left; reflexivity|].
    rewrite N, (rem360_second_turn z Lz Lt). change (inject_Z 0) with 0. ring.
  - exists 1%Z. split; [right; reflexivity|].
    assert (E : z == 720) by lra.
    rewrite N, (rem360_full_turn z E). change (inject_Z 1) with 1. rewrite E. ring.
Qed.

Lemma normalize_fixes_grid (y : Q) (n : Z) :
  0 <= y -> y < 360 -> y == inject_Z n * 2 ^ (-43) -> normalize y == y.
Proof.
  intros L U G.
  destruct (normalize_again y L U) as (k & K & E).
  assert (X : Binary64.nearest (y + 360) == y + 360).
  { assert (F : y + 360 == inject_Z (n + 360 * 2 ^ 43) * 2 ^ (-43)).
    { rewrite inject_Z_plus. pose proof full_turn_on_grid as T.
      set (c := inject_Z (360 * 2 ^ 43)) in *. set (p := 2 ^ (-43)) in *.
      assert (D : (inject_Z n + c) * p == inject_Z n * p + c * p) by ring.
      rewrite D, <- T, <- G. reflexivity. }
    assert (A : Qabs (inject_Z (n + 360 * 2 ^ 43) * 2 ^ (-43)) < 1024).
    { rewrite <- F. rewrite Qabs_pos by lra. lra. }
    rewrite (nearest_comp _ _ F), (nearest_fine_grid _ A). symmetry. exact F. }
  rewrite X in E.
  destruct (normalize_range y) as [Ln Un].
  destruct K as [-> | ->];
    [change (inject_Z 0) with 0 in E | change (inject_Z 1) with 1 in E]; lra.
Qed.

(** The rounding of that sum moves the value by at most [2^-44]. *)
Lemma normalize_again_near (y : Q) :
  0 <= y -> y < 360 ->
  exists k : Z,
    (k = 0 \/ k = 1)%Z /\
    Qabs (normalize y + 360 * inject_Z k - y) <= 2 ^ (-44).
Proof.
  intros L U. destruct (normalize_again y L U) as (k & K & E).
  exists k. split; [exact K|]. rewrite E.
  apply (nearest_error (y + 360) 10); [|lia].
  rewrite Qabs_pos by lra. change (2 ^ 10) with 1024. lra.
Qed.

(** The formula changes its argument by whole turns and by the rounding of
    the one sum, which is below 720. *)
Lemma normalize_congruent (x : Q) :
  exists k : Z, Qabs (normalize x - (x + 360 * inject_Z k)) <= 2 ^ (-44).
Proof.
  destruct (rem360_congruent x) as [a A].
  destruct (rem360_bounds x) as [Lw Uw].
  destruct (rem360_congruent (JS.add (JS.rem x 360) 360)) as [b B].
  exists (a + 1 + b)%Z.
  assert (E : normalize x - (x + 360 * inject_Z (a + 1 + b))
              == Binary64.nearest (JS.rem x 360 + 360) - (JS.rem x 360 + 360)).
  { unfold normalize. rewrite B. unfold JS.add.
    rewrite !inject_Z_plus. change (inject_Z 1) with 1.
    set (s := Binary64.nearest (JS.rem x 360 + 360)). rewrite A. ring. }
  rewrite E. apply (nearest_error (JS.rem x 360 + 360) 10); [|lia].
  change (2 ^ 10) with 1024. apply Qabs_Qlt_condition. split; lra.
Qed.

(** C8 as the specification words it does not hold on doubles: the
    addition of 360 rounds.  For x = -12.3 (the double nearest to it) the
    formula gives the double 347.7, and applied to that a larger one; and
    the largest double below 360, itself a value of the formula (at
    -2^-44), is taken to 0. *)
Lemma normalize_twice_differs :
  let x := - (3462142213541069 # 281474976710656) in
  let y := 360 - 2 ^ (-44) in
  (Binary64.isDouble x = true /\
   normalize x == 6116803087643443 # 17592186044416 /\
   normalize (normalize x) == 1529200771910861 # 4398046511104 /\
   ~ normalize (normalize x) == normalize x) /\
  (Binary64.isDouble y = true /\
   normalize (- 2 ^ (-44)) == y /\ normalize y == 0 /\
   ~ normalize (normalize (- 2 ^ (-44))) == normalize (- 2 ^ (-44))).
Proof.
  cbv zeta. repeat split; try (vm_compute; reflexivity);
    intro H; vm_compute in H; discriminate.
Qed.

(** C8, amended: [normalize] maps every number into [0,360), negative
    inputs and inputs beyond one full turn included, moving it by whole
    turns and by a rounding of at most [2^-44].  A second application
    repeats the rounded addition of 360: its result lies within [2^-44] of
    the first one, around the circle, and is equal to it whenever the
    first one is a multiple of [2^-43] (as every point of the half-degree
    grid is). *)
Theorem normalize_range_idempotent :
  forall x : Q,
    (0 <= normalize x /\ normalize x < 360) /\
    (exists k : Z, Qabs (normalize x - (x + 360 * inject_Z k)) <= 2 ^ (-44)) /\
    (exists k : Z,
       (k = 0 \/ k = 1)%Z /\
       Qabs (normalize (normalize x) + 360 * inject_Z k - normalize x)
       <= 2 ^ (-44)) /\
    (forall n : Z,
       normalize x == inject_Z n * 2 ^ (-43) ->
       normalize (normalize x) == normalize x).
Proof.
  intro x. destruct (normalize_range x) as [L U].
  split; [split; assumption|]. split; [apply normalize_congruent|]. split.
  - apply (normalize_again_near (normalize x) L U).
  - intros n G. apply (normalize_fixes_grid (normalize x) n L U G).
Qed.

Lemma normalize_range_idempotent_witness :
  normalize (normalize (- (1 # 2))) == normalize (- (1 # 2)).
Proof.
  apply (normalize_range_idempotent (- (1 # 2))) with (n := (719 * 2 ^ 42)%Z).
  vm_compute. reflexivity.
Defined.

(** ** The sector table *)

(** Replaces every comparison of the goal whose outcome follows from the
    context by its value. *)
Ltac settle_comparisons :=
  repeat match goal with
  | |- context [JS.geb ?x ?y] =>
      first [ rewrite (proj2 (geb_true x y)) by lra
            | rewrite (proj2 (geb_false x y)) by lra ]
  | |- context [JS.ltb ?x ?y] =>
      first [ rewrite (proj2 (ltb_true x y)) by lra
            | rewrite (proj2 (ltb_false x y)) by lra ]
  end.

(** Splits the range of [a] at each bound of the list, running [k] in every
    resulting interval. *)
Ltac split_range a bounds k :=
  lazymatch bounds with
  | nil => k
  | cons ?b ?rest =>
      destruct (Qlt_le_dec a b); [k | split_range a rest k]
  end.

(** A filter keeps exactly one element when its predicate holds at exactly
    one position. *)
Lemma filter_none {A : Type} (f : A -> bool) (l : list A) :
  existsb (fun b => b) (map f l) = false -> filter f l = [].
Proof.
  induction l as [|x l IH]; cbn [map existsb filter]; [reflexivity|].
  destruct (f x); cbn [orb]; [discriminate|]. exact IH.
Qed.

Lemma filter_single {A : Type} (f : A -> bool) (l : list A) :
  oneTrue (map f l) = true -> exists m, filter f l = [m].
Proof.
  induction l as [|x l IH]; cbn [map oneTrue filter]; [discriminate|].
  destruct (f x).
  - intro H. apply negb_true_iff in H. exists x.
    rewrite (filter_none f l H). reflexivity.
  - exact IH.
Qed.

Lemma exactly_one_sector (a : Q) :
  0 <= a -> a < 360 -> exists m, filter (inSector a) MOUNTAINS = [m].
Proof.
  intros L U. apply filter_single.
  unfold MOUNTAINS, inSector, wraps. cbn [map startDegree endDegree].
  split_range a
    [7.5; 22.5; 37.5; 52.5; 67.5; 82.5; 97.5; 112.5; 127.5; 142.5; 157.5;
     172.5; 187.5; 202.5; 217.5; 232.5; 247.5; 262.5; 277.5; 292.5; 307.5;
     322.5; 337.5; 352.5]
    ltac:(settle_comparisons; reflexivity).
Qed.

Lemma find_filter {A : Type} (f : A -> bool) (l : list A) (m : A) :
  filter f l = [m] -> find f l = Some m.
Proof.
  induction l as [|x l IH]; cbn [filter find]; [discriminate|].
  destruct (f x); [congruence | exact IH].
Qed.

(** C1: the 24 sectors partition the circle.  Every arc is 15 degrees wide;
    the only sector whose end lies below its start is N2 (352.5 to 7.5); the
    end of each sector is the start of the next one, cyclically (equal
    outright, hence also modulo 360); every angle of [0,360) lies in exactly
    one sector, which is the one the lookup returns; and 0 lies in N2. *)
Theorem MOUNTAINS_partition :
  List.length MOUNTAINS = 24%nat /\
  Forall (fun m => arcWidth m == 15) MOUNTAINS /\
  (exists w, filter wraps MOUNTAINS = [w] /\ direction w = "N2"%string /\
             startDegree w == 352.5 /\ endDegree w == 7.5) /\
  (forall i, (i < 24)%nat ->
     endDegree (nth i MOUNTAINS noMountain)
     == startDegree (nth (nextIndex i) MOUNTAINS noMountain)) /\
  (forall a, 0 <= a -> a < 360 ->
     exists m, filter (inSector a) MOUNTAINS = [m] /\ sectorAt a = Some m) /\
  (exists m, sectorAt 0 = Some m /\ direction m = "N2"%string).
Proof.
  split; [reflexivity|].
  split; [repeat constructor; vm_compute; reflexivity|].
  split.
  { eexists. split; [vm_compute; reflexivity|].
    repeat split; vm_compute; reflexivity. }
  split.
  { intros i Hi.
    do 24 (destruct i as [|i]; [vm_compute; reflexivity|]). lia. }
  split.
  { intros a L U. destruct (exactly_one_sector a L U) as [m Hm].
    exists m. split; [exact Hm|]. apply find_filter, Hm. }
  eexists. split; vm_compute; reflexivity.
Qed.

Lemma MOUNTAINS_partition_witness :
  exists m, filter (inSector 100) MOUNTAINS = [m] /\ sectorAt 100 = Some m.
Proof.
  destruct MOUNTAINS_partition as (_ & _ & _ & _ & H & _).
  apply (H 100); lra.
Defined.

(** ** Arc midpoints *)

(** C2 as the specification words it does not hold on the sources: for
    the wrap-around sector the computed midpoint is 360, which is neither
    below 360 nor equal to 0. *)
Lemma midDegree_reaches_full_turn :
  ~ (forall m, In m MOUNTAINS -> 0 <= midDegree m /\ midDegree m < 360) /\
  (midDegree (nth 1 MOUNTAINS noMountain) == 360 /\
   ~ midDegree (nth 1 MOUNTAINS noMountain) == 0).
Proof.
  assert (E : midDegree (nth 1 MOUNTAINS noMountain) == 360)
    by (vm_compute; reflexivity).
  split; [|split; [exact E|rewrite E; discriminate]].
  intro H. destruct (H (nth 1 MOUNTAINS noMountain)) as [_ U].
  - cbn. tauto.
  - rewrite E in U. discriminate.
Qed.

(** C2, amended: for each of the 24 sectors the computed midpoint
    [(s + e') / 2], with [e'] the wrap-adjusted end, lies strictly between
    [s] and [e'] and in (0,360]; no normalisation is applied, so for the
    wrap-around sector (352.5 to 7.5) it is 360, the same direction as 0
    and not 180.  Normalised, every midpoint lies in [0,360) and inside its
    own sector. *)
Theorem midDegree_within_arc :
  forall m, In m MOUNTAINS ->
    (startDegree m < midDegree m /\ midDegree m < wrapAdjustedEnd m) /\
    (0 < midDegree m /\ midDegree m <= 360) /\
    (wraps m = true ->
       midDegree m == 360 /\ normalize (midDegree m) == 0 /\
       ~ midDegree m == 180) /\
    (0 <= spec_midpointOf m /\ spec_midpointOf m < 360) /\
    inSector (spec_midpointOf m) m = true.
Proof.
  apply Forall_forall.
  repeat constructor;
    try (vm_compute; (reflexivity || discriminate));
    try (intros _; repeat split; vm_compute; (reflexivity || discriminate)).
Qed.

Lemma midDegree_within_arc_witness :
  startDegree (nth 1 MOUNTAINS noMountain) < midDegree (nth 1 MOUNTAINS noMountain).
Proof.
  apply (midDegree_within_arc (nth 1 MOUNTAINS noMountain)).
  cbn. tauto.
Defined.

(** ** The facade-rotation setter *)

Lemma sub360_nonneg (v : Q) : 360 <= v -> 0 <= JS.sub v 360.
Proof.
  intro H. unfold JS.sub. rewrite <- (nearest_zero 0) by reflexivity.
  apply nearest_le. lra.
Qed.

Lemma handleFacadeRotationChange_cases (v : Q) :
  (360 <= v /\ handleFacadeRotationChange v = JS.sub v 360) \/
  (v < 0 /\ handleFacadeRotationChange v = JS.add v 360) \/
  (0 <= v /\ v < 360 /\ handleFacadeRotationChange v = v).
Proof.
  unfold handleFacadeRotationChange.
  case_geb v 360.
  - pose proof (sub360_nonneg v E) as P.
    rewrite (proj2 (ltb_false (JS.sub v 360) 0) P).
    left. split; [assumption|reflexivity].
  - case_ltb v 0.
    + right. left. split; [assumption|reflexivity].
    + right. right. repeat split; (assumption || reflexivity).
Qed.

(** On doubles the setter brings the inputs of [-360,720] into the closed
    range [0,360]. *)
Lemma handleFacadeRotationChange_closed_range (v : Q) :
  -360 <= v -> v <= 720 ->
  0 <= handleFacadeRotationChange v /\ handleFacadeRotationChange v <= 360.
Proof.
  intros L U.
  destruct (handleFacadeRotationChange_cases v) as [[H ->]|[[H ->]|(H & H' & ->)]].
  - unfold JS.sub. apply (nearest_within 0 360); try (cbn; lia);
      [change (inject_Z 0) with 0 | change (inject_Z 360) with 360]; lra.
  - unfold JS.add. apply (nearest_within 0 360); try (cbn; lia);
      [change (inject_Z 0) with 0 | change (inject_Z 360) with 360]; lra.
  - split; lra.
Qed.

(** Below 360 by more than half a unit of the last place, a sum stays
    below 360 when rounded; nearer to 360 it becomes 360. *)
Lemma nearest_below_full_turn (x : Q) :
  256 <= x -> x < 360 - 2 ^ (-45) -> Binary64.nearest x < 360.
Proof.
  intros L U.
  assert (P : 0 < x) by lra.
  rewrite (nearest_pos x P). unfold Binary64.nearestPos. cbv zeta.
  assert (I : Binary64.ilog2 x = 8%Z).
  { apply ilog2_unique; [change (2 ^ 8) with 256; exact L|].
    change (2 ^ (8 + 1)) with 512.
    apply (Qlt_trans _ (360 - 2 ^ (-45))); [exact U|]. vm_compute. reflexivity. }
  assert (C : Binary64.cexp x = (-44)%Z) by (unfold Binary64.cexp; rewrite I; reflexivity).
  rewrite C.
  destruct (rne_near (x / 2 ^ (-44))) as [_ R].
  set (r := inject_Z (Binary64.rne (x / 2 ^ (-44)))) in *.
  assert (S : x / 2 ^ (-44) == x * 2 ^ 44) by (vm_compute (2 ^ (-44)); field).
  rewrite S in R.
  assert (B : (360 - 2 ^ (-45)) * 2 ^ 44 + (1 # 2) == 360 * 2 ^ 44)
    by (vm_compute; reflexivity).
  assert (M : x * 2 ^ 44 < (360 - 2 ^ (-45)) * 2 ^ 44).
  { apply Qmult_lt_compat_r; [apply pow2_pos | exact U]. }
  assert (T : r < 360 * 2 ^ 44) by lra.
  assert (F : 360 == 360 * 2 ^ 44 * 2 ^ (-44)) by (vm_compute; reflexivity).
  apply (Qlt_le_trans _ (360 * 2 ^ 44 * 2 ^ (-44))).
  - apply Qmult_lt_compat_r; [apply pow2_pos | exact T].
  - rewrite <- F. apply Qle_refl.
Qed.

Lemma nearest_reaches_full_turn (x : Q) :
  360 - 2 ^ (-45) <= x -> x <= 360 -> Binary64.nearest x == 360.
Proof.
  intros L U.
  assert (A : Binary64.nearest (360 - 2 ^ (-45)) == 360) by (vm_compute; reflexivity).
  assert (B : Binary64.nearest 360 == 360) by (vm_compute; reflexivity).
  pose proof (nearest_le _ _ L). pose proof (nearest_le _ _ U). lra.
Qed.

Lemma isDouble_true (x : Q) : Binary64.isDouble x = true <-> Binary64.nearest x == x.
Proof. unfold Binary64.isDouble. apply Qeq_bool_iff. Qed.

(** The doubles from 256 up to 1024 are multiples of [2^-44]. *)
Lemma double_near_full_turn (v : Q) :
  Binary64.isDouble v = true -> 256 <= v -> v < 1024 ->
  exists n : Z, v == inject_Z n * 2 ^ (-44).
Proof.
  intros D L U. apply isDouble_true in D.
  assert (P : 0 < v) by lra.
  rewrite (nearest_pos v P) in D. unfold Binary64.nearestPos in D. cbv zeta in D.
  assert (I1 : (8 <= Binary64.ilog2 v)%Z).
  { rewrite <- (ilog2_unique 256 8); [apply ilog2_le; lra | | ];
      vm_compute; (reflexivity || discriminate). }
  assert (I2 : (Binary64.ilog2 v < 10)%Z).
  { apply ilog2_below; [exact P|]. change (2 ^ 10) with 1024. exact U. }
  assert (C : Binary64.cexp v = (-44)%Z \/ Binary64.cexp v = (-43)%Z)
    by (unfold Binary64.cexp; lia).
  set (n := Binary64.rne (v / 2 ^ Binary64.cexp v)) in *. clearbody n.
  destruct C as [C|C]; rewrite C in D.
  - exists n. symmetry. exact D.
  - exists (2 * n)%Z. rewrite <- D, inject_Z_mult.
    assert (E : 2 ^ (-43) == inject_Z 2 * 2 ^ (-44)) by (vm_compute; reflexivity).
    rewrite E. ring.
Qed.

(** Taking a full turn off a double of [360,720) is exact. *)
Lemma sub360_exact (v : Q) :
  Binary64.isDouble v = true -> 360 <= v -> v < 720 -> JS.sub v 360 == v - 360.
Proof.
  intros D L U.
  destruct (double_near_full_turn v D) as [n E]; [lra | lra |].
  assert (F : v - 360 == inject_Z (n - 360 * 2 ^ 44) * 2 ^ (-44)).
  { unfold Zminus. rewrite inject_Z_plus, inject_Z_opp, E.
    assert (T : 360 == inject_Z (360 * 2 ^ 44) * 2 ^ (-44)) by (vm_compute; reflexivity).
    rewrite T at 1. ring. }
  unfold JS.sub. rewrite (nearest_comp _ _ F), F. apply nearest_exact; [|lia].
  assert (B : inject_Z (n - 360 * 2 ^ 44) < inject_Z (360 * 2 ^ 44) /\
              inject_Z 0 <= inject_Z (n - 360 * 2 ^ 44)).
  { pose proof (pow2_pos (-44)) as Pp. split.
    - apply (Qmult_lt_r _ _ (2 ^ (-44)) Pp). rewrite <- F.
      assert (T : inject_Z (360 * 2 ^ 44) * 2 ^ (-44) == 360) by (vm_compute; reflexivity).
      rewrite T. lra.
    - apply (Qmult_le_r _ _ (2 ^ (-44)) Pp). rewrite <- F.
      change (inject_Z 0) with 0. lra. }
  destruct B as [B1 B2]. rewrite <- Zlt_Qlt in B1. rewrite <- Zle_Qle in B2.
  assert (M : (360 * 2 ^ 44 < 2 ^ 53)%Z) by (vm_compute; reflexivity).
  lia.
Qed.

(** Where the setter yields 360 itself: on the inputs just below zero. *)
Lemma handleFacadeRotationChange_full_turn (v : Q) :
  Binary64.isDouble v = true -> -360 <= v -> v < 720 ->
  (handleFacadeRotationChange v == 360 <-> - 2 ^ (-45) <= v /\ v < 0).
Proof.
  intros D L U.
  assert (Tiny : 0 < 2 ^ (-45)) by apply pow2_pos.
  destruct (handleFacadeRotationChange_cases v) as [[H ->]|[[H ->]|(H & H' & ->)]].
  - rewrite (sub360_exact v D H U). split; [intro E; lra | intros []; lra].
  - unfold JS.add. split.
    + intro E. split; [|exact H].
      destruct (Qlt_le_dec v (- 2 ^ (-45))) as [F|F]; [|exact F].
      exfalso.
      destruct (Qlt_le_dec (v + 360) 256) as [S|S].
      * assert (A : Binary64.nearest (v + 360) <= Binary64.nearest 256)
          by (apply nearest_le; lra).
        assert (B : Binary64.nearest 256 == 256) by (vm_compute; reflexivity).
        lra.
      * pose proof (nearest_below_full_turn (v + 360) S). lra.
    + intros [F _]. apply nearest_reaches_full_turn; lra.
  - split; [intro E; lra | intros []; lra].
Qed.

(** ** Record bookkeeping for the handlers *)

Lemma vibrate_keeps (h : Host) (ms : nat) (st : Orientation) :
  facadeRotation (vibrate h ms st) = facadeRotation st /\
  facadeRotationRef (vibrate h ms st) = facadeRotationRef st /\
  isDraggingFacade (vibrate h ms st) = isDraggingFacade st /\
  listening (vibrate h ms st) = listening st /\
  reported (vibrate h ms st) = reported st.
Proof.
  unfold vibrate. destruct (canVibrate h); repeat split; reflexivity.
Qed.

Lemma calculateRotation_effect (h : Host) (raw : Q) (st : Orientation) :
  facadeRotation (calculateRotation h raw st)
    = handleFacadeRotationChange (pointerAngle raw) /\
  facadeRotationRef (calculateRotation h raw st) = facadeRotationRef st /\
  isDraggingFacade (calculateRotation h raw st) = isDraggingFacade st /\
  listening (calculateRotation h raw st) = listening st /\
  reported (calculateRotation h raw st) = pointerAngle raw :: reported st.
Proof.
  unfold calculateRotation, onFacadeChange.
  destruct (negb _); cbn [facadeRotation facadeRotationRef isDraggingFacade
                          listening reported];
    [destruct (vibrate_keeps h 5 st) as (_ & -> & -> & -> & ->)|];
    repeat split; reflexivity.
Qed.

Lemma handleUp_effect (h : Host) (st : Orientation) :
  facadeRotation (handleUp h st)
    = handleFacadeRotationChange (snap (facadeRotationRef st)) /\
  facadeRotationRef (handleUp h st) = facadeRotationRef st /\
  isDraggingFacade (handleUp h st) = false /\
  listening (handleUp h st) = false /\
  reported (handleUp h st) = snap (facadeRotationRef st) :: reported st.
Proof.
  unfold handleUp, onFacadeChange, vibrate.
  destruct (canVibrate h); repeat split; reflexivity.
Qed.

Lemma handleFacadeDragStart_effect (h : Host) (raw : Q) (st : Orientation) :
  isInteractive h = true ->
  facadeRotation (handleFacadeDragStart h raw st)
    = handleFacadeRotationChange (pointerAngle raw) /\
  facadeRotationRef (handleFacadeDragStart h raw st) = facadeRotationRef st /\
  listening (handleFacadeDragStart h raw st) = true.
Proof.
  intro I. unfold handleFacadeDragStart. rewrite I.
  cbn [negb facadeRotation facadeRotationRef listening].
  match goal with
  | |- context [vibrate h 20 ?s] =>
      destruct (vibrate_keeps h 20 s) as (-> & -> & _)
  end.
  match goal with
  | |- context [calculateRotation h raw ?s] =>
      destruct (calculateRotation_effect h raw s) as (-> & -> & _)
  end.
  repeat split; reflexivity.
Qed.

(** ** Snapping *)

Lemma snap_half_integer (r : Q) : exists k : Z, snap r == inject_Z k / 2.
Proof. exists (JS.round (r * 2)). reflexivity. Qed.


Lemma round_bounds (x : Q) :
  inject_Z (JS.round x) <= x + (1 # 2) /\ x - (1 # 2) < inject_Z (JS.round x).
Proof.
  unfold JS.round. destruct (Qfloor_bounds (x + (1 # 2))). split; lra.
Qed.





(** The grid point of a rotation of [0,360] lies in [0,360], and the setter
    stores it as it is, 360 apart, which it stores as 0. *)
Lemma snap_then_wrap (r : Q) :
  0 <= r -> r <= 360 ->
  (0 <= handleFacadeRotationChange (snap r) /\
   handleFacadeRotationChange (snap r) < 360) /\
  (snap r < 360 -> handleFacadeRotationChange (snap r) == snap r) /\
  (snap r == 360 -> handleFacadeRotationChange (snap r) == 0).
Proof.
  intros L U.
  destruct (round_bounds (r * 2)) as [Rl Ru].
  set (k := JS.round (r * 2)) in *.
  assert (K : (0 <= k <= 720)%Z).
  { assert (A : inject_Z (-1) < inject_Z k)
      by (change (inject_Z (-1)) with (-1); lra).
    assert (B : inject_Z k < inject_Z 721)
      by (change (inject_Z 721) with 721; lra).
    rewrite <- Zlt_Qlt in A, B. lia. }
  assert (S : snap r == inject_Z k * (1 # 2)) by (unfold snap; fold k; field).
  assert (Kq : 0 <= inject_Z k /\ inject_Z k <= 720).
  { change 0 with (inject_Z 0). change 720 with (inject_Z 720).
    rewrite <- !Zle_Qle. lia. }
  destruct (handleFacadeRotationChange_cases (snap r))
    as [[H E]|[[H E]|(H & H' & E)]]; rewrite E.
  - assert (F : snap r - 360 == 0) by lra.
    unfold JS.sub. rewrite (nearest_zero _ F).
    repeat split; intros; lra.
  - exfalso. lra.
  - repeat split; intros; lra.
Qed.

(** ** Releasing a drag *)




(** C4: the release does not always report the snap of the rotation
    current at release.  [handleUp] snaps [facadeRotationRef.current], which
    the sources keep as the latest rotation "to ensure accurate snapping",
    but which only the effect that runs after a render brings up to date.
    Here the pointer goes down at 10.25, the effect runs, the pointer moves
    on to 359.75 and is released before the next effect: the rotation at
    release is 359.75, the value reported is 10.5, not
    [round(359.75 * 2) / 2 = 360], and the rotation stored is no longer the
    one the pointer was released at. *)
Lemma release_snaps_stale_rotation :
  let h := mkHost true true in
  let st := mkOrientation 0 0 false false [] [] in
  let before := run h [PointerDown 10.25; Commit; PointerMove 359.75] st in
  let after := run h [PointerDown 10.25; Commit; PointerMove 359.75; PointerUp] st in
  facadeRotation before == 359.75 /\
  facadeRotationRef before == 10.25 /\
  hd 0 (reported after) == 10.5 /\
  facadeRotation after == 10.5 /\
  ~ hd 0 (reported after)
    == inject_Z (Qfloor (facadeRotation before * 2 + (1 # 2))) / 2.
Proof.
  cbv zeta. repeat split; try (vm_compute; reflexivity).
  intro H. vm_compute in H. discriminate.
Qed.



(** ** The range of the stored rotation *)

(** C10: the range [0,360) of the stored rotation is not kept on doubles.
    The setter corrects a negative value by [newRot += 360], and for a value
    just below zero that sum rounds to 360 itself, after the test
    [newRot >= 360] has been passed: the input [-2^-50] is stored as 360,
    and from the rotation 0.49999999999999994 (the double below 0.5, a
    value of [0,360)) the -0.5 step button stores 360. *)
Theorem facadeRotation_leaves_range :
  let v := - 2 ^ (-50) in
  let r := (1 # 2) - 2 ^ (-54) in
  let h := mkHost true true in
  let st := mkOrientation r r false false [] [] in
  (Binary64.isDouble v = true /\ -360 <= v /\ v < 720 /\
   handleFacadeRotationChange v == 360) /\
  (Binary64.isDouble r = true /\ inRange st /\ builtin (StepButton false) /\
   facadeRotation (run h [StepButton false] st) == 360 /\
   ~ inRange (run h [StepButton false] st)).
Proof.
  cbv zeta. split.
  - repeat split; vm_compute; (reflexivity || discriminate).
  - split; [vm_compute; reflexivity|].
    split; [repeat split; vm_compute; (reflexivity || discriminate)|].
    split; [exact I|]. split; [vm_compute; reflexivity|].
    intros [[_ U] _]. vm_compute in U. discriminate.
Qed.

(** Outside the three controls: a voice command hands any recognised number
    to the same setter, which corrects by one turn only. *)
Lemma voice_command_beyond_two_turns :
  facadeRotation
    (step (mkHost true true) (Voice 1000) (mkOrientation 0 0 false false [] []))
  == 640.
Proof. vm_compute. reflexivity. Qed.

(** ** Address search *)

Section GeoServiceFacts.

Variable encodeURIComponent : string -> option string.

Lemma short_query_guard (query : string) :
  (JS.length query < 3)%nat ->
  searchAddress encodeURIComponent query = Resolve [].
Proof.
  intro H. unfold searchAddress.
  apply Nat.ltb_lt in H. rewrite H, orb_true_r. reflexivity.
Qed.

Lemma empty_query_is_short : (JS.length EmptyString < 3)%nat.
Proof. cbn. lia. Qed.

(** What the search does once the guard has let the query through. *)
Lemma searchAddress_exec (w : World) (query : string) :
  exec w (searchAddress encodeURIComponent query) =
  if String.eqb query EmptyString || (JS.length query <? 3)%nat
  then ([], Fulfilled [])
  else
    match encodeURIComponent query with
    | None => ([], Fulfilled [])
    | Some q =>
        ([FetchCall (NominatimSearch q)],
         Fulfilled
           match network w (NominatimSearch q) with
           | Some (mkResponse true (Some (Arr items))) => items
           | _ => []
           end)
    end.
Proof.
  unfold searchAddress.
  destruct (String.eqb query EmptyString || (JS.length query <? 3)%nat);
    [reflexivity|].
  unfold encodeQuery. destruct (encodeURIComponent query) as [q|];
    [|reflexivity].
  cbn [bind tryCatch fetch exec].
  destruct (network w (NominatimSearch q)) as [[o j]|]; [|reflexivity].
  cbn [bind tryCatch ok negb].
  destruct o; cbn [negb bind tryCatch exec]; [|reflexivity].
  unfold responseJson. cbn [json].
  destruct j as [d|]; cbn [bind tryCatch exec]; [|reflexivity].
  destruct d; reflexivity.
Qed.

(** C7: a query of fewer than 3 characters (UTF-16 code units, as
    [query.length] counts them; the empty one included)
    yields the empty sequence without any call to the network; and for
    every query the search settles with a sequence, never with an error,
    which is empty whenever the transport fails, the response is not OK,
    or the body is not an array (or does not parse).  A longer query whose
    response is OK with an array as body makes the one request and yields
    that array. *)
Theorem searchAddress_degrades_to_empty :
  forall (w : World) (query : string),
    ((JS.length query < 3)%nat ->
     exec w (searchAddress encodeURIComponent query) = ([], Fulfilled [])) /\
    (exists items,
       snd (exec w (searchAddress encodeURIComponent query)) = Fulfilled items) /\
    (forall q, encodeURIComponent query = Some q ->
       match network w (NominatimSearch q) with
       | None => True
       | Some response =>
           ok response = false \/
           match json response with
           | None => True
           | Some data => isArray data = false
           end
       end ->
       snd (exec w (searchAddress encodeURIComponent query)) = Fulfilled []) /\
    (forall q items,
       (3 <= JS.length query)%nat ->
       encodeURIComponent query = Some q ->
       network w (NominatimSearch q) = Some (mkResponse true (Some (Arr items))) ->
       exec w (searchAddress encodeURIComponent query)
       = ([FetchCall (NominatimSearch q)], Fulfilled items)).
Proof.
  intros w query. split; [|split; [|split]].
  - intro H. rewrite (short_query_guard query H). reflexivity.
  - rewrite searchAddress_exec.
    destruct (_ || _); [eexists; reflexivity|].
    destruct (encodeURIComponent query); eexists; reflexivity.
  - intros q Hq F. rewrite searchAddress_exec, Hq.
    destruct (_ || _); [reflexivity|]. cbn [snd].
    destruct (network w (NominatimSearch q)) as [[o j]|]; [|reflexivity].
    cbn [ok json] in F. destruct o; [|reflexivity].
    destruct j as [d|]; [|reflexivity].
    destruct F as [F|F]; [discriminate|].
    destruct d; try reflexivity. discriminate.
  - intros q items L Hq N. rewrite searchAddress_exec, Hq, N.
    destruct (String.eqb_spec query EmptyString) as [->|_];
      [exfalso; cbn in L; lia|].
    apply Nat.ltb_ge in L. rewrite L. reflexivity.
Qed.

End GeoServiceFacts.

Lemma searchAddress_degrades_to_empty_witness :
  exec (mkWorld (fun _ => Some (mkResponse true (Some (Arr [Null]))))
                (fun _ _ => Generated None))
       (searchAddress Some "яя")
  = ([], Fulfilled []).
Proof.
  apply (searchAddress_degrades_to_empty Some
           (mkWorld (fun _ => Some (mkResponse true (Some (Arr [Null]))))
                    (fun _ _ => Generated None)) "яя").
  cbn. lia.
Defined.

(** ** Batch elevation lookup *)

Lemma getBatchAltitudes_exec (w : World) (locations : list Location) :
  exec w (getBatchAltitudes locations) =
  if (List.length locations =? 0)%nat then ([], Fulfilled (Arr []))
  else
    let req := OpenMeteoElevation (map lat locations) (map lon locations) in
    ([FetchCall req],
     Fulfilled
       match network w req with
       | Some (mkResponse true (Some data)) =>
           match getProp data "elevation" with
           | Some elevation =>
               if truthy elevation then elevation
               else nullArray (List.length locations)
           | None => nullArray (List.length locations)
           end
       | _ => nullArray (List.length locations)
       end).
Proof.
  unfold getBatchAltitudes.
  destruct (List.length locations =? 0)%nat; [reflexivity|].
  cbn [bind tryCatch fetch exec].
  destruct (network w _) as [[o j]|]; [|reflexivity].
  cbn [bind tryCatch ok negb].
  destruct o; cbn [negb bind tryCatch exec]; [|reflexivity].
  unfold responseJson. cbn [json].
  destruct j as [d|]; cbn [bind tryCatch exec]; [|reflexivity].
  unfold prop. destruct (getProp d "elevation") as [e|];
    cbn [bind tryCatch exec]; [|reflexivity].
  destruct (truthy e); reflexivity.
Qed.

(** The lookup never rejects, and on a transport failure, a response that
    is not OK, or a body that does not parse it delivers one [null] per
    requested point. *)
Lemma getBatchAltitudes_failure_nulls (w : World) (locations : list Location) :
  (exists v, snd (exec w (getBatchAltitudes locations)) = Fulfilled v) /\
  (match network w (OpenMeteoElevation (map lat locations) (map lon locations)) with
   | None => True
   | Some response => ok response = false \/ json response = None
   end ->
   snd (exec w (getBatchAltitudes locations))
   = Fulfilled (nullArray (List.length locations))).
Proof.
  rewrite getBatchAltitudes_exec. split.
  - destruct (_ =? _)%nat; eexists; reflexivity.
  - destruct locations as [|l ls]; [intros _; reflexivity|].
    cbn [List.length Nat.eqb snd].
    destruct (network w _) as [[o j]|]; [|reflexivity].
    cbn [ok json]. intros [F|F]; subst; [reflexivity|].
    destruct o; reflexivity.
Qed.

(** C5 on the sources: three points are requested and the service answers
    with two elevations.  The lookup does not reject, but it returns the
    service's array as it is: two entries, not three, and the slot of the
    third point reads [undefined], which the caller's [!== null] test lets
    through. *)
Theorem getBatchAltitudes_short_reply :
  let locations := [mkLocation 55.75 37.62; mkLocation 55.76 37.62;
                    mkLocation 55.77 37.62] in
  let w := mkWorld
             (fun _ => Some (mkResponse true
                 (Some (Obj [("elevation"%string, Arr [Num 100; Num 200])]))))
             (fun _ _ => Generated None) in
  snd (exec w (getBatchAltitudes locations)) = Fulfilled (Arr [Num 100; Num 200]) /\
  snd (exec w (getBatchAltitudes locations))
    <> Fulfilled (nullArray (List.length locations)) /\
  (forall items,
     snd (exec w (getBatchAltitudes locations)) = Fulfilled (Arr items) ->
     List.length items = 2%nat /\ List.length locations = 3%nat) /\
  getIndex (Arr [Num 100; Num 200]) 2 = Undefined /\
  storedAltitude (Arr [Num 100; Num 200]) 2 = Some Undefined.
Proof.
  cbv zeta. split; [reflexivity|]. split; [cbn; discriminate|].
  split; [|split; reflexivity].
  intros items H. cbn in H. injection H as <-. split; reflexivity.
Qed.

(** ** AI analysis *)

Lemma analyzeDirection_exec (w : World) (apiKey : option string)
    (mountain : Mountain) (rotation : Q) (mapCenter : option (Q * Q))
    (mapZoom : option Q) :
  exec w (analyzeDirection apiKey mountain rotation mapCenter mapZoom) =
  if keyMissing apiKey then ([], Rejected missingKeyMessage)
  else
    let prompt := promptOf mountain rotation mapCenter mapZoom in
    ([GenerateCall "gemini-2.5-flash" prompt],
     match aiService w "gemini-2.5-flash" prompt with
     | Generated text =>
         Fulfilled (orElse text "Не удалось получить ответ от оракула.")
     | GenerateFailed message =>
         Rejected (orElse message "Ошибка соединения с духами ИИ.")
     end).
Proof.
  unfold analyzeDirection. destruct (keyMissing apiKey); [reflexivity|].
  cbn [exec].
  destruct (aiService w _ _); reflexivity.
Qed.

(** C9: without the credential the analysis fails before any call is made,
    with the message that [handleAnalyze] puts into the error slot of the
    analysis panel; it is never retried (at most one call is made); and
    the analysis fails exactly when the credential is missing or the call
    to the service fails. *)
Theorem analyzeDirection_credential :
  forall (w : World) (apiKey : option string) (mountain : Mountain)
         (rotation : Q) (mapCenter : option (Q * Q)) (mapZoom : option Q)
         (analysis : AnalysisState),
    let outcome := exec w (analyzeDirection apiKey mountain rotation mapCenter mapZoom) in
    (keyMissing apiKey = true ->
       outcome = ([], Rejected missingKeyMessage) /\
       exec w (handleAnalyze apiKey (Some mountain) rotation mapCenter mapZoom analysis)
       = ([], Fulfilled (mkAnalysisState false None (Some missingKeyMessage)))) /\
    (List.length (fst outcome) <= 1)%nat /\
    ((exists message, snd outcome = Rejected message) <->
     (keyMissing apiKey = true \/
      exists message,
        aiService w "gemini-2.5-flash" (promptOf mountain rotation mapCenter mapZoom)
        = GenerateFailed message)).
Proof.
  intros w apiKey mountain rotation mapCenter mapZoom analysis outcome.
  subst outcome. rewrite analyzeDirection_exec.
  split; [|split].
  - intro K. rewrite K. split; [reflexivity|].
    unfold handleAnalyze, analyzeDirection. rewrite K. reflexivity.
  - destruct (keyMissing apiKey); cbn; lia.
  - destruct (keyMissing apiKey); cbn [snd].
    + split; [intros _; left; reflexivity | intros _; eexists; reflexivity].
    + destruct (aiService w _ _) as [text|message]; split.
      * intros [m H]. discriminate.
      * intros [H|[m H]]; discriminate.
      * intros _. right. eexists. reflexivity.
      * intros _. eexists. reflexivity.
Qed.

Lemma analyzeDirection_credential_witness :
  exec (mkWorld (fun _ => None) (fun _ _ => Generated (Some "ok"%string)))
       (analyzeDirection None (nth 1 MOUNTAINS noMountain) 12 None None)
  = ([], Rejected missingKeyMessage).
Proof.
  apply (analyzeDirection_credential
           (mkWorld (fun _ => None) (fun _ _ => Generated (Some "ok"%string)))
           None (nth 1 MOUNTAINS noMountain) 12 None None
           (mkAnalysisState false None None)).
  reflexivity.
Defined.

(** ** Decimal digits *)

Lemma digitValue_digitChar (d : N) : isDigit d -> digitValue (digitChar d) = Some d.
Proof.
  unfold isDigit. intro H.
  assert (C : (d = 0 \/ d = 1 \/ d = 2 \/ d = 3 \/ d = 4 \/ d = 5 \/ d = 6
               \/ d = 7 \/ d = 8 \/ d = 9)%N) by lia.
  repeat (destruct C as [C|C]; [subst d; reflexivity|]).
  subst d. reflexivity.
Qed.

Lemma spanDigits_digits (ds : list N) (rest : list ascii) :
  Forall isDigit ds -> stopsDigits rest ->
  spanDigits (map digitChar ds ++ rest) = (ds, rest).
Proof.
  intros F S. induction F as [|d ds Hd _ IH]; cbn [map app spanDigits].
  - destruct rest as [|c r]; [reflexivity|].
    cbn [stopsDigits] in S. cbn [spanDigits]. rewrite S. reflexivity.
  - rewrite (digitValue_digitChar d Hd), IH. reflexivity.
Qed.

Lemma decimalValue_snoc (ds : list N) (d : N) :
  decimalValue (ds ++ [d]) = (10 * decimalValue ds + d)%N.
Proof. unfold decimalValue. rewrite fold_left_app. reflexivity. Qed.

Lemma decimalValue_app (a b : list N) :
  decimalValue (a ++ b)
  = (decimalValue a * 10 ^ N.of_nat (List.length b) + decimalValue b)%N.
Proof.
  induction b as [|d b IH] using rev_ind.
  - rewrite app_nil_r. cbn. lia.
  - rewrite app_assoc, !decimalValue_snoc, IH, length_app.
    cbn [List.length]. rewrite Nat.add_1_r, Nat2N.inj_succ, N.pow_succ_r'.
    lia.
Qed.

Lemma decimalValue_zeros (k : nat) : decimalValue (repeat 0%N k) = 0%N.
Proof.
  induction k as [|k IH]; [reflexivity|].
  change (repeat 0%N (S k)) with ([0%N] ++ repeat 0%N k).
  rewrite decimalValue_app, IH. reflexivity.
Qed.

Lemma digitsFuel_spec (fuel : nat) :
  forall (n : N) (acc : list N),
    (0 < fuel)%nat -> (n < 10 ^ N.of_nat fuel)%N ->
    exists ds, digitsFuel fuel n acc = ds ++ acc /\
               Forall isDigit ds /\ ds <> [] /\ decimalValue ds = n.
Proof.
  induction fuel as [|k IH]; intros n acc Hf Hn; [lia|].
  cbn [digitsFuel].
  assert (Hd : isDigit (n mod 10)) by (apply N.mod_lt; lia).
  destruct (N.eqb_spec (n / 10) 0) as [Z|NZ].
  - exists [(n mod 10)%N]. repeat split.
    + constructor; [exact Hd | constructor].
    + discriminate.
    + cbn. pose proof (N.div_mod n 10). lia.
  - assert (Hk : (0 < k)%nat).
    { destruct k; [|lia]. exfalso. apply NZ.
      apply N.div_small. cbn in Hn. lia. }
    assert (Hq : (n / 10 < 10 ^ N.of_nat k)%N).
    { apply N.Div0.div_lt_upper_bound.
      rewrite Nat2N.inj_succ, N.pow_succ_r' in Hn. exact Hn. }
    destruct (IH (n / 10)%N ((n mod 10)%N :: acc) Hk Hq) as (ds & E & F & _ & V).
    exists (ds ++ [(n mod 10)%N]). repeat split.
    + rewrite E, <- app_assoc. reflexivity.
    + apply Forall_app. split; [exact F|]. constructor; [exact Hd|constructor].
    + destruct ds; discriminate.
    + rewrite decimalValue_snoc, V. pose proof (N.div_mod n 10). lia.
Qed.

Lemma digitsOf_spec (n : N) :
  Forall isDigit (digitsOf n) /\ digitsOf n <> [] /\ decimalValue (digitsOf n) = n.
Proof.
  unfold digitsOf.
  destruct (digitsFuel_spec (S (N.to_nat (N.log2 n))) n []) as (ds & E & F & NE & V).
  - lia.
  - rewrite Nat2N.inj_succ, N2Nat.id.
    destruct (N.eq_dec n 0) as [->|NZ]; [reflexivity|].
    destruct (N.log2_spec n) as [_ U]; [lia|].
    apply (N.lt_le_trans _ _ _ U).
    apply N.pow_le_mono_l. lia.
  - rewrite E, app_nil_r. repeat split; assumption.
Qed.

(** ** The text [toFixed] writes and what [parseFloat] reads from it *)

Lemma Forall_split_at {A : Type} (P : A -> Prop) (k : nat) (l : list A) :
  Forall P l -> Forall P (firstn k l) /\ Forall P (skipn k l).
Proof.
  intro F. apply Forall_app. rewrite firstn_skipn. exact F.
Qed.

Lemma toFixed_shape (f : nat) (x : Q) :
  exists ip fp,
    Forall isDigit ip /\ Forall isDigit fp /\ ip <> [] /\
    List.length fp = f /\
    (decimalValue ip * 10 ^ N.of_nat f + decimalValue fp = scaled f x)%N /\
    list_ascii_of_string (toFixed f x) = decimalText (JS.ltb x 0) ip fp.
Proof.
  unfold toFixed, scaled, decimalText.
  rewrite list_ascii_of_string_of_list_ascii.
  set (n := Z.to_N _).
  destruct (digitsOf_spec n) as (F & NE & V).
  destruct (Nat.eqb_spec f 0) as [->|NZ].
  - exists (digitsOf n), []. repeat split; try assumption; try constructor.
    + rewrite V. change (decimalValue []) with 0%N.
      change (N.of_nat 0) with 0%N. rewrite N.pow_0_r. lia.
    + rewrite app_nil_r. reflexivity.
  - set (m0 := digitsOf n) in *.
    set (m := if (List.length m0 <=? f)%nat
              then repeat 0%N (f + 1 - List.length m0) ++ m0 else m0).
    assert (Fm : Forall isDigit m).
    { subst m. destruct (_ <=? _)%nat; [|exact F].
      apply Forall_app. split; [|exact F].
      apply Forall_forall. intros d Hd. apply repeat_spec in Hd.
      subst d. unfold isDigit. lia. }
    assert (Vm : decimalValue m = n).
    { subst m. destruct (_ <=? _)%nat; [|exact V].
      rewrite decimalValue_app, decimalValue_zeros, V. lia. }
    assert (Lm : (f < List.length m)%nat).
    { subst m. destruct (Nat.leb_spec (List.length m0) f) as [L|L]; [|exact L].
      rewrite length_app, repeat_length. lia. }
    destruct (Forall_split_at isDigit (List.length m - f) m Fm) as [Fi Ff].
    exists (firstn (List.length m - f) m), (skipn (List.length m - f) m).
    assert (Lf : List.length (skipn (List.length m - f) m) = f)
      by (rewrite length_skipn; lia).
    repeat split; try assumption.
    + intro E. apply (f_equal (@List.length N)) in E.
      rewrite length_firstn in E. cbn in E. lia.
    + assert (W : decimalValue (firstn (List.length m - f) m
                                ++ skipn (List.length m - f) m) = n)
        by (rewrite firstn_skipn; exact Vm).
      rewrite decimalValue_app, Lf in W. exact W.
    + destruct (skipn (List.length m - f) m) eqn:E; [cbn in Lf; lia|].
      reflexivity.
Qed.

Lemma digit_at_front (d : N) (r : list ascii) :
  isDigit d ->
  skipWhitespace (digitChar d :: r) = digitChar d :: r /\
  readSign (digitChar d :: r) = (false, digitChar d :: r).
Proof.
  unfold isDigit. intro H.
  assert (C : (d = 0 \/ d = 1 \/ d = 2 \/ d = 3 \/ d = 4 \/ d = 5 \/ d = 6
               \/ d = 7 \/ d = 8 \/ d = 9)%N) by lia.
  repeat (destruct C as [C|C]; [subst d; split; reflexivity|]).
  subst d. split; reflexivity.
Qed.

Lemma parseFloat_decimalText (negative : bool) (ip fp : list N) :
  Forall isDigit ip -> Forall isDigit fp -> ip <> [] ->
  exists y,
    parseFloat (string_of_list_ascii (decimalText negative ip fp)) = Some y /\
    y == signed negative
           (inject_Z (Z.of_N (decimalValue ip))
            + inject_Z (Z.of_N (decimalValue fp))
              / inject_Z (10 ^ Z.of_nat (List.length fp))).
Proof.
  intros Fi Ff NE. unfold parseFloat.
  rewrite list_ascii_of_string_of_list_ascii. unfold decimalText.
  destruct ip as [|d ip]; [contradiction|].
  assert (Hd : isDigit d) by (inversion Fi; assumption).
  set (tail := match fp with [] => [] | _ => "."%char :: map digitChar fp end).
  assert (St : stopsDigits tail) by (subst tail; destruct fp; reflexivity).
  assert (Front :
    readSign (skipWhitespace
      ((if negative then ["-"%char] else []) ++ map digitChar (d :: ip) ++ tail))
    = (negative, map digitChar (d :: ip) ++ tail)).
  { destruct negative; cbn [app map].
    - reflexivity.
    - destruct (digit_at_front d (map digitChar ip ++ tail) Hd) as [-> ->].
      reflexivity. }
  rewrite Front, (spanDigits_digits (d :: ip) tail Fi St).
  assert (Frac :
    match tail with
    | "."%char :: r => spanDigits r
    | _ => ([], tail)
    end = (fp, [])).
  { subst tail. destruct fp as [|e fp]; [reflexivity|].
    rewrite <- (app_nil_r (map digitChar (e :: fp))).
    apply spanDigits_digits; [exact Ff | exact I]. }
  rewrite Frac.
  eexists. split; [reflexivity|].
  change (10 ^ 0%Z) with 1. rewrite Qmult_1_r. reflexivity.
Qed.

Lemma power_of_ten_positive (f : nat) : 0 < inject_Z (10 ^ Z.of_nat f).
Proof.
  change 0 with (inject_Z 0). rewrite <- Zlt_Qlt.
  apply Z.pow_pos_nonneg; lia.
Qed.

Lemma signed_comp (negative : bool) (a b : Q) :
  a == b -> signed negative a == signed negative b.
Proof. intro E. destruct negative; cbn [signed]; rewrite E; reflexivity. Qed.

(** Reading back what [toFixed f] wrote gives the printed integer over
    [10^f], with the sign of [x]. *)
Lemma parseFloat_toFixed (f : nat) (x : Q) :
  exists y,
    parseFloat (toFixed f x) = Some y /\
    y == signed (JS.ltb x 0)
           (inject_Z (Z.of_N (scaled f x)) / inject_Z (10 ^ Z.of_nat f)).
Proof.
  destruct (toFixed_shape f x) as (ip & fp & Fi & Ff & NE & Lf & V & T).
  destruct (parseFloat_decimalText (JS.ltb x 0) ip fp Fi Ff NE) as (y & P & E).
  rewrite <- T, string_of_list_ascii_of_string in P.
  exists y. split; [exact P|]. rewrite E. apply signed_comp.
  rewrite Lf, <- V.
  rewrite N2Z.inj_add, N2Z.inj_mul, N2Z.inj_pow, nat_N_Z.
  change (Z.of_N 10) with 10%Z.
  rewrite inject_Z_plus, inject_Z_mult.
  pose proof (power_of_ten_positive f) as Pos.
  field. intro Z. rewrite Z in Pos. discriminate.
Qed.

Lemma scaled_bounds (f : nat) (x : Q) :
  let a := if JS.ltb x 0 then - x else x in
  let p := inject_Z (10 ^ Z.of_nat f) in
  inject_Z (Z.of_N (scaled f x)) <= a * p + (1 # 2) /\
  a * p - (1 # 2) < inject_Z (Z.of_N (scaled f x)).
Proof.
  intros a p. unfold scaled. fold a p.
  pose proof (power_of_ten_positive f) as Pos. fold p in Pos.
  assert (A : 0 <= a) by (subst a; case_ltb x 0; lra).
  assert (AP : 0 <= a * p) by (apply Qmult_le_0_compat; lra).
  destruct (Qfloor_bounds (a * p + (1 # 2))) as [L U].
  assert (NN : (0 <= Qfloor (a * p + (1 # 2)))%Z).
  { change 0%Z with (Qfloor 0). apply Qfloor_resp_le. lra. }
  rewrite Z2N.id by exact NN. split; lra.
Qed.

(** [parseFloat (x.toFixed(f))] is a number within half a unit of the last
    printed digit of [x]. *)
Lemma parseFloat_toFixed_near (f : nat) (x : Q) :
  exists y,
    parseFloat (toFixed f x) = Some y /\
    Qabs (y - x) <= (1 # 2) / inject_Z (10 ^ Z.of_nat f).
Proof.
  destruct (parseFloat_toFixed f x) as (y & P & E).
  exists y. split; [exact P|].
  pose proof (power_of_ten_positive f) as Pos.
  destruct (scaled_bounds f x) as [L U]. cbv zeta in L, U.
  set (p := inject_Z (10 ^ Z.of_nat f)) in *.
  set (n := inject_Z (Z.of_N (scaled f x))) in *.
  assert (NZ : ~ p == 0) by (intro Z; rewrite Z in Pos; discriminate).
  apply Qabs_Qle_condition. split.
  - setoid_replace (- ((1 # 2) / p)) with ((- (1 # 2)) / p) by (field; exact NZ).
    apply Qle_shift_div_r; [exact Pos|].
    rewrite E. unfold signed. case_ltb x 0.
    + setoid_replace ((- (n / p) - x) * p) with (- n + (- x) * p)
        by (field; exact NZ).
      set (t := - x * p) in *. lra.
    + setoid_replace ((n / p - x) * p) with (n - x * p) by (field; exact NZ).
      set (t := x * p) in *. lra.
  - apply Qle_shift_div_l; [exact Pos|].
    rewrite E. unfold signed. case_ltb x 0.
    + setoid_replace ((- (n / p) - x) * p) with (- n + (- x) * p)
        by (field; exact NZ).
      set (t := - x * p) in *. lra.
    + setoid_replace ((n / p - x) * p) with (n - x * p) by (field; exact NZ).
      set (t := x * p) in *. lra.
Qed.

Lemma parseInt_toFixed0 (z : Z) : parseInt (toFixed 0 (inject_Z z)) = Some z.
Proof.
  destruct (toFixed_shape 0 (inject_Z z)) as (ip & fp & Fi & _ & NE & Lf & V & T).
  destruct fp; [|discriminate]. clear Lf.
  change (decimalValue []) with 0%N in V. change (N.of_nat 0) with 0%N in V.
  rewrite N.pow_0_r, N.mul_1_r, N.add_0_r in V.
  rewrite <- (string_of_list_ascii_of_string (toFixed 0 (inject_Z z))), T.
  unfold parseInt, decimalText.
  rewrite list_ascii_of_string_of_list_ascii, app_nil_r.
  destruct ip as [|d ip]; [contradiction|].
  assert (Hd : isDigit d) by (inversion Fi; assumption).
  assert (Front :
    readSign (skipWhitespace
      ((if JS.ltb (inject_Z z) 0 then ["-"%char] else []) ++ map digitChar (d :: ip)))
    = (JS.ltb (inject_Z z) 0, map digitChar (d :: ip))).
  { destruct (JS.ltb (inject_Z z) 0); cbn [app map].
    - reflexivity.
    - destruct (digit_at_front d (map digitChar ip) Hd) as [-> ->].
      reflexivity. }
  rewrite Front.
  rewrite <- (app_nil_r (map digitChar (d :: ip))).
  rewrite (spanDigits_digits (d :: ip) [] Fi I).
  rewrite V. f_equal. unfold scaled.
  change (inject_Z (10 ^ Z.of_nat 0)) with 1.
  case_ltb (inject_Z z) 0.
  - change 0 with (inject_Z 0) in E. rewrite <- Zlt_Qlt in E.
    rewrite (Qfloor_unique (- inject_Z z * 1 + (1 # 2)) (- z)).
    + rewrite Z2N.id by lia. lia.
    + rewrite inject_Z_opp. lra.
    + rewrite inject_Z_opp. lra.
  - change 0 with (inject_Z 0) in E. rewrite <- Zle_Qle in E.
    rewrite (Qfloor_unique (inject_Z z * 1 + (1 # 2)) z) by lra.
    rewrite Z2N.id by lia. reflexivity.
Qed.

Lemma parseFloat_toFixed2 (x : Q) :
  exists y, parseFloat (toFixed 2 x) = Some y /\ Qabs (y - x) <= 0.005.
Proof.
  destruct (parseFloat_toFixed_near 2 x) as (y & P & B).
  exists y. split; [exact P|].
  apply (Qle_trans _ _ _ B). vm_compute. discriminate.
Qed.

Lemma parseFloat_toFixed6 (x : Q) :
  exists y, parseFloat (toFixed 6 x) = Some y /\ Qabs (y - x) <= 0.0000005.
Proof.
  destruct (parseFloat_toFixed_near 6 x) as (y & P & B).
  exists y. split; [exact P|].
  apply (Qle_trans _ _ _ B). vm_compute. discriminate.
Qed.

(** ** URL parameters *)

Lemma get_delete_same (key : string) (ps : URLSearchParams) :
  get key (delete key ps) = None.
Proof.
  induction ps as [|[k v] ps IH]; [reflexivity|].
  cbn [delete filter fst]. destruct (String.eqb k key) eqn:E; cbn [negb].
  - exact IH.
  - cbn [get]. rewrite E. exact IH.
Qed.

Lemma get_delete_other (key other : string) (ps : URLSearchParams) :
  key <> other -> get key (delete other ps) = get key ps.
Proof.
  intro N. induction ps as [|[k v] ps IH]; [reflexivity|].
  cbn [delete filter fst get].
  destruct (String.eqb_spec k other) as [->|D]; cbn [negb].
  - destruct (String.eqb_spec other key) as [E|_]; [congruence | exact IH].
  - cbn [get]. destruct (String.eqb k key); [reflexivity | exact IH].
Qed.

Lemma get_set_same (key value : string) (ps : URLSearchParams) :
  get key (set key value ps) = Some value.
Proof.
  induction ps as [|[k v] ps IH]; cbn [set get].
  - rewrite String.eqb_refl. reflexivity.
  - destruct (String.eqb k key) eqn:E; cbn [get]; rewrite E;
      [reflexivity | exact IH].
Qed.

Lemma get_set_other (key other value : string) (ps : URLSearchParams) :
  key <> other -> get key (set other value ps) = get key ps.
Proof.
  intro N. induction ps as [|[k v] ps IH]; cbn [set get].
  - destruct (String.eqb_spec other key) as [E|_]; [congruence | reflexivity].
  - destruct (String.eqb_spec k other) as [->|D]; cbn [get].
    + destruct (String.eqb_spec other key) as [E|_]; [congruence|].
      apply get_delete_other. exact N.
    + destruct (String.eqb k key); [reflexivity | exact IH].
Qed.

(** Reads a parameter of the share link back, skipping the writes to other
    names. *)
Ltac read_param :=
  unfold handleOpenShare;
  match goal with
  | |- context [shareSelectedMountain ?st] =>
      destruct (shareSelectedMountain st)
  end;
  repeat first
    [ rewrite get_set_same
    | rewrite get_delete_same
    | rewrite get_set_other by discriminate
    | rewrite get_delete_other by discriminate ].

Lemma MOUNTAINS_found_by_id :
  Forall (fun m =>
            String.eqb (id m) EmptyString = false /\
            find (fun x => String.eqb (id x) (id m)) MOUNTAINS = Some m)
         MOUNTAINS.
Proof. repeat constructor. Qed.

(** C6: a share link built from the current state and read back at the
    next start reproduces the facade rotation and the declination to
    within 0.005 degrees (half a unit of the second decimal written, hence
    within 0.01), the declination switch and the selected sector exactly
    (with no [m] parameter when none is selected), and likewise the map
    centre (six decimals) and the zoom.  This holds for every rotation of
    [0,360); the other numbers are those printed in fixed notation. *)
Theorem share_link_round_trip :
  forall (current : URLSearchParams) (st : ShareInput),
    0 <= shareFacadeRotation st -> shareFacadeRotation st < 360 ->
    fixedNotation (shareDeclination st) ->
    fixedNotation (shareLat st) -> fixedNotation (shareLon st) ->
    match shareSelectedMountain st with
    | Some m => In m MOUNTAINS
    | None => True
    end ->
    let ps := handleOpenShare current st in
    (exists r, initFacadeRotation ps = Some r /\
               Qabs (r - shareFacadeRotation st) <= 0.005) /\
    (exists d, initDeclination ps = Some d /\
               Qabs (d - shareDeclination st) <= 0.005) /\
    initUseDeclination ps = shareUseDeclination st /\
    initSelectedMountain ps = shareSelectedMountain st /\
    (shareSelectedMountain st = None -> get "m"%string ps = None) /\
    (exists la, initLat ps = Some la /\ Qabs (la - shareLat st) <= 0.0000005) /\
    (exists lo, initLon ps = Some lo /\ Qabs (lo - shareLon st) <= 0.0000005) /\
    initZoom ps = Some (shareZoom st).
Proof.
  intros current st _ _ _ _ _ Sel ps. subst ps.
  split; [|split; [|split; [|split; [|split; [|split; [|split]]]]]].
  - unfold initFacadeRotation. read_param; apply parseFloat_toFixed2.
  - unfold initDeclination. read_param; apply parseFloat_toFixed2.
  - unfold initUseDeclination. read_param;
      destruct (shareUseDeclination st); reflexivity.
  - unfold initSelectedMountain. read_param; [|reflexivity].
    pose proof (proj1 (Forall_forall _ _) MOUNTAINS_found_by_id _ Sel) as [-> ->].
    reflexivity.
  - intro N. unfold handleOpenShare. rewrite N. apply get_delete_same.
  - unfold initLat. read_param; apply parseFloat_toFixed6.
  - unfold initLon. read_param; apply parseFloat_toFixed6.
  - unfold initZoom. read_param; apply parseInt_toFixed0.
Qed.

Lemma share_link_round_trip_witness :
  exists r,
    initFacadeRotation
      (handleOpenShare [("rot"%string, "12"%string)]
         (mkShareInput 55.7539 37.6208 17 359.996 (-3.14159) false
            (Some (nth 4 MOUNTAINS noMountain))))
    = Some r /\
    Qabs (r - 359.996) <= 0.005.
Proof.
  apply (share_link_round_trip [("rot"%string, "12"%string)]
           (mkShareInput 55.7539 37.6208 17 359.996 (-3.14159) false
              (Some (nth 4 MOUNTAINS noMountain))));
    try (vm_compute; (reflexivity || discriminate)).
  cbn. tauto.
Defined.

(** ** Pointer bearing *)







Lemma pointerAngle_cases (raw : Q) :
  (raw < 0 /\ pointerAngle raw = JS.add raw 360) \/
  (0 <= raw /\ pointerAngle raw = raw).
Proof.
  unfold pointerAngle. case_ltb raw 0; [left | right]; split;
    (assumption || reflexivity).
Qed.

Lemma pointerAngle_range (raw : Q) :
  -90 <= raw -> raw <= 270 ->
  (0 <= pointerAngle raw /\ pointerAngle raw <= 360) /\
  (pointerAngle raw == 360 <-> - 2 ^ (-45) <= raw /\ raw < 0).
Proof.
  intros L U.
  assert (Tiny : 0 < 2 ^ (-45)) by apply pow2_pos.
  destruct (pointerAngle_cases raw) as [[H ->]|[H ->]].
  - unfold JS.add. split.
    + apply (nearest_within 0 360); try (cbn; lia);
        [change (inject_Z 0) with 0 | change (inject_Z 360) with 360]; lra.
    + split.
      * intro E. split; [|exact H].
        destruct (Qlt_le_dec raw (- 2 ^ (-45))) as [F|F]; [|exact F].
        exfalso. pose proof (nearest_below_full_turn (raw + 360)). lra.
      * intros [F _]. apply nearest_reaches_full_turn; lra.
  - split; [split; lra|]. split; [intro E; lra | intros []; lra].
Qed.


Lemma handleFacadeRotationChange_comp (x y : Q) :
  x == y -> handleFacadeRotationChange x == handleFacadeRotationChange y.
Proof.
  intro E.
  destruct (handleFacadeRotationChange_cases x) as [[H ->]|[[H ->]|(H & H' & ->)]];
  destruct (handleFacadeRotationChange_cases y) as [[K ->]|[[K ->]|(K & K' & ->)]];
    try (exfalso; lra);
    [apply sub_comp | apply add_comp | ]; (exact E || reflexivity).
Qed.






(** * Further properties of the sources *)

(** ** The setter and the normalisation formula *)

(** Two angles of [0,360) that differ by a whole number of turns are
    equal. *)
Lemma same_turn (a b : Q) (k : Z) :
  0 <= a -> a < 360 -> 0 <= b -> b < 360 ->
  a == b + 360 * inject_Z k -> a == b.
Proof.
  intros La Ua Lb Ub E.
  assert (K : k = 0%Z).
  { assert (A : inject_Z (-1) < inject_Z k) by (change (inject_Z (-1)) with (-1); lra).
    assert (B : inject_Z k < inject_Z 1) by (change (inject_Z 1) with 1; lra).
    rewrite <- Zlt_Qlt in A, B. lia. }
  subst k. rewrite E. change (inject_Z 0) with 0. ring.
Qed.

(** Whole turns do not leave the grid of the multiples of [2^-43]. *)
Lemma turns_on_grid (v : Q) (n k : Z) :
  v == inject_Z n * 2 ^ (-43) ->
  v + 360 * inject_Z k == inject_Z (n + 360 * 2 ^ 43 * k) * 2 ^ (-43).
Proof.
  intro E. rewrite inject_Z_plus, inject_Z_mult, E.
  pose proof full_turn_on_grid as T.
  set (c := inject_Z (360 * 2 ^ 43)) in *. set (p := 2 ^ (-43)) in *.
  assert (D : (inject_Z n + c * inject_Z k) * p
              == inject_Z n * p + c * p * inject_Z k) by ring.
  rewrite D, <- T. reflexivity.
Qed.

Lemma nearest_on_grid (x : Q) (n : Z) :
  x == inject_Z n * 2 ^ (-43) -> Qabs x < 1024 -> Binary64.nearest x == x.
Proof.
  intros E B. rewrite (nearest_comp _ _ E), E. apply nearest_fine_grid.
  rewrite <- E. exact B.
Qed.

Lemma handleFacadeRotationChange_on_grid (v : Q) (n : Z) :
  v == inject_Z n * 2 ^ (-43) -> -360 <= v -> v < 720 ->
  exists k : Z,
    (-1 <= k <= 1)%Z /\
    handleFacadeRotationChange v == v + 360 * inject_Z k /\
    0 <= handleFacadeRotationChange v /\ handleFacadeRotationChange v < 360.
Proof.
  intros G L U.
  destruct (handleFacadeRotationChange_cases v) as [[H ->]|[[H ->]|(H & H' & ->)]].
  - exists (-1)%Z. split; [lia|].
    assert (E : JS.sub v 360 == v + 360 * inject_Z (-1)).
    { unfold JS.sub.
      assert (F : v - 360 == v + 360 * inject_Z (-1))
        by (change (inject_Z (-1)) with (-1); ring).
      rewrite (nearest_comp _ _ F).
      apply (nearest_on_grid _ _ (turns_on_grid v n (-1) G)).
      change (inject_Z (-1)) with (-1). apply Qabs_Qlt_condition. split; lra. }
    rewrite E. change (inject_Z (-1)) with (-1). repeat split; lra.
  - exists 1%Z. split; [lia|].
    assert (E : JS.add v 360 == v + 360 * inject_Z 1).
    { unfold JS.add.
      assert (F : v + 360 == v + 360 * inject_Z 1)
        by (change (inject_Z 1) with 1; ring).
      rewrite (nearest_comp _ _ F).
      apply (nearest_on_grid _ _ (turns_on_grid v n 1 G)).
      change (inject_Z 1) with 1. apply Qabs_Qlt_condition. split; lra. }
    rewrite E. change (inject_Z 1) with 1. repeat split; lra.
  - exists 0%Z. split; [lia|]. change (inject_Z 0) with 0. repeat split; lra.
Qed.

Lemma normalize_on_grid (v : Q) (n : Z) :
  v == inject_Z n * 2 ^ (-43) ->
  exists k : Z, normalize v == v + 360 * inject_Z k.
Proof.
  intro G. unfold normalize.
  destruct (rem360_congruent v) as [a A].
  destruct (rem360_bounds v) as [Lw Uw].
  assert (S : JS.add (JS.rem v 360) 360 == v + 360 * inject_Z (a + 1)).
  { unfold JS.add.
    assert (F : JS.rem v 360 + 360 == v + 360 * inject_Z (a + 1)).
    { rewrite A, inject_Z_plus. change (inject_Z 1) with 1. ring. }
    rewrite (nearest_comp _ _ F).
    apply (nearest_on_grid _ _ (turns_on_grid v n (a + 1) G)).
    rewrite <- F. apply Qabs_Qlt_condition. split; lra. }
  destruct (rem360_congruent (v + 360 * inject_Z (a + 1))) as [b B].
  exists (a + 1 + b)%Z.
  rewrite (rem_comp _ _ 360 S), B, !inject_Z_plus. ring.
Qed.

(** Off the grid the setter and the formula part: the setter keeps the
    double 11.83, the formula moves it to 11.829999999999984. *)
Lemma handleFacadeRotationChange_differs_off_grid :
  let v := 6659697948974121 # 562949953421312 in
  Binary64.isDouble v = true /\
  handleFacadeRotationChange v == v /\
  normalize v == 208115560905441 # 17592186044416 /\
  ~ handleFacadeRotationChange v == normalize v.
Proof.
  cbv zeta. repeat split; try (vm_compute; reflexivity).
  intro H. vm_compute in H. discriminate.
Qed.

(** X1: on the multiples of [2^-43], which include the half-degree grid of
    the slider, the step buttons and the snap, the setter computes for
    every input of [-360,720) the same value as the normalisation formula
    [((v % 360) + 360) % 360] used for the template rotation: the angle of
    [0,360) that differs from the input by -1, 0 or 1 whole turns. *)
Theorem handleFacadeRotationChange_agrees_with_normalize :
  forall (v : Q) (n : Z),
    v == inject_Z n * 2 ^ (-43) -> -360 <= v -> v < 720 ->
    handleFacadeRotationChange v == normalize v /\
    (0 <= handleFacadeRotationChange v /\ handleFacadeRotationChange v < 360) /\
    (exists k : Z,
       (-1 <= k <= 1)%Z /\ handleFacadeRotationChange v == v + 360 * inject_Z k).
Proof.
  intros v n G L U.
  destruct (handleFacadeRotationChange_on_grid v n G L U) as (j & J & E & Lh & Uh).
  destruct (normalize_on_grid v n G) as [k K].
  destruct (normalize_range v) as [Ln Un].
  split; [|split; [split; assumption | exists j; split; assumption]].
  apply (same_turn _ _ (j - k)%Z); try assumption.
  rewrite E, K. unfold Zminus. rewrite inject_Z_plus, inject_Z_opp. ring.
Qed.

Lemma handleFacadeRotationChange_agrees_with_normalize_witness :
  handleFacadeRotationChange (- (1 # 2)) == normalize (- (1 # 2)).
Proof.
  apply (handleFacadeRotationChange_agrees_with_normalize
           (- (1 # 2)) (- 2 ^ 42)%Z);
    vm_compute; (reflexivity || discriminate).
Defined.

(** ** Step buttons *)

(** Off the grid a step forth and back need not return: from the double
    0.3, +0.5 and then -0.5 give 0.30000000000000004. *)
Lemma adjustFacadeRotation_off_grid :
  let r := 5404319552844595 # 18014398509481984 in
  Binary64.isDouble r = true /\
  adjustFacadeRotation (adjustFacadeRotation r (1 # 2)) (- (1 # 2))
  == 1351079888211149 # 4503599627370496 /\
  ~ adjustFacadeRotation (adjustFacadeRotation r (1 # 2)) (- (1 # 2)) == r.
Proof.
  cbv zeta. repeat split; try (vm_compute; reflexivity).
  intro H. vm_compute in H. discriminate.
Qed.

(** X2: on the multiples of [2^-43] adjusting the rotation by [delta] and
    then by [- delta] gives the rotation back, for every stored rotation of
    [0,360) and every [delta] of at most one turn; in particular the two
    0.5-degree step buttons undo each other on the half-degree grid, also
    across the 0/360 seam. *)
Theorem adjustFacadeRotation_undo :
  forall (r delta : Q) (n m : Z),
    r == inject_Z n * 2 ^ (-43) -> delta == inject_Z m * 2 ^ (-43) ->
    0 <= r -> r < 360 -> -360 <= delta -> delta <= 360 ->
    adjustFacadeRotation (adjustFacadeRotation r delta) (- delta) == r.
Proof.
  intros r d n m Gr Gd Lr Ur Ld Ud. unfold adjustFacadeRotation.
  assert (S1 : JS.add r d == r + d).
  { unfold JS.add. apply (nearest_on_grid _ (n + m)).
    - rewrite inject_Z_plus, Gr, Gd. ring.
    - apply Qabs_Qlt_condition. split; lra. }
  assert (G1 : r + d == inject_Z (n + m) * 2 ^ (-43))
    by (rewrite inject_Z_plus, Gr, Gd; ring).
  destruct (handleFacadeRotationChange_on_grid (r + d) (n + m) G1)
    as (j & _ & J & La & Ua); [lra | lra |].
  pose proof (handleFacadeRotationChange_comp _ _ S1) as C1.
  set (a := handleFacadeRotationChange (JS.add r d)) in *.
  rewrite <- C1 in J, La, Ua.
  assert (G2 : a + - d == inject_Z (n + 360 * 2 ^ 43 * j) * 2 ^ (-43)).
  { rewrite <- (turns_on_grid r n j Gr), J. ring. }
  assert (S2 : JS.add a (- d) == a + - d).
  { unfold JS.add. apply (nearest_on_grid _ _ G2).
    apply Qabs_Qlt_condition. split; lra. }
  destruct (handleFacadeRotationChange_on_grid (a + - d) _ G2)
    as (k & _ & K & Lb & Ub); [lra | lra |].
  pose proof (handleFacadeRotationChange_comp _ _ S2) as C2.
  rewrite <- C2 in K, Lb, Ub.
  apply (same_turn _ _ (j + k)%Z); try assumption.
  rewrite K, J, inject_Z_plus. ring.
Qed.

Lemma adjustFacadeRotation_undo_witness :
  adjustFacadeRotation (adjustFacadeRotation 359.75 (1 # 2)) (- (1 # 2)) == 359.75.
Proof.
  apply (adjustFacadeRotation_undo 359.75 (1 # 2) (1439 * 2 ^ 41)%Z (2 ^ 42)%Z);
    vm_compute; (reflexivity || discriminate).
Defined.

(** ** The closed range of the stored rotation *)

Lemma step_keeps_closed_range (h : Host) (i : Input) (st : Orientation) :
  fromControls i -> inClosedRange st -> inClosedRange (step h i st).
Proof.
  intros B [[L U] [L' U']]. unfold inClosedRange.
  destruct i; cbn [fromControls] in B; cbn [step].
  - (* pointer down *)
    destruct (isInteractive h) eqn:I.
    + destruct (handleFacadeDragStart_effect h raw st I) as (-> & -> & _).
      split; [|tauto]. destruct B as [Bl Bu].
      destruct (pointerAngle_range raw Bl Bu) as [[Pl Pu] _].
      apply handleFacadeRotationChange_closed_range; lra.
    + unfold handleFacadeDragStart. rewrite I. cbn [negb]. tauto.
  - (* pointer move *)
    destruct (listening st); [|tauto]. unfold handleMove.
    destruct (calculateRotation_effect h raw st) as (-> & -> & _).
    split; [|tauto]. destruct B as [Bl Bu].
    destruct (pointerAngle_range raw Bl Bu) as [[Pl Pu] _].
    apply handleFacadeRotationChange_closed_range; lra.
  - (* release *)
    destruct (listening st); [|tauto].
    destruct (handleUp_effect h st) as (-> & -> & _).
    split; [|tauto].
    destruct (snap_then_wrap (facadeRotationRef st) L' U') as [[Sl Su] _].
    split; lra.
  - (* ref update *)
    cbn [facadeRotation facadeRotationRef]. tauto.
  - (* slider *)
    cbn [setFacadeRotation facadeRotation facadeRotationRef].
    split; [|tauto]. apply handleFacadeRotationChange_closed_range; lra.
  - (* step buttons *)
    cbn [setFacadeRotation facadeRotation facadeRotationRef].
    split; [|tauto]. unfold adjustFacadeRotation.
    assert (A : -1 <= JS.add (facadeRotation st) (if up then 0.5 else -0.5) /\
                JS.add (facadeRotation st) (if up then 0.5 else -0.5) <= 361).
    { unfold JS.add. apply (nearest_within (-1) 361); try (cbn; lia);
        [change (inject_Z (-1)) with (-1) | change (inject_Z 361) with 361];
        destruct up; lra. }
    apply handleFacadeRotationChange_closed_range; lra.
  - contradiction.
Qed.

(** X24: what is kept on doubles is the closed range.  For every double of
    [-360,720) the setter stores a value of [0,360], which is 360 itself
    exactly for the inputs from [-2^-45] up to zero; and the drag (release
    included), the slider and the two 0.5-degree step buttons keep the
    stored rotation, and its mirror in the ref, in [0,360] from any state
    that satisfies it. *)
Theorem facadeRotation_closed_range :
  (forall v : Q,
     Binary64.isDouble v = true -> -360 <= v -> v < 720 ->
     (0 <= handleFacadeRotationChange v /\ handleFacadeRotationChange v <= 360) /\
     (handleFacadeRotationChange v == 360 <-> - 2 ^ (-45) <= v /\ v < 0)) /\
  (forall (h : Host) (inputs : list Input) (st : Orientation),
     Forall fromControls inputs -> inClosedRange st ->
     inClosedRange (run h inputs st)).
Proof.
  split.
  - intros v D L U. split.
    + apply handleFacadeRotationChange_closed_range; lra.
    + apply handleFacadeRotationChange_full_turn; assumption.
  - intros h inputs st F. revert st.
    induction F as [|i inputs Hi _ IH]; intros st R; cbn [run]; [exact R|].
    apply IH, step_keeps_closed_range; assumption.
Qed.

Lemma facadeRotation_closed_range_witness :
  inClosedRange
    (run (mkHost true false)
       [StepButton false; Slider 360; PointerDown (- 2 ^ (-46)); Commit;
        PointerMove 200.25; Commit; PointerUp; StepButton true]
       (mkOrientation ((1 # 2) - 2 ^ (-54)) 0 false false [] [])).
Proof.
  apply (proj2 facadeRotation_closed_range).
  - repeat constructor; vm_compute; discriminate.
  - repeat split; vm_compute; discriminate.
Defined.

(** ** Snapping to the half-degree grid *)







(** ** Pointer events outside and inside a drag *)

Lemma idle_step (h : Host) (i : Input) (st : Orientation) :
  ignoredWhenIdle h i -> listening st = false ->
  facadeRotation (step h i st) = facadeRotation st /\
  reported (step h i st) = reported st /\
  vibrations (step h i st) = vibrations st /\
  isDraggingFacade (step h i st) = isDraggingFacade st /\
  listening (step h i st) = false.
Proof.
  intros G L. destruct i; cbn [ignoredWhenIdle] in G; try contradiction;
    cbn [step].
  - unfold handleFacadeDragStart. rewrite G. cbn [negb]. tauto.
  - rewrite L. tauto.
  - rewrite L. tauto.
  - cbn. tauto.
Qed.

(** X4: a controller with no drag in progress ignores pointer moves and
    releases (its window listeners exist only between pointer-down and
    release), and an overlay that is not interactive ignores pointer-down
    as well: whatever such events arrive, the facade rotation, the values
    reported to the application, the haptic pulses and the dragging flag
    stay as they were, and no listener gets registered. *)
Theorem idle_controller_ignores_pointer :
  forall (h : Host) (inputs : list Input) (st : Orientation),
    listening st = false ->
    Forall (ignoredWhenIdle h) inputs ->
    facadeRotation (run h inputs st) = facadeRotation st /\
    reported (run h inputs st) = reported st /\
    vibrations (run h inputs st) = vibrations st /\
    isDraggingFacade (run h inputs st) = isDraggingFacade st /\
    listening (run h inputs st) = false.
Proof.
  intros h inputs st L F. revert st L.
  induction F as [|i inputs Hi _ IH]; intros st L; cbn [run]; [tauto|].
  destruct (idle_step h i st Hi L) as (R & P & V & D & L').
  destruct (IH (step h i st) L') as (R' & P' & V' & D' & L'').
  rewrite R', P', V', D', L''. tauto.
Qed.

Lemma idle_controller_ignores_pointer_witness :
  facadeRotation
    (run (mkHost false true)
       [PointerDown 45; PointerMove 90; Commit; PointerUp]
       (mkOrientation 10 10 false false [] []))
  = 10.
Proof.
  apply (idle_controller_ignores_pointer (mkHost false true)
           [PointerDown 45; PointerMove 90; Commit; PointerUp]
           (mkOrientation 10 10 false false [] [])).
  - reflexivity.
  - repeat constructor.
Defined.






(** ** The share link and the parameters around it *)

Lemma occurrences_delete_same (key : string) (ps : URLSearchParams) :
  occurrences key (delete key ps) = 0%nat.
Proof.
  unfold occurrences, delete.
  induction ps as [|[k v] ps IH]; [reflexivity|].
  cbn [filter fst]. destruct (String.eqb k key) eqn:E; cbn [negb].
  - exact IH.
  - cbn [filter fst]. rewrite E. exact IH.
Qed.

Lemma occurrences_delete_other (key other : string) (ps : URLSearchParams) :
  key <> other -> occurrences key (delete other ps) = occurrences key ps.
Proof.
  intro N. unfold occurrences, delete.
  induction ps as [|[k v] ps IH]; [reflexivity|].
  cbn [filter fst].
  destruct (String.eqb_spec k other) as [->|D]; cbn [negb].
  - destruct (String.eqb_spec other key) as [E|_]; [congruence | exact IH].
  - cbn [filter fst]. destruct (String.eqb k key); cbn [List.length];
      rewrite IH; reflexivity.
Qed.

Lemma occurrences_set_same (key value : string) (ps : URLSearchParams) :
  occurrences key (set key value ps) = 1%nat.
Proof.
  induction ps as [|[k v] ps IH]; cbn [set].
  - unfold occurrences. cbn [filter fst]. rewrite String.eqb_refl. reflexivity.
  - destruct (String.eqb k key) eqn:E.
    + pose proof (occurrences_delete_same key ps) as D.
      unfold occurrences in *. cbn [filter fst]. rewrite E.
      cbn [List.length]. rewrite D. reflexivity.
    + unfold occurrences in *. cbn [filter fst]. rewrite E. exact IH.
Qed.

Lemma occurrences_set_other (key other value : string) (ps : URLSearchParams) :
  key <> other -> occurrences key (set other value ps) = occurrences key ps.
Proof.
  intro N. induction ps as [|[k v] ps IH]; cbn [set].
  - unfold occurrences. cbn [filter fst].
    destruct (String.eqb_spec other key) as [E|_]; [congruence | reflexivity].
  - destruct (String.eqb_spec k other) as [->|D].
    + pose proof (occurrences_delete_other key other ps N) as O.
      unfold occurrences in *. cbn [filter fst].
      destruct (String.eqb_spec other key) as [E|_]; [congruence | exact O].
    + unfold occurrences in *. cbn [filter fst].
      destruct (String.eqb k key); cbn [List.length]; rewrite IH; reflexivity.
Qed.

Lemma not_in_shareNames (key : string) :
  ~ In key shareNames ->
  key <> "lat"%string /\ key <> "lon"%string /\ key <> "z"%string /\
  key <> "rot"%string /\ key <> "dec"%string /\ key <> "useDec"%string /\
  key <> "m"%string.
Proof.
  intro N. repeat split; intro E; apply N; subst key; cbn; tauto.
Qed.

(** X6: building the share link touches only its own seven parameters.
    Every other parameter of the current URL reads as before and keeps its
    number of occurrences; each of [lat], [lon], [z], [rot], [dec] and
    [useDec] occurs exactly once afterwards, however often the current URL
    repeated it; and [m] occurs once when a sector is selected and not at
    all otherwise. *)
Theorem handleOpenShare_frame :
  forall (current : URLSearchParams) (st : ShareInput),
    let ps := handleOpenShare current st in
    (forall key, ~ In key shareNames ->
       get key ps = get key current /\
       occurrences key ps = occurrences key current) /\
    (forall key, In key ["lat"; "lon"; "z"; "rot"; "dec"; "useDec"]%string ->
       occurrences key ps = 1%nat) /\
    occurrences "m" ps
      = match shareSelectedMountain st with Some _ => 1%nat | None => 0%nat end.
Proof.
  intros current st ps. subst ps. unfold handleOpenShare.
  split; [|split].
  - intros key N.
    destruct (not_in_shareNames key N) as (N1 & N2 & N3 & N4 & N5 & N6 & N7).
    destruct (shareSelectedMountain st); split;
      repeat first
        [ rewrite get_set_other by assumption
        | rewrite get_delete_other by assumption
        | rewrite occurrences_set_other by assumption
        | rewrite occurrences_delete_other by assumption ];
      reflexivity.
  - intros key K. cbn [In] in K.
    destruct (shareSelectedMountain st);
      repeat (destruct K as [<-|K];
        [repeat first
           [ rewrite occurrences_set_same
           | rewrite occurrences_set_other by discriminate
           | rewrite occurrences_delete_other by discriminate ];
         reflexivity|]);
      contradiction.
  - destruct (shareSelectedMountain st).
    + apply occurrences_set_same.
    + apply occurrences_delete_same.
Qed.

Lemma handleOpenShare_frame_witness :
  get "utm" (handleOpenShare
               [("rot", "1"); ("utm", "a"); ("rot", "2"); ("m", "zz")]%string
               (mkShareInput 55.7539 37.6208 17 12.5 0 true None))
  = Some "a"%string.
Proof.
  destruct (handleOpenShare_frame
              [("rot", "1"); ("utm", "a"); ("rot", "2"); ("m", "zz")]%string
              (mkShareInput 55.7539 37.6208 17 12.5 0 true None)) as [H _].
  destruct (H "utm"%string) as [E _]; [|exact E].
  cbn. intuition discriminate.
Defined.

(** X7: reading the selected sector from the URL is sound and complete for
    the table: whatever the [m] parameter holds, the initial selection is
    either none or a sector of the table whose id is that text; and the id
    of every sector of the table selects exactly that sector. *)
Theorem initSelectedMountain_by_id :
  forall ps : URLSearchParams,
    (forall m, initSelectedMountain ps = Some m ->
       In m MOUNTAINS /\ get "m"%string ps = Some (id m)) /\
    (forall m, In m MOUNTAINS -> get "m"%string ps = Some (id m) ->
       initSelectedMountain ps = Some m).
Proof.
  intro ps. unfold initSelectedMountain. split.
  - intros m H. destruct (get "m"%string ps) as [key|]; [|discriminate].
    destruct (String.eqb key ""); [discriminate|].
    apply find_some in H. destruct H as [I E].
    apply String.eqb_eq in E. subst key. split; [exact I | reflexivity].
  - intros m I G. rewrite G.
    pose proof (proj1 (Forall_forall _ _) MOUNTAINS_found_by_id m I) as [-> ->].
    reflexivity.
Qed.

Lemma initSelectedMountain_by_id_witness :
  initSelectedMountain [("m", "sw2")]%string = Some (nth 16 MOUNTAINS noMountain).
Proof.
  apply (initSelectedMountain_by_id [("m", "sw2")]%string).
  - cbn. tauto.
  - reflexivity.
Defined.

(** ** Values on the printed grid *)








(** ** Single-point elevation lookup *)

Section CoercionFacts.

Variable ToNumber : JsValue -> option Q.

Lemma getAltitude_exec (w : World) (latitude longitude : Q) :
  exec w (getAltitude ToNumber latitude longitude) =
  ([FetchCall (OpenMeteoElevation [latitude] [longitude])],
   Fulfilled
     match network w (OpenMeteoElevation [latitude] [longitude]) with
     | Some (mkResponse true (Some data)) =>
         if truthy data then
           match getProp data "elevation" with
           | Some elevation =>
               if truthy elevation && greaterThanZero ToNumber (lengthOf elevation)
               then firstElement elevation else Null
           | None => Null
           end
         else Null
     | _ => Null
     end).
Proof.
  unfold getAltitude. cbn [bind tryCatch fetch exec].
  destruct (network w _) as [[o j]|]; [|reflexivity].
  cbn [bind tryCatch ok negb].
  destruct o; cbn [negb bind tryCatch exec]; [|reflexivity].
  unfold responseJson. cbn [json].
  destruct j as [d|]; cbn [bind tryCatch exec]; [|reflexivity].
  destruct (truthy d); [|reflexivity].
  unfold prop. destruct (getProp d "elevation") as [e|];
    cbn [bind tryCatch exec]; [|reflexivity].
  destruct (truthy e && greaterThanZero ToNumber (lengthOf e)); reflexivity.
Qed.

(** X10: the single-point elevation lookup makes exactly one request, the
    one the batch lookup makes for that point alone, and never rejects.
    It delivers [null] when the transport fails, the response is not OK or
    the body does not parse; and whenever the body carries a non-empty
    elevation array, it delivers its first entry, which is also what the
    batch lookup holds at index 0.  On an empty array the two differ: the
    single lookup gives [null], the batch lookup passes the empty array
    on. *)
Theorem getAltitude_agrees_with_batch :
  forall (w : World) (latitude longitude : Q),
    let req := OpenMeteoElevation [latitude] [longitude] in
    let single := exec w (getAltitude ToNumber latitude longitude) in
    let batch := exec w (getBatchAltitudes [mkLocation latitude longitude]) in
    fst single = [FetchCall req] /\ fst batch = [FetchCall req] /\
    (exists v, snd single = Fulfilled v) /\
    (match network w req with
     | None => True
     | Some response => ok response = false \/ json response = None
     end -> snd single = Fulfilled Null) /\
    (forall fields e rest,
       network w req = Some (mkResponse true (Some (Obj fields))) ->
       lookupField "elevation" fields = Arr (e :: rest) ->
       snd single = Fulfilled e /\
       exists alts, snd batch = Fulfilled alts /\ getIndex alts 0 = e) /\
    (forall fields,
       network w req = Some (mkResponse true (Some (Obj fields))) ->
       lookupField "elevation" fields = Arr [] ->
       snd single = Fulfilled Null /\ snd batch = Fulfilled (Arr [])).
Proof.
  intros w latitude longitude req single batch. subst single batch.
  rewrite getAltitude_exec, getBatchAltitudes_exec.
  cbn [List.length Nat.eqb map lat lon fst snd]. fold req.
  split; [reflexivity|]. split; [reflexivity|].
  split; [eexists; reflexivity|]. split; [|split].
  - destruct (network w req) as [[o j]|]; [|reflexivity].
    cbn [ok json]. intros [F|F]; subst; [reflexivity|].
    destruct o; reflexivity.
  - intros fields e rest N E. rewrite N. cbn [truthy getProp]. rewrite E.
    cbn [truthy lengthOf greaterThanZero andb firstElement getIndex nth
         List.length].
    assert (P : JS.ltb 0 (inject_Z (Z.of_nat (S (List.length rest)))) = true).
    { apply ltb_true. change 0 with (inject_Z 0). rewrite <- Zlt_Qlt. lia. }
    rewrite P. split; [reflexivity|]. eexists. split; reflexivity.
  - intros fields N E. rewrite N. cbn [truthy getProp]. rewrite E.
    split; reflexivity.
Qed.

End CoercionFacts.

Lemma getAltitude_agrees_with_batch_witness :
  snd (exec (mkWorld (fun _ => Some (mkResponse false None))
                     (fun _ _ => Generated None))
            (getAltitude (fun _ => None) 55.75 37.62))
  = Fulfilled Null.
Proof.
  apply (getAltitude_agrees_with_batch (fun _ => None)
           (mkWorld (fun _ => Some (mkResponse false None))
                    (fun _ _ => Generated None)) 55.75 37.62).
  left. reflexivity.
Defined.

(** ** The analysis panel *)

Lemma orElse_not_empty (s : option string) (fallback : string) :
  fallback <> EmptyString -> orElse s fallback <> EmptyString.
Proof.
  intro F. unfold orElse. destruct s as [t|]; [|exact F].
  destruct (String.eqb_spec t EmptyString); assumption.
Qed.

(** X11: what [handleAnalyze] leaves in the analysis panel.  Without a
    selected sector it makes no call and changes nothing.  With one it
    always settles, never rejects, makes at most one call, clears the
    loading flag and fills exactly one of the two slots, result or error,
    with a text that is never empty (the fallback texts stand in for an
    empty answer and an error without message). *)
Theorem handleAnalyze_outcome :
  forall (w : World) (apiKey : option string) (selected : option Mountain)
         (rotation : Q) (center : option (Q * Q)) (zoom : option Q)
         (analysis : AnalysisState),
    let outcome := exec w (handleAnalyze apiKey selected rotation center zoom analysis) in
    (selected = None -> outcome = ([], Fulfilled analysis)) /\
    (selected <> None ->
       (List.length (fst outcome) <= 1)%nat /\
       exists after,
         snd outcome = Fulfilled after /\
         isLoading after = false /\
         ((exists text, result after = Some text /\ error after = None /\
                        text <> EmptyString) \/
          (exists message, error after = Some message /\ result after = None /\
                           message <> EmptyString))).
Proof.
  intros w apiKey selected rotation center zoom analysis outcome.
  subst outcome. split.
  - intros ->. reflexivity.
  - intro S. destruct selected as [m|]; [|contradiction].
    unfold handleAnalyze, analyzeDirection.
    destruct (keyMissing apiKey).
    + cbn [bind tryCatch exec fst snd List.length]. split; [lia|].
      eexists. split; [reflexivity|]. split; [reflexivity|].
      right. eexists. repeat split. discriminate.
    + cbn [bind tryCatch exec].
      destruct (aiService w _ _) as [text|message];
        cbn [bind tryCatch exec fst snd List.length]; (split; [lia|]);
        eexists; (split; [reflexivity|]); (split; [reflexivity|]).
      * left. eexists. repeat split. apply orElse_not_empty. discriminate.
      * right. eexists. repeat split. apply orElse_not_empty. discriminate.
Qed.

Lemma handleAnalyze_outcome_witness :
  let outcome :=
    exec (mkWorld (fun _ => None) (fun _ _ => GenerateFailed None))
      (handleAnalyze (Some "k"%string) (Some (nth 1 MOUNTAINS noMountain))
         12 None None (mkAnalysisState false (Some "old"%string) None)) in
  (List.length (fst outcome) <= 1)%nat /\
  exists after,
    snd outcome = Fulfilled after /\
    isLoading after = false /\
    ((exists text, result after = Some text /\ error after = None /\
                   text <> EmptyString) \/
     (exists message, error after = Some message /\ result after = None /\
                      message <> EmptyString)).
Proof.
  apply (handleAnalyze_outcome
           (mkWorld (fun _ => None) (fun _ _ => GenerateFailed None))
           (Some "k"%string) (Some (nth 1 MOUNTAINS noMountain)) 12 None None
           (mkAnalysisState false (Some "old"%string) None)).
  discriminate.
Defined.

(** What [toFixed(1)] prints for an angle of [0,360) reads back as a
    number of [0,360] within 0.05 of it. *)
Lemma toFixed1_of_angle (x : Q) :
  0 <= x -> x < 360 ->
  exists q,
    parseFloat (toFixed 1 x) = Some q /\
    0 <= q /\ q <= 360 /\ Qabs (q - x) <= 0.05.
Proof.
  intros L U.
  destruct (parseFloat_toFixed 1 x) as (y & P & E).
  destruct (parseFloat_toFixed_near 1 x) as (y' & P' & B).
  assert (Y : y' = y) by congruence. subst y'.
  exists y. split; [exact P|].
  destruct (scaled_bounds 1 x) as [Su Sl]. cbv zeta in Su, Sl.
  rewrite (proj2 (ltb_false x 0) L) in Su, Sl, E. cbn [signed] in E.
  change (inject_Z (10 ^ Z.of_nat 1)) with 10 in Su, Sl, E.
  set (n := scaled 1 x) in *.
  assert (N : (Z.of_N n <= 3600)%Z).
  { assert (A : inject_Z (Z.of_N n) < inject_Z 3601)
      by (change (inject_Z 3601) with 3601; lra).
    rewrite <- Zlt_Qlt in A. lia. }
  assert (Nq : 0 <= inject_Z (Z.of_N n) /\ inject_Z (Z.of_N n) <= 3600).
  { change 0 with (inject_Z 0). change 3600 with (inject_Z 3600).
    rewrite <- !Zle_Qle. lia. }
  assert (D : inject_Z (Z.of_N n) / 10 == inject_Z (Z.of_N n) * (1 # 10)) by field.
  rewrite D in E.
  split; [rewrite E; lra|]. split; [rewrite E; lra|].
  apply (Qle_trans _ _ _ B). vm_compute. discriminate.
Qed.

(** The rotation printed in the prompt can read 360.0: for the declination
    -0.03 the template rotation is normalised to 359.97, and [toFixed(1)]
    rounds that to the next tenth. *)
Lemma prompt_prints_full_turn :
  let declination := - (1080863910568919 # 36028797018963968) in
  Binary64.isDouble declination = true /\
  normalizedTemplateRotation true declination < 360 /\
  promptRotation
    (promptOf (nth 0 MOUNTAINS noMountain)
       (normalizedTemplateRotation true declination) None None)
  = "360.0"%string.
Proof. cbv zeta. repeat split; vm_compute; reflexivity. Qed.

(** X12: the rotation the AI service is told.  App hands the normalised
    template rotation to [analyzeDirection], which normalises it once more
    and prints it with one decimal.  The text in the prompt reads as a
    number of [0,360] (360.0 included) that lies, around the circle, within
    0.05 + 2^-44 of the normalised template rotation, and within
    0.05 + 2^-43 of the template rotation itself up to whole turns; it is
    "0.0" whenever the declination is switched off. *)
Theorem prompt_rotation_normalized :
  forall (w : World) (apiKey : option string) (m : Mountain)
         (useDeclination : bool) (declination : Q)
         (center : option (Q * Q)) (zoom : option Q),
    keyMissing apiKey = false ->
    let rotation := normalizedTemplateRotation useDeclination declination in
    exists prompt,
      fst (exec w (analyzeDirection apiKey m rotation center zoom))
      = [GenerateCall "gemini-2.5-flash" prompt] /\
      promptMountain prompt = m /\
      (exists q (k j : Z),
         parseFloat (promptRotation prompt) = Some q /\
         0 <= q /\ q <= 360 /\
         (k = 0 \/ k = 1)%Z /\
         Qabs (q + 360 * inject_Z k - rotation) <= 0.05 + 2 ^ (-44) /\
         Qabs (q - (templateRotation useDeclination declination + 360 * inject_Z j))
         <= 0.05 + 2 ^ (-43)) /\
      (useDeclination = false -> promptRotation prompt = "0.0"%string).
Proof.
  intros w apiKey m useDeclination declination center zoom K rotation.
  rewrite analyzeDirection_exec, K. cbn [fst].
  eexists. split; [reflexivity|]. cbn [promptOf promptMountain promptRotation].
  split; [reflexivity|]. split.
  - destruct (normalize_range (templateRotation useDeclination declination))
      as [L U].
    fold (normalizedTemplateRotation useDeclination declination) in L, U.
    fold rotation in L, U.
    destruct (normalize_again_near rotation L U) as (k & Kk & B).
    destruct (normalize_congruent (templateRotation useDeclination declination))
      as [j J].
    fold (normalizedTemplateRotation useDeclination declination) in J.
    fold rotation in J.
    destruct (normalize_range rotation) as [L2 U2].
    destruct (toFixed1_of_angle (normalize rotation) L2 U2) as (q & P & Lq & Uq & Bq).
    exists q, k, (j - k)%Z. split; [exact P|]. split; [exact Lq|]. split; [exact Uq|].
    split; [exact Kk|].
    apply Qabs_Qle_condition in B. apply Qabs_Qle_condition in Bq.
    apply Qabs_Qle_condition in J.
    assert (T : 2 ^ (-43) == 2 * 2 ^ (-44)) by reflexivity.
    unfold Zminus. rewrite inject_Z_plus, inject_Z_opp.
    split; apply Qabs_Qle_condition; destruct B, Bq, J; split; lra.
  - intros ->. vm_compute. reflexivity.
Qed.

Lemma prompt_rotation_normalized_witness :
  exists prompt,
    fst (exec (mkWorld (fun _ => None) (fun _ _ => Generated None))
           (analyzeDirection (Some "k"%string) (nth 0 MOUNTAINS noMountain)
              (normalizedTemplateRotation true (-12)) None None))
    = [GenerateCall "gemini-2.5-flash" prompt] /\
    promptMountain prompt = nth 0 MOUNTAINS noMountain.
Proof.
  destruct (prompt_rotation_normalized
              (mkWorld (fun _ => None) (fun _ _ => Generated None))
              (Some "k"%string) (nth 0 MOUNTAINS noMountain) true (-12) None None
              eq_refl) as (p & E & M & _).
  exists p. split; [exact E | exact M].
Defined.

(** ** The search box *)

Lemma exec_bind {A B : Type} (w : World) (p : Async A) (f : A -> Async B) :
  exec w (bind p f) =
  match snd (exec w p) with
  | Fulfilled a => (fst (exec w p) ++ fst (exec w (f a)), snd (exec w (f a)))
  | Rejected m => (fst (exec w p), Rejected m)
  end.
Proof.
  induction p as [a|m|req k IH|md c k IH]; cbn [bind exec fst snd].
  - destruct (exec w (f a)). reflexivity.
  - reflexivity.
  - rewrite IH. destruct (exec w (k (network w req))) as [calls [a|m]];
      cbn [fst snd]; reflexivity.
  - rewrite IH. destruct (exec w (k (aiService w md c))) as [calls [a|m]];
      cbn [fst snd]; reflexivity.
Qed.

Section SearchBarFacts.

Variable encodeURIComponent : string -> option string.

Lemma searchAddress_settles (w : World) (query : string) :
  exists data,
    snd (exec w (searchAddress encodeURIComponent query)) = Fulfilled data.
Proof.
  rewrite searchAddress_exec.
  destruct (_ || _); [eexists; reflexivity|].
  destruct (encodeURIComponent query); eexists; reflexivity.
Qed.

Lemma searchEffect_long (w : World) (a1 a2 : bool) (query : string)
    (st : SearchState) :
  (3 <= JS.length query)%nat ->
  exists data,
    snd (exec w (searchAddress encodeURIComponent query)) = Fulfilled data /\
    exec w (searchEffect encodeURIComponent a1 a2 query st) =
    (fst (exec w (searchAddress encodeURIComponent query)),
     Fulfilled
       (if a2 then mkSearchState data false true
        else if a1 then mkSearchState (results st) true (searchOpen st)
        else st)).
Proof.
  intro L. destruct (searchAddress_settles w query) as [data D].
  exists data. split; [exact D|].
  unfold searchEffect. apply Nat.leb_le in L. rewrite L.
  rewrite exec_bind, D. cbn [exec fst snd]. rewrite app_nil_r. reflexivity.
Qed.

(** X13: the debounced search of the search box.  A query of fewer than 3
    characters (UTF-16 code units, as [query.length] counts them) makes no
    request, clears the results and closes the list,
    leaving the loading flag as it is.  A longer query whose answer is
    still current replaces the results, clears the loading flag and opens
    the list, also when the search failed and the results are empty.  A
    superseded search still makes its request, but its answer changes
    neither the results nor the open flag; the loading flag it had set
    stays set, and a following short query does not clear it. *)
Theorem searchEffect_behaviour :
  forall (w : World) (query : string) (st : SearchState),
    ((JS.length query < 3)%nat ->
       exec w (searchEffect encodeURIComponent true true query st)
       = ([], Fulfilled (mkSearchState [] (searchLoading st) false))) /\
    ((3 <= JS.length query)%nat ->
       (exists data,
          snd (exec w (searchEffect encodeURIComponent true true query st))
          = Fulfilled (mkSearchState data false true)) /\
       fst (exec w (searchEffect encodeURIComponent true false query st))
         = fst (exec w (searchAddress encodeURIComponent query)) /\
       snd (exec w (searchEffect encodeURIComponent true false query st))
         = Fulfilled (mkSearchState (results st) true (searchOpen st)) /\
       forall short : string,
         (JS.length short < 3)%nat ->
         snd (exec w
                (stale <- searchEffect encodeURIComponent true false query st ;;
                 searchEffect encodeURIComponent true true short stale))
         = Fulfilled (mkSearchState [] true false)).
Proof.
  intros w query st. split.
  - intro L. unfold searchEffect.
    assert (E : (3 <=? JS.length query)%nat = false)
      by (apply Nat.leb_gt; exact L).
    rewrite E. reflexivity.
  - intro L.
    destruct (searchEffect_long w true true query st L) as (data & _ & E1).
    destruct (searchEffect_long w true false query st L) as (data' & _ & E2).
    split; [exists data; rewrite E1; reflexivity|].
    split; [rewrite E2; reflexivity|].
    split; [rewrite E2; reflexivity|].
    intros short S. rewrite exec_bind, E2. cbn [snd].
    unfold searchEffect at 1.
    assert (E : (3 <=? JS.length short)%nat = false)
      by (apply Nat.leb_gt; exact S).
    rewrite E. reflexivity.
Qed.

End SearchBarFacts.

Lemma searchEffect_behaviour_witness :
  snd (exec (mkWorld (fun _ => None) (fun _ _ => Generated None))
         (stale <- searchEffect Some true false "abc"
                     (mkSearchState [] false false) ;;
          searchEffect Some true true "яя" stale))
  = Fulfilled (mkSearchState [] true false).
Proof.
  apply (searchEffect_behaviour Some
           (mkWorld (fun _ => None) (fun _ _ => Generated None))
           "abc" (mkSearchState [] false false)); cbn; lia.
Defined.

(** ** Altitudes around the ring *)

Lemma collectAltitudes_nulls (n : nat) (locations : list (Location * string)) :
  forall (i : nat) (acc : AltitudeMap),
    (i + List.length locations <= n)%nat ->
    collectAltitudes locations i (nullArray n) acc = acc.
Proof.
  induction locations as [|[loc key] rest IH]; intros i acc B;
    cbn [collectAltitudes]; [reflexivity|].
  cbn [List.length] in B.
  unfold storedAltitude, nullArray, getIndex.
  rewrite nth_repeat_lt by lia.
  apply IH. lia.
Qed.

Lemma assign_keys (key : string) (v : JsValue) (obj : AltitudeMap) (k : string) :
  In k (map fst (assign key v obj)) -> k = key \/ In k (map fst obj).
Proof.
  induction obj as [|[k0 x] rest IH]; cbn [assign map fst In].
  - intros [E|[]]. left. symmetry. exact E.
  - destruct (String.eqb k0 key); cbn [map fst In]; tauto.
Qed.

Lemma collectAltitudes_keys (alts : JsValue) (locations : list (Location * string)) :
  forall (i : nat) (acc : AltitudeMap) (k : string),
    In k (map fst (collectAltitudes locations i alts acc)) ->
    In k (map fst acc) \/ In k (map snd locations).
Proof.
  induction locations as [|[loc key] rest IH]; intros i acc k H;
    cbn [collectAltitudes] in H; [left; exact H|].
  cbn [map snd In]. apply IH in H. destruct H as [H|H]; [|tauto].
  destruct (storedAltitude alts i); [|tauto].
  apply assign_keys in H. destruct H as [->|H]; tauto.
Qed.

Lemma assign_fresh (key : string) (v : JsValue) (obj : AltitudeMap) :
  ~ In key (map fst obj) -> assign key v obj = obj ++ [(key, v)].
Proof.
  induction obj as [|[k x] rest IH]; cbn [assign map fst In app];
    [reflexivity|].
  intro N. destruct (String.eqb_spec k key) as [E|_]; [tauto|].
  rewrite IH by tauto. reflexivity.
Qed.

Lemma collectAltitudes_aligned (locations : list (Location * string)) :
  forall (pre es : list JsValue) (acc : AltitudeMap),
    List.length es = List.length locations ->
    Forall (fun e => e <> Null) es ->
    NoDup (map fst acc ++ map snd locations) ->
    collectAltitudes locations (List.length pre) (Arr (pre ++ es)) acc
    = acc ++ combine (map snd locations) es.
Proof.
  induction locations as [|[loc key] rest IH]; intros pre es acc L F D.
  - cbn. rewrite app_nil_r. reflexivity.
  - destruct es as [|e es]; [discriminate|].
    cbn [collectAltitudes map snd combine].
    assert (G : storedAltitude (Arr (pre ++ e :: es)) (List.length pre) = Some e).
    { unfold storedAltitude, getIndex. rewrite nth_middle.
      inversion F; subst. destruct e; congruence. }
    rewrite G.
    assert (Fresh : ~ In key (map fst acc)).
    { cbn [map snd] in D. apply NoDup_remove_2 in D.
      intro H. apply D. apply in_or_app. left. exact H. }
    rewrite (assign_fresh key e acc Fresh).
    replace (pre ++ e :: es) with ((pre ++ [e]) ++ es)
      by (rewrite <- app_assoc; reflexivity).
    replace (S (List.length pre)) with (List.length (pre ++ [e]))
      by (rewrite length_app; cbn; lia).
    rewrite IH.
    + rewrite <- app_assoc. reflexivity.
    + cbn in L. lia.
    + inversion F; assumption.
    + rewrite map_app, <- app_assoc. exact D.
Qed.

(** The batch lookup followed by the collection of the altitudes, for any
    list of located sectors with distinct ids. *)
Lemma collected_altitudes (w : World) (located : list (Location * string)) :
  NoDup (map snd located) ->
  let req := OpenMeteoElevation (map lat (map fst located))
                                (map lon (map fst located)) in
  let after :=
    exec w (alts <- getBatchAltitudes (map fst located) ;;
            Resolve (collectAltitudes located 0 alts [])) in
  (located = [] -> after = ([], Fulfilled [])) /\
  (exists newAltMap,
     snd after = Fulfilled newAltMap /\
     forall k, In k (map fst newAltMap) -> In k (map snd located)) /\
  (match network w req with
   | None => True
   | Some response => ok response = false \/ json response = None
   end -> snd after = Fulfilled []) /\
  (forall fields es,
     network w req = Some (mkResponse true (Some (Obj fields))) ->
     lookupField "elevation" fields = Arr es ->
     List.length es = List.length located ->
     Forall (fun e => e <> Null) es ->
     located <> [] ->
     snd after = Fulfilled (combine (map snd located) es)).
Proof.
  intros D req after. subst after.
  rewrite exec_bind, getBatchAltitudes_exec. rewrite length_map. fold req.
  clearbody req.
  split; [|split; [|split]].
  - intros ->. reflexivity.
  - destruct (List.length located =? 0)%nat; cbn [snd exec];
      (eexists; split; [reflexivity|]);
      intros k H; apply collectAltitudes_keys in H;
      (destruct H as [[]|H]); exact H.
  - intro F.
    destruct (List.length located =? 0)%nat eqn:Z; cbn [snd exec fst].
    + apply Nat.eqb_eq in Z. apply length_zero_iff_nil in Z. rewrite Z.
      reflexivity.
    + assert (N : match network w req with
                  | Some (mkResponse true (Some data)) =>
                      match getProp data "elevation" with
                      | Some elevation =>
                          if truthy elevation then elevation
                          else nullArray (List.length located)
                      | None => nullArray (List.length located)
                      end
                  | _ => nullArray (List.length located)
                  end = nullArray (List.length located)).
      { destruct (network w req) as [[o j]|]; [|reflexivity].
        cbn [ok json] in F. destruct F as [F|F]; subst; [reflexivity|].
        destruct o; reflexivity. }
      rewrite N. f_equal. apply collectAltitudes_nulls. lia.
  - intros fields es N E L F NE.
    destruct (List.length located =? 0)%nat eqn:Z.
    + apply Nat.eqb_eq in Z. apply length_zero_iff_nil in Z. contradiction.
    + cbn [snd exec fst]. rewrite N. cbn [getProp]. rewrite E. cbn [truthy].
      f_equal.
      exact (collectAltitudes_aligned located [] es [] L F D).
Qed.

Section AltitudeSamplingFacts.


Variable locate : Mountain -> option Location.

Lemma sampleLocations_ids (mountains : list Mountain) (k : string) :
  In k (map snd (sampleLocations locate mountains)) ->
  exists m, In m mountains /\ id m = k /\ locate m <> None.
Proof.
  induction mountains as [|m rest IH]; cbn [sampleLocations]; [intros []|].
  destruct (locate m) as [loc|] eqn:E; cbn [map snd In].
  - intros [<-|H].
    + exists m. repeat split; [tauto|congruence].
    + destruct (IH H) as (m' & I & K & N). exists m'. tauto.
  - intro H. destruct (IH H) as (m' & I & K & N). exists m'. cbn [In]. tauto.
Qed.

Lemma sampleLocations_NoDup (mountains : list Mountain) :
  NoDup (map id mountains) ->
  NoDup (map snd (sampleLocations locate mountains)).
Proof.
  induction mountains as [|m rest IH]; cbn [sampleLocations map];
    intro D; [constructor|].
  inversion D as [|? ? N D']; subst.
  destruct (locate m); cbn [map snd]; [|apply IH; exact D'].
  constructor; [|apply IH; exact D'].
  intro H. apply N. apply sampleLocations_ids in H.
  destruct H as (m' & I & K & _). rewrite <- K. apply in_map. exact I.
Qed.

Lemma MOUNTAINS_ids_NoDup : NoDup (map id MOUNTAINS).
Proof.
  cbn. repeat (constructor; [cbn; intuition discriminate|]). constructor.
Qed.

Lemma fetchMountainAltitudes_not_ready (current : AltitudeMap) :
  fetchMountainAltitudes locate false current = Resolve current.
Proof. reflexivity. Qed.

Lemma fetchMountainAltitudes_ready (current : AltitudeMap) :
  fetchMountainAltitudes locate true current =
  (alts <- getBatchAltitudes (map fst (sampleLocations locate MOUNTAINS)) ;;
   Resolve (collectAltitudes (sampleLocations locate MOUNTAINS) 0 alts [])).
Proof. reflexivity. Qed.

(** X14: the altitude map [fetchMountainAltitudes] stores.  Without a map
    it makes no request and leaves the altitudes alone; when no sector can
    be located it makes no request and stores the empty map.  Whatever the
    service answers, only sectors that could be located get an entry.  When
    the lookup fails (transport, response not OK, unparsable body) the map
    is empty.  And when the service answers with one non-null elevation per
    located sector, the i-th elevation is stored under the id of the i-th
    located sector, skipped sectors not counting. *)
Theorem fetchMountainAltitudes_map :
  forall (w : World) (current : AltitudeMap),
    let located := sampleLocations locate MOUNTAINS in
    let req := OpenMeteoElevation (map lat (map fst located))
                                  (map lon (map fst located)) in
    let after := exec w (fetchMountainAltitudes locate true current) in
    exec w (fetchMountainAltitudes locate false current) = ([], Fulfilled current) /\
    (located = [] -> after = ([], Fulfilled [])) /\
    (exists newAltMap,
       snd after = Fulfilled newAltMap /\
       forall k, In k (map fst newAltMap) ->
         exists m, In m MOUNTAINS /\ id m = k /\ locate m <> None) /\
    (match network w req with
     | None => True
     | Some response => ok response = false \/ json response = None
     end -> snd after = Fulfilled []) /\
    (forall fields es,
       network w req = Some (mkResponse true (Some (Obj fields))) ->
       lookupField "elevation" fields = Arr es ->
       List.length es = List.length located ->
       Forall (fun e => e <> Null) es ->
       located <> [] ->
       snd after = Fulfilled (combine (map snd located) es)).
Proof.
  intros w current located req after. subst after req.
  rewrite fetchMountainAltitudes_not_ready, fetchMountainAltitudes_ready.
  fold located.
  assert (D : NoDup (map snd located))
    by (apply sampleLocations_NoDup, MOUNTAINS_ids_NoDup).
  destruct (collected_altitudes w located D) as (E & (m & M & K) & F & A).
  split; [reflexivity|]. split; [exact E|]. split; [|split; assumption].
  exists m. split; [exact M|].
  intros k H. apply sampleLocations_ids, K, H.
Qed.

End AltitudeSamplingFacts.

Lemma fetchMountainAltitudes_map_witness :
  snd (exec (mkWorld (fun _ => None) (fun _ _ => Generated None))
         (fetchMountainAltitudes
            (fun m => if wraps m then None else Some (mkLocation 55 37))
            true [("n1"%string, Num 150)]))
  = Fulfilled [].
Proof.
  apply (fetchMountainAltitudes_map
           (fun m => if wraps m then None else Some (mkLocation 55 37))
           (mkWorld (fun _ => None) (fun _ _ => Generated None))
           [("n1"%string, Num 150)]).
  exact I.
Defined.

(** ** Drawing order of the sectors *)

Lemma insertSorted_perm (cmp : Mountain -> Mountain -> Z) (x : Mountain)
    (l : list Mountain) :
  Permutation (insertSorted cmp x l) (x :: l).
Proof.
  induction l as [|y l IH]; cbn [insertSorted]; [reflexivity|].
  destruct (0 <? cmp x y)%Z; [|reflexivity].
  rewrite IH. apply perm_swap.
Qed.

Lemma stableSort_perm (cmp : Mountain -> Mountain -> Z) (l : list Mountain) :
  Permutation (stableSort cmp l) l.
Proof.
  induction l as [|x l IH]; cbn [stableSort fold_right]; [reflexivity|].
  fold (stableSort cmp l). rewrite insertSorted_perm, IH. reflexivity.
Qed.

Lemma insertSorted_pass (cmp : Mountain -> Mountain -> Z) (x : Mountain)
    (front back : list Mountain) :
  Forall (fun y => (0 <? cmp x y)%Z = true) front ->
  insertSorted cmp x (front ++ back) = front ++ insertSorted cmp x back.
Proof.
  induction 1 as [|y front Hy _ IH]; cbn [app insertSorted]; [reflexivity|].
  rewrite Hy, IH. reflexivity.
Qed.

Lemma insertSorted_stop (cmp : Mountain -> Mountain -> Z) (x : Mountain)
    (l : list Mountain) :
  Forall (fun y => (0 <? cmp x y)%Z = false) l ->
  insertSorted cmp x l = x :: l.
Proof.
  intro F. destruct F as [|y l Hy _]; cbn [insertSorted]; [reflexivity|].
  rewrite Hy. reflexivity.
Qed.

Lemma filter_empty_by_id (f : Mountain -> bool) (l : list Mountain) :
  Forall (fun y => f y = false) l -> filter f l = [].
Proof.
  induction 1 as [|y l Hy _ IH]; cbn [filter]; [reflexivity|].
  rewrite Hy. exact IH.
Qed.

Section DrawingOrder.

Variables sel hov : option string.

Lemma idIs_same_id (x : option string) (a b : Mountain) :
  idIs x a = true -> idIs x b = true -> id a = id b.
Proof.
  destruct x as [s|]; cbn [idIs]; [|discriminate].
  rewrite !String.eqb_eq. congruence.
Qed.

Lemma others_not (x : option string) (m : Mountain) (l : list Mountain) :
  ~ In (id m) (map id l) -> idIs x m = true ->
  Forall (fun y => idIs x y = false) l.
Proof.
  intros N H. apply Forall_forall. intros y I.
  destruct (idIs x y) eqn:E; [|reflexivity].
  exfalso. apply N. rewrite (idIs_same_id x m y H E). apply in_map. exact I.
Qed.

(** On a list without repeated ids the sort puts the plain sectors first,
    in their order, then the hovered one, then the selected one. *)
Lemma stableSort_layers (l : list Mountain) :
  NoDup (map id l) ->
  stableSort (onTopCompare sel hov) l
  = filter (isPlain sel hov) l ++ filter (isHoveredOnly sel hov) l
    ++ filter (isSelected sel) l.
Proof.
  induction l as [|x l IH]; intro D; [reflexivity|].
  cbn [map] in D. inversion D as [|? ? N D']; subst.
  cbn [stableSort fold_right]. fold (stableSort (onTopCompare sel hov) l). rewrite (IH D').
  cbn [filter].
  change (isSelected sel x) with (idIs sel x).
  change (isPlain sel hov x) with (negb (idIs sel x) && negb (idIs hov x)).
  change (isHoveredOnly sel hov x) with (negb (idIs sel x) && idIs hov x).
  destruct (idIs sel x) eqn:S; cbn [negb andb app].
  - (* the selected sector passes everything *)
    pose proof (others_not sel x l N S) as O.
    rewrite (filter_empty_by_id (isSelected sel) l O), app_nil_r.
    rewrite app_assoc.
    rewrite <- (app_nil_r (filter (isPlain sel hov) l
                           ++ filter (isHoveredOnly sel hov) l)) at 1.
    rewrite insertSorted_pass; [reflexivity|].
    apply Forall_forall. intros y _. unfold onTopCompare. rewrite S.
    reflexivity.
  - destruct (idIs hov x) eqn:H; cbn [app].
    + (* the hovered sector passes everything but the selected one *)
      pose proof (others_not hov x l N H) as O.
      assert (E : filter (isHoveredOnly sel hov) l = []).
      { apply filter_empty_by_id. apply Forall_forall. intros y I.
        unfold isHoveredOnly.
        rewrite (proj1 (Forall_forall _ _) O y I). apply andb_false_r. }
      rewrite E. cbn [app].
      rewrite insertSorted_pass.
      * f_equal. apply insertSorted_stop. apply Forall_forall.
        intros y I. apply filter_In in I. destruct I as [_ Sy].
        unfold isSelected in Sy.
        unfold onTopCompare. rewrite S, Sy. reflexivity.
      * apply Forall_forall. intros y I. apply filter_In in I.
        destruct I as [_ P]. unfold isPlain in P.
        apply andb_true_iff in P. destruct P as [P _].
        apply negb_true_iff in P.
        unfold onTopCompare. rewrite S, P, H. reflexivity.
    + (* a plain sector stays in front *)
      apply insertSorted_stop. apply Forall_forall. intros y _.
      unfold onTopCompare. rewrite S, H.
      destruct (idIs sel y); [reflexivity|].
      destruct (idIs hov y); reflexivity.
Qed.

End DrawingOrder.

Lemma MOUNTAINS_selected_alone :
  Forall (fun m => filter (isSelected (Some (id m))) MOUNTAINS = [m]) MOUNTAINS.
Proof. repeat constructor. Qed.

(** X15: the order in which the sectors are drawn.  For every selected and
    hovered id, present or not, [sortedMountains] is a rearrangement of the
    table (no sector is lost or doubled): the sectors that are neither
    selected nor hovered come first in table order, then the hovered one,
    then the selected one; so a selected sector of the table is always
    drawn last, on top of all others. *)
Theorem sortedMountains_layers :
  forall sel hov : option string,
    Permutation (sortedMountains sel hov) MOUNTAINS /\
    sortedMountains sel hov
    = filter (isPlain sel hov) MOUNTAINS
      ++ filter (isHoveredOnly sel hov) MOUNTAINS
      ++ filter (isSelected sel) MOUNTAINS /\
    (forall m, In m MOUNTAINS -> sel = Some (id m) ->
       last (sortedMountains sel hov) noMountain = m).
Proof.
  intros sel hov.
  assert (L := stableSort_layers sel hov MOUNTAINS MOUNTAINS_ids_NoDup).
  fold (sortedMountains sel hov) in L.
  split; [apply stableSort_perm|]. split; [exact L|].
  intros m I ->. rewrite L.
  rewrite (proj1 (Forall_forall _ _) MOUNTAINS_selected_alone m I).
  rewrite !app_assoc. apply last_last.
Qed.

Lemma sortedMountains_layers_witness :
  last (sortedMountains (Some "e2"%string) (Some "n1"%string)) noMountain
  = nth 7 MOUNTAINS noMountain.
Proof.
  apply (sortedMountains_layers (Some "e2"%string) (Some "n1"%string)).
  - cbn. tauto.
  - reflexivity.
Defined.

(** ** Points on the ring *)

Section RingFacts.

Local Open Scope R_scope.

Lemma ringOffset_period (radius t : R) :
  ringOffset radius (t + 360) = ringOffset radius t.
Proof.
  unfold ringOffset. cbv zeta.
  replace ((t + 360 - 90) * PI / 180) with ((t - 90) * PI / 180 + 2 * INR 1 * PI)
    by (simpl; field).
  rewrite cos_period, sin_period. reflexivity.
Qed.

(** X16: the ring points.  The offset of an angle lies on the circle of
    the given radius, it is the same for an angle and that angle plus a
    full turn, and 0, 90, 180 and 270 degrees point up, right, down and
    left on the screen.  Hence the pixel sampled for the wrap-around
    sector, whose midpoint is computed as 360, is the pixel of midpoint
    0. *)
Theorem ringOffset_circle :
  forall radius t : R,
    (fst (ringOffset radius t))² + (snd (ringOffset radius t))² = radius² /\
    ringOffset radius (t + 360) = ringOffset radius t /\
    ringOffset radius 0 = (0, - radius) /\
    ringOffset radius 90 = (radius, 0) /\
    ringOffset radius 180 = (0, radius) /\
    ringOffset radius 270 = (- radius, 0) /\
    (forall (centerGlobal : R * R) (rotation : R),
       samplePixel centerGlobal radius rotation (nth 1 MOUNTAINS noMountain)
       = (fst centerGlobal + fst (ringOffset radius rotation),
          snd centerGlobal + snd (ringOffset radius rotation))).
Proof.
  intros radius t. split; [|split; [apply ringOffset_period|]].
  - unfold ringOffset. cbv zeta. cbn [fst snd].
    pose proof (sin2_cos2 ((t - 90) * PI / 180)) as H.
    unfold Rsqr in *. Lra.nra.
  - assert (Up : ringOffset radius 0 = (0, - radius)).
    { unfold ringOffset. cbv zeta.
      replace ((0 - 90) * PI / 180) with (- (PI / 2)) by field.
      rewrite cos_neg, sin_neg, cos_PI2, sin_PI2. f_equal; ring. }
    assert (Right : ringOffset radius 90 = (radius, 0)).
    { unfold ringOffset. cbv zeta.
      replace ((90 - 90) * PI / 180) with 0 by field.
      rewrite cos_0, sin_0. f_equal; ring. }
    assert (Down : ringOffset radius 180 = (0, radius)).
    { unfold ringOffset. cbv zeta.
      replace ((180 - 90) * PI / 180) with (PI / 2) by field.
      rewrite cos_PI2, sin_PI2. f_equal; ring. }
    assert (Left : ringOffset radius 270 = (- radius, 0)).
    { unfold ringOffset. cbv zeta.
      replace ((270 - 90) * PI / 180) with PI by field.
      rewrite cos_PI, sin_PI. f_equal; ring. }
    repeat split; try assumption.
    intros centerGlobal rotation. unfold samplePixel. cbv zeta.
    assert (M : Q2R (midDegree (nth 1 MOUNTAINS noMountain)) = 360).
    { rewrite (Qeq_eqR _ 360%Q) by (vm_compute; reflexivity).
      unfold Q2R. simpl. field. }
    rewrite M, (Rplus_comm 360 rotation), ringOffset_period.
    destruct (ringOffset radius rotation). reflexivity.
Qed.

End RingFacts.

(** ** Reverse geocoding and magnetic declination *)

(** X19: reverse geocoding never rejects and never delivers an empty label:
    its result is [null] or a truthy value; it is [null] whenever the
    transport fails, the response is not OK, the body does not parse, or
    the body has no (or an empty) [display_name]; and a non-empty
    [display_name] text of an OK response is delivered as it is. *)
Theorem reverseGeocode_result :
  forall reply : FetchResult,
    (exists v, reverseGeocode reply = Resolve v /\ (v = Null \/ truthy v = true)) /\
    (match reply with
     | TransportError _ => True
     | Responded response => ok response = false \/ json response = None
     end -> reverseGeocode reply = Resolve Null) /\
    (forall fields label,
       reply = Responded (mkResponse true (Some (Obj fields))) ->
       lookupField "display_name" fields = Str label ->
       reverseGeocode reply
       = Resolve (if String.eqb label EmptyString then Null else Str label)).
Proof.
  intro reply. unfold reverseGeocode, settledWith, responseJson.
  split; [|split].
  - destruct reply as [[o j]|msg]; cbn [bind tryCatch ok json negb];
      [|eexists; split; [reflexivity|left; reflexivity]].
    destruct o; cbn [negb bind tryCatch];
      [|eexists; split; [reflexivity|left; reflexivity]].
    destruct j as [d|]; cbn [bind tryCatch];
      [|eexists; split; [reflexivity|left; reflexivity]].
    destruct (truthy _) eqn:T; eexists; (split; [reflexivity|]);
      [right; exact T | left; reflexivity].
  - destruct reply as [[o j]|msg]; [|reflexivity].
    cbn [ok json]. intros [F|F]; subst; [reflexivity|].
    destruct o; reflexivity.
  - intros fields label -> E. cbn [bind tryCatch ok json negb getProp].
    rewrite E. cbn [truthy]. destruct (String.eqb label EmptyString);
      reflexivity.
Qed.

Lemma reverseGeocode_result_witness :
  reverseGeocode (Responded (mkResponse false None)) = Resolve Null.
Proof.
  apply (reverseGeocode_result (Responded (mkResponse false None))).
  left. reflexivity.
Defined.

Section DeclinationFacts.

Variable ToNumber : JsValue -> option Q.

(** X20: the declination lookup never makes up a value.  It rejects with
    the transport's own message when the transport fails, with "Service
    unavailable" when the response is not OK, and with "Invalid data
    format from declination service" when the body is falsy or its
    [result] is missing or an empty array; it resolves only for an OK
    response whose body parses, and for a body whose [result] array starts
    with an object it delivers that object's [declination]. *)
Theorem getMagneticDeclination_outcome :
  forall reply : FetchResult,
    (forall message, reply = TransportError message ->
       getMagneticDeclination ToNumber reply = Reject message) /\
    (forall response, reply = Responded response -> ok response = false ->
       getMagneticDeclination ToNumber reply = Reject "Service unavailable") /\
    (forall fields,
       reply = Responded (mkResponse true (Some (Obj fields))) ->
       lookupField "result" fields = Undefined \/
       lookupField "result" fields = Arr [] ->
       getMagneticDeclination ToNumber reply = Reject invalidDeclinationData) /\
    (forall fields first rest,
       reply = Responded (mkResponse true (Some (Obj fields))) ->
       lookupField "result" fields = Arr (Obj first :: rest) ->
       getMagneticDeclination ToNumber reply
       = Resolve (lookupField "declination" first)) /\
    (forall v, getMagneticDeclination ToNumber reply = Resolve v ->
       exists data, reply = Responded (mkResponse true (Some data)) /\
                    truthy data = true).
Proof.
  intro reply. unfold getMagneticDeclination, settledWith, responseJson.
  split; [|split; [|split; [|split]]].
  - intros message ->. reflexivity.
  - intros [o j] -> F. cbn [ok] in F. subst o. reflexivity.
  - intros fields -> E. cbn [bind tryCatch ok json negb truthy prop getProp].
    destruct E as [E|E]; rewrite E; reflexivity.
  - intros fields first rest -> E.
    cbn [bind tryCatch ok json negb truthy prop getProp]. rewrite E.
    cbn [bind tryCatch truthy lengthOf greaterThanZero andb firstElement
         getIndex nth List.length].
    assert (P : JS.ltb 0 (inject_Z (Z.of_nat (S (List.length rest)))) = true).
    { apply ltb_true. change 0 with (inject_Z 0). rewrite <- Zlt_Qlt. lia. }
    rewrite P. reflexivity.
  - intros v H. destruct reply as [[o j]|msg]; [|discriminate].
    destruct o; [|discriminate]. destruct j as [d|]; [|discriminate].
    exists d. split; [reflexivity|].
    cbn [bind tryCatch ok json negb] in H.
    destruct (truthy d); [reflexivity | discriminate].
Qed.


Variable toFixedTypeError : JsValue -> string.


End DeclinationFacts.

Lemma getMagneticDeclination_outcome_witness :
  getMagneticDeclination (fun _ => None) (Responded (mkResponse false None))
  = Reject "Service unavailable".
Proof.
  destruct (getMagneticDeclination_outcome (fun _ => None)
              (Responded (mkResponse false None))) as (_ & H & _).
  apply (H (mkResponse false None)); reflexivity.
Defined.


(** ** Altitude labels *)

Lemma lookupField_assign_same (key : string) (v : JsValue) (obj : AltitudeMap) :
  lookupField key (assign key v obj) = v.
Proof.
  induction obj as [|[k x] rest IH]; cbn [assign lookupField].
  - rewrite String.eqb_refl. reflexivity.
  - destruct (String.eqb k key) eqn:E; cbn [lookupField]; rewrite E;
      [reflexivity | exact IH].
Qed.

Lemma lookupField_assign_other (key other : string) (v : JsValue) (obj : AltitudeMap) :
  key <> other -> lookupField key (assign other v obj) = lookupField key obj.
Proof.
  intro N. induction obj as [|[k x] rest IH]; cbn [assign lookupField].
  - destruct (String.eqb_spec other key); [congruence | reflexivity].
  - destruct (String.eqb_spec k other) as [->|D]; cbn [lookupField].
    + destruct (String.eqb_spec other key); [congruence | reflexivity].
    + destruct (String.eqb k key); [reflexivity | exact IH].
Qed.

Lemma collectAltitudes_other (alts : JsValue) (key : string)
    (locations : list (Location * string)) :
  forall (i : nat) (acc : AltitudeMap),
    ~ In key (map snd locations) ->
    lookupField key (collectAltitudes locations i alts acc) = lookupField key acc.
Proof.
  induction locations as [|[loc k] rest IH]; intros i acc N;
    cbn [collectAltitudes]; [reflexivity|].
  cbn [map snd In] in N. rewrite IH by tauto.
  destruct (storedAltitude alts i); [|reflexivity].
  apply lookupField_assign_other. intro E. apply N. left. symmetry. exact E.
Qed.

Lemma collectAltitudes_lookup (alts : JsValue)
    (locations : list (Location * string)) :
  forall (i j : nat) (acc : AltitudeMap) (loc : Location) (key : string),
    NoDup (map snd locations) ->
    nth_error locations j = Some (loc, key) ->
    lookupField key (collectAltitudes locations i alts acc)
    = match getIndex alts (i + j) with
      | Null => lookupField key acc
      | v => v
      end.
Proof.
  induction locations as [|[loc0 k0] rest IH]; intros i j acc loc key D H.
  - destruct j; discriminate.
  - cbn [map snd] in D. inversion D as [|? ? N D']; subst.
    cbn [collectAltitudes]. destruct j as [|j]; cbn [nth_error] in H.
    + injection H as -> ->. rewrite Nat.add_0_r.
      rewrite collectAltitudes_other by exact N.
      unfold storedAltitude.
      destruct (getIndex alts i); try apply lookupField_assign_same.
      reflexivity.
    + assert (K : key <> k0).
      { intro E. subst k0. apply N. apply nth_error_In in H.
        apply (in_map snd) in H. exact H. }
      rewrite (IH (S i) j _ loc key D' H).
      replace (S i + j)%nat with (i + S j)%nat by lia.
      destruct (getIndex alts (i + S j)); try reflexivity.
      destruct (storedAltitude alts i); [|reflexivity].
      apply lookupField_assign_other. exact K.
Qed.

Lemma MOUNTAINS_id_injective (a b : Mountain) :
  In a MOUNTAINS -> In b MOUNTAINS -> id a = id b -> a = b.
Proof.
  intros A B E.
  pose proof (proj1 (Forall_forall _ _) MOUNTAINS_found_by_id a A) as [_ Fa].
  pose proof (proj1 (Forall_forall _ _) MOUNTAINS_found_by_id b B) as [_ Fb].
  rewrite E in Fa. congruence.
Qed.

Section AltitudeLabelFacts.

Variable locate : Mountain -> option Location.

(** X22: which sectors get an altitude label.  After the altitudes have
    been collected from whatever the batch lookup returned (an array, an
    object with numbered properties, a text), the value kept for the j-th
    located sector is what [alts[j]] reads there, unless that is [null];
    and the hovered sector shows a label exactly when [alts[j]] is neither
    [null] nor [undefined].  So a sector beyond the end of a short reply
    shows no label, and neither does a sector that could not be
    located. *)
Theorem altitude_label_shown :
  forall (alts : JsValue) (m : Mountain),
    In m MOUNTAINS ->
    let located := sampleLocations locate MOUNTAINS in
    let altitudes := collectAltitudes located 0 alts [] in
    (forall j loc,
       nth_error located j = Some (loc, id m) ->
       lookupField (id m) altitudes
       = (if isNull (getIndex alts j) then Undefined else getIndex alts j) /\
       altitudeLabelShown true altitudes (Some (id m)) m
       = negb (isNull (getIndex alts j)) && negb (isUndefined (getIndex alts j))) /\
    (locate m = None ->
       altitudeLabelShown true altitudes (Some (id m)) m = false).
Proof.
  intros alts m I located altitudes.
  assert (D : NoDup (map snd located))
    by (apply sampleLocations_NoDup, MOUNTAINS_ids_NoDup).
  assert (Ids : forall k, In k (map snd located) ->
                  exists m', In m' MOUNTAINS /\ id m' = k /\ locate m' <> None)
    by (intros k H; apply sampleLocations_ids; exact H).
  subst altitudes. clearbody located. split.
  - intros j loc H.
    pose proof (collectAltitudes_lookup alts located 0 j [] loc (id m) D H) as L.
    cbn [Nat.add lookupField] in L.
    assert (V : lookupField (id m) (collectAltitudes located 0 alts [])
                = (if isNull (getIndex alts j) then Undefined else getIndex alts j)).
    { rewrite L. destruct (getIndex alts j); reflexivity. }
    split; [exact V|].
    unfold altitudeLabelShown. rewrite V. cbn [idIs andb].
    rewrite String.eqb_refl, andb_true_r.
    destruct (getIndex alts j); reflexivity.
  - intro N. unfold altitudeLabelShown.
    rewrite collectAltitudes_other; [reflexivity|].
    intro H. destruct (Ids _ H) as (m' & I' & E & L).
    apply L. rewrite (MOUNTAINS_id_injective m' m I' I E). exact N.
Qed.

End AltitudeLabelFacts.

Lemma altitude_label_shown_witness :
  let locate := fun _ : Mountain => Some (mkLocation 55.75 37.62) in
  let alts := Obj [("0"%string, Num 172); ("1"%string, Null)] in
  let shown (i : nat) :=
    altitudeLabelShown true
      (collectAltitudes (sampleLocations locate MOUNTAINS) 0 alts [])
      (Some (id (nth i MOUNTAINS noMountain))) (nth i MOUNTAINS noMountain) in
  shown 0%nat = true /\ shown 1%nat = false /\ shown 2%nat = false.
Proof.
  cbv zeta.
  pose (locate := fun _ : Mountain => Some (mkLocation 55.75 37.62)).
  pose (alts := Obj [("0"%string, Num 172); ("1"%string, Null)]).
  assert (I : forall i, (i < 3)%nat -> In (nth i MOUNTAINS noMountain) MOUNTAINS).
  { intros i H. apply nth_In. cbn. lia. }
  split; [|split].
  - destruct (altitude_label_shown locate alts (nth 0 MOUNTAINS noMountain)
                (I 0%nat ltac:(lia))) as [H _].
    destruct (H 0%nat (mkLocation 55.75 37.62) eq_refl) as [_ B].
    exact B.
  - destruct (altitude_label_shown locate alts (nth 1 MOUNTAINS noMountain)
                (I 1%nat ltac:(lia))) as [H _].
    destruct (H 1%nat (mkLocation 55.75 37.62) eq_refl) as [_ B].
    exact B.
  - destruct (altitude_label_shown locate alts (nth 2 MOUNTAINS noMountain)
                (I 2%nat ltac:(lia))) as [H _].
    destruct (H 2%nat (mkLocation 55.75 37.62) eq_refl) as [_ B].
    exact B.
Defined.

(** ** The table and the texts derived from it *)

(** X23: the table is consistent with the code that reads it.  The ids are
    pairwise distinct and so are the direction codes; every element is one
    of the five that have a colour, so no sector is drawn in the fallback
    colours; and the Russian direction code derived from [direction] is the
    one written in parentheses at the end of [name]. *)
Theorem MOUNTAINS_consistent :
  NoDup (map id MOUNTAINS) /\
  NoDup (map direction MOUNTAINS) /\
  Forall (fun m =>
            getElementTextColor (element m) <> "text-white"%string /\
            getElementGlowColor (element m) <> "rgba(255, 255, 255, 0.9)"%string /\
            endsWith (name m)
              ("(" ++ getRussianDirection (direction m) ++ ")")%string = true)
         MOUNTAINS.
Proof.
  split; [exact MOUNTAINS_ids_NoDup|]. split.
  - cbn. repeat (constructor; [cbn; intuition discriminate|]). constructor.
  - unfold MOUNTAINS.
    repeat (apply Forall_cons;
            [split; [|split]; vm_compute; (discriminate || reflexivity)|]).
    apply Forall_nil.
Qed.
